(** * Verification of three workbench fragments

    - [EditorOverride]: the editor-association override resolver
      (services/editor/browser/editorOverrideService.ts);
    - [ReleaseNotes]: the release-notes loader and renderer
      (the ReleaseNotesManager class);
    - [WebviewPreloads]: the per-output action queue and the 'html' message
      handler of the notebook webview preload script
      (contrib/notebook/browser/view/renderers/webviewPreloads.ts), with
      its dimension updater ([DimensionUpdater]) and focus tracker
      ([FocusTracker]);
    - [ConflictingDefaults], [OpenEditors]: the stored choices among
      conflicting default editors and the closing of the editors of a
      resource, of the override resolver.

    Every definition is a shallow embedding of the TypeScript function of
    the same name.  JavaScript [Map]s whose iteration order is observed are
    association lists in insertion order; maps that are only looked up are
    [gmap]s; objects that are mutated through an alias live in a store. *)

From Stdlib Require Import ZArith Lia Ascii String List Sorted Permutation.
From stdpp Require Import base decidable option list sorting strings gmap.

Local Open Scope Z_scope.

(** ** Helpers shared by the modules *)

(** [Array.prototype.sort(cmp)]: a stable sort; [a] stays before [b]
    unless [cmp a b > 0]. *)
Section ArraySort.
Context {A : Type} (cmp : A -> A -> Z).

Fixpoint sort_insert (x : A) (l : list A) : list A :=
  match l with
  | [] => [x]
  | y :: l' => if 0 <? cmp x y then y :: sort_insert x l' else x :: l
  end.

Fixpoint array_sort (l : list A) : list A :=
  match l with
  | [] => []
  | x :: l' => sort_insert x (array_sort l')
  end.
End ArraySort.

(** The first element of the greatest rank. *)
Fixpoint first_highest {A : Type} (rk : A -> Z) (l : list A) : option A :=
  match l with
  | [] => None
  | x :: l' =>
      match first_highest rk l' with
      | Some y => if rk x <? rk y then Some y else Some x
      | None => Some x
      end
  end.

(** [p] comes first among the elements of [l] of the greatest rank. *)
Definition highest_ranked {A : Type} (rk : A -> Z) (l : list A) (p : A) : Prop :=
  exists l1 l2, l = List.app l1 (p :: l2) /\
    Forall (fun q => rk q < rk p) l1 /\ Forall (fun q => rk q <= rk p) l2.

(** The comparator [(a, b) => rk(b) - rk(a)], and the order it sorts
    into. *)
Definition by_rank {A : Type} (rk : A -> Z) (a b : A) : Z := rk b - rk a.

Definition non_increasing {A : Type} (rk : A -> Z) (a b : A) : Prop := rk b <= rk a.

(** [Array.prototype.find]. *)
Fixpoint array_find {A : Type} (p : A -> bool) (l : list A) : option A :=
  match l with
  | [] => None
  | x :: l' => if p x then Some x else array_find p l'
  end.

(** JavaScript truthiness of a string. *)
Definition truthy (s : string) : bool := negb (String.eqb s "").

Module ContributedEditorPriority.
(** The string enum of common/editorOverrideService.ts. *)
Inductive t : Set := builtin | option | exclusive | default.

Definition eqb (a b : t) : bool :=
  match a, b with
  | builtin, builtin | option, option
  | exclusive, exclusive | default, default => true
  | _, _ => false
  end.
End ContributedEditorPriority.

Module EditorOverride.

(** [EditorOverride] of platform/editor/common/editor.ts together with the
    string alternative of [IEditorOptions.override]. *)
Inductive OverrideOption : Type :=
| OverrideString (viewType : string)
| PICK
| DISABLED.

(** A glob pattern is a string or an [IRelativePattern] object; the latter
    is a [Map] key by identity, hence the reference. *)
Inductive GlobPattern : Type :=
| GlobString (pattern : string)
| GlobRelative (ref : nat) (base pattern : string).

#[export] Instance GlobPattern_eq_dec : EqDecision GlobPattern.
Proof. solve_decision. Defined.

Record EditorAssociation : Type := {
  filenamePattern : string;
  viewType : string
}.

Record ContributedEditorInfo : Type := {
  id : string;
  label : string;
  priority : ContributedEditorPriority.t
}.

(** Outcome of an [async] function. *)
Inductive Promise (A : Type) : Type :=
| Fulfilled (value : A)
| Rejected (error : string).
Arguments Fulfilled {A} value.
Arguments Rejected {A} error.

(** What the service imports and this file does not contain: the URI and
    editor-group types, [globMatchesResource] and [priorityToRank] of
    common/editorOverrideService.ts, and the id of
    [DEFAULT_EDITOR_ASSOCIATION]. *)
Class Platform : Type := {
  URI : Type;
  IEditorGroup : Type;
  globMatchesResource : GlobPattern -> URI -> bool;
  priorityToRank : ContributedEditorPriority.t -> Z;
  DEFAULT_EDITOR_ASSOCIATION_id : string
}.

Section Service.
Context `{Platform}.

Inductive IEditorInput : Type :=
| EditorInput (resource : option URI) (inputViewType : option string)
| DiffEditorInput (resource : option URI) (inputViewType : option string)
    (originalInput modifiedInput : IEditorInput).

Definition input_resource (e : IEditorInput) : option URI :=
  match e with
  | EditorInput r _ => r
  | DiffEditorInput r _ _ _ => r
  end.

Definition input_viewType (e : IEditorInput) : option string :=
  match e with
  | EditorInput _ v => v
  | DiffEditorInput _ v _ _ => v
  end.

Inductive EditorActivation : Set := ACTIVATE | RESTORE | PRESERVE.

Record IEditorOptions : Type := {
  override : option OverrideOption;
  preserveFocus : option bool;
  activation : option EditorActivation
}.

Record IEditorInputWithOptions : Type := {
  iwo_editor : IEditorInput;
  iwo_options : option IEditorOptions
}.

Record IEditorInputWithOptionsAndGroup : Type := {
  editor : IEditorInput;
  options : option IEditorOptions;
  group : IEditorGroup
}.

(** [ContributionPointOptions]; a member that may be a function or a value
    is given by the value it evaluates to. *)
Record ContributionPointOptions : Type := {
  singlePerResource : option bool;
  canHandleDiff : option bool;
  canSupportResource : option (URI -> bool)
}.

Record ContributionPoint : Type := {
  globPattern : GlobPattern;
  editorInfo : ContributedEditorInfo;
  cp_options : option ContributionPointOptions;
  describes : IEditorInput -> bool;
  createEditorInput :
    URI -> option IEditorOptions -> IEditorGroup -> IEditorInputWithOptions;
  createDiffEditorInput :
    option (IEditorInput -> option IEditorOptions -> IEditorGroup ->
            IEditorInputWithOptions)
}.

Definition ContributionPoints : Type := list ContributionPoint.

(** The data stores of the service.  [_contributionPoints] is the [Map] in
    insertion order; [associations] is the value of the
    [workbench.editorAssociations] setting as [Object.entries] lists it. *)
Record Service : Type := {
  _contributionPoints : list (GlobPattern * ContributionPoints);
  cache : option (list string);
  associations : list (string * string)
}.

(** [Map.prototype.get], [Map.prototype.keys] and [Map.prototype.set]. *)
Fixpoint map_get (key : GlobPattern) (m : list (GlobPattern * ContributionPoints))
  : option ContributionPoints :=
  match m with
  | [] => None
  | (k, v) :: m' => if decide (k = key) then Some v else map_get key m'
  end.

Definition map_keys (m : list (GlobPattern * ContributionPoints)) : list GlobPattern :=
  map fst m.

Fixpoint map_set (key : GlobPattern) (v : ContributionPoints)
    (m : list (GlobPattern * ContributionPoints))
  : list (GlobPattern * ContributionPoints) :=
  match m with
  | [] => [(key, v)]
  | (k, w) :: m' =>
      if decide (k = key) then (k, v) :: m' else (k, w) :: map_set key v m'
  end.

(** [registerContributionPoint]; the contribution point carries the glob
    pattern it is registered under. *)
Definition registerContributionPoint (cp : ContributionPoint) (s : Service) : Service :=
  let key := globPattern cp in
  let m := match map_get key (_contributionPoints s) with
           | None => map_set key [] (_contributionPoints s)
           | Some _ => _contributionPoints s
           end in
  {| _contributionPoints :=
       map_set key (List.app (default [] (map_get key m)) [cp]) m;
     cache := cache s;
     associations := associations s |}.

Definition getAllUserAssociations (s : Service) : list EditorAssociation :=
  map (fun kv => {| filenamePattern := fst kv; viewType := snd kv |})
      (associations s).

Definition _allContributions (s : Service) : ContributionPoints :=
  concat (map snd (_contributionPoints s)).

Definition getAssociationsForResource (s : Service) (resource : URI)
  : list EditorAssociation :=
  let associations := getAllUserAssociations s in
  let matchingAssociations :=
    List.filter (fun association =>
              truthy (filenamePattern association) &&
              globMatchesResource (GlobString (filenamePattern association)) resource)
           associations in
  let allContributions := _allContributions s in
  List.filter (fun association =>
            bool_decide (is_Some (array_find
              (fun c => String.eqb (id (editorInfo c)) (viewType association))
              allContributions)))
         matchingAssociations.

Definition rank_compare (a b : ContributionPoint) : Z :=
  priorityToRank (priority (editorInfo b)) - priorityToRank (priority (editorInfo a)).

Definition findMatchingContributions (s : Service) (resource : URI)
  : list ContributionPoint :=
  let userSettings := getAssociationsForResource s resource in
  let contributions :=
    flat_map (fun key =>
      let contributionPoints := default [] (map_get key (_contributionPoints s)) in
      List.filter (fun contributionPoint =>
        let foundInSettings :=
          array_find (fun setting =>
            String.eqb (viewType setting) (id (editorInfo contributionPoint)))
            userSettings in
        bool_decide (is_Some foundInSettings) || globMatchesResource key resource)
        contributionPoints)
      (map_keys (_contributionPoints s)) in
  array_sort rank_compare contributions.

Definition getEditorIds (s : Service) (resource : URI) : list string :=
  let contributionPoints := findMatchingContributions s resource in
  map (fun contribution => id (editorInfo contribution)) contributionPoints.

(** The inner helper of [getContributionPoint]. *)
Definition findMatchingContribPoint (resource : URI)
    (contributionPoints : ContributionPoints) (viewType : option string)
  : option ContributionPoint :=
  array_find (fun contribPoint =>
    let same := match viewType with
                | Some v => String.eqb (id (editorInfo contribPoint)) v
                | None => false
                end in
    match cp_options contribPoint with
    | Some o =>
        match canSupportResource o with
        | Some supports => same && supports resource
        | None => same
        end
    | None => same
    end) contributionPoints.

Definition possibleContributionPoints (contributionPoints : ContributionPoints)
  : ContributionPoints :=
  List.filter (fun contribPoint =>
    (priorityToRank ContributedEditorPriority.builtin
       <=? priorityToRank (priority (editorInfo contribPoint)))
    && negb (String.eqb (id (editorInfo contribPoint)) DEFAULT_EDITOR_ASSOCIATION_id))
    contributionPoints.

(** [a || b] on [string | undefined]. *)
Definition or_else (a b : option string) : option string :=
  match a with
  | Some v => if truthy v then Some v else b
  | None => b
  end.

(** The [selectedViewType] constant of [getContributionPoint]. *)
Definition selectedViewType (s : Service) (resource : URI) : option string :=
  let contributionPoints := findMatchingContributions s resource in
  let associationsFromSetting := getAssociationsForResource s resource in
  let possible := possibleContributionPoints contributionPoints in
  if match head possible with
     | Some p => ContributedEditorPriority.eqb (priority (editorInfo p))
                   ContributedEditorPriority.exclusive
     | None => false
     end
  then (fun p => id (editorInfo p)) <$> head possible
  else or_else (viewType <$> head associationsFromSetting)
               ((fun p => id (editorInfo p)) <$> head possible).

Definition getContributionPoint (s : Service) (resource : URI) (override : option string)
  : option ContributionPoint * bool :=
  if match override with Some o => truthy o | None => false end
  then (findMatchingContribPoint resource (_allContributions s) override, false)
  else
    let contributionPoints := findMatchingContributions s resource in
    let associationsFromSetting := getAssociationsForResource s resource in
    let possible := possibleContributionPoints contributionPoints in
    let conflictingDefault :=
      (length associationsFromSetting =? 0)%nat && (1 <? length possible)%nat in
    (findMatchingContribPoint resource contributionPoints (selectedViewType s resource),
     conflictingDefault).

(** [resourceMatchesCache]. *)
Definition resourceMatchesCache (s : Service) (resource : URI) : bool :=
  match cache s with
  | None => false
  | Some entries =>
      existsb (fun cacheEntry => globMatchesResource (GlobString cacheEntry) resource)
              entries
  end.

(** What [resolveEditorOverride] does besides computing its result. *)
Inductive Effect : Type :=
| AwaitExtensions
| PickEditor
| CloseExistingEditors (resource : URI) (viewType : string) (target : IEditorGroup)
| ConflictingDefaults (editorLabel : string)
| OverrideTelemetry (viewType : string).

(** What the user did in the quick pick of [doPickEditorOverride]:
    the id of the accepted item, whether it was accepted in the
    background, and the side group chosen with a key modifier. *)
Record EditorOverridePick : Type := {
  item_id : option string;
  openInBackground : bool;
  targetGroup : option IEditorGroup
}.

(** The answers of the extension host and of the user during one call. *)
Record Interaction : Type := {
  whenInstalledExtensionsRegistered : Promise bool;
  picked : option EditorOverridePick
}.

(** The tail of [doPickEditorOverride]: the options and group built from
    the pick. *)
Definition doPickEditorOverride (io : Interaction) (options : option IEditorOptions)
  : option (IEditorOptions * option IEditorGroup) :=
  match picked io with
  | None => None
  | Some pick =>
      let targetOptions :=
        {| override := OverrideString <$> item_id pick;
           preserveFocus :=
             if openInBackground pick then Some true
             else options ≫= preserveFocus;
           activation := options ≫= activation |} in
      Some (targetOptions, targetGroup pick)
  end.

Definition is_diff (e : IEditorInput) : bool :=
  match e with DiffEditorInput _ _ _ _ => true | EditorInput _ _ => false end.

Definition doOverrideEditorInput (editor : IEditorInput)
    (options : option IEditorOptions) (group : IEditorGroup)
    (selectedContribution : ContributionPoint) (resource : URI)
  : option IEditorInputWithOptions * list Effect :=
  let options :=
    match options with
    | Some o =>
        match activation o with
        | None =>
            Some {| override := override o;
                    preserveFocus := preserveFocus o;
                    activation :=
                      if default false (preserveFocus o) then Some RESTORE else None |}
        | Some _ => Some o
        end
    | None => None
    end in
  if is_diff editor then
    match createDiffEditorInput selectedContribution with
    | None => (None, [])
    | Some create => (Some (create editor options group), [])
    end
  else
    let inputWithOptions := createEditorInput selectedContribution resource options group in
    let options := match iwo_options inputWithOptions with
                   | Some o => Some o
                   | None => options
                   end in
    let input := iwo_editor inputWithOptions in
    let singleEditorPerResource :=
      default false (cp_options selectedContribution ≫= singlePerResource) in
    (Some {| iwo_editor := input; iwo_options := options |},
     if singleEditorPerResource
     then [CloseExistingEditors resource (id (editorInfo selectedContribution)) group]
     else []).

(** [resolveEditorOverride]: the settled promise and the effects in order. *)
Definition resolveEditorOverride (io : Interaction) (s : Service)
    (editor : IEditorInput) (options : option IEditorOptions) (group : IEditorGroup)
  : Promise (option IEditorInputWithOptionsAndGroup) * list Effect :=
  let unchanged :=
    Fulfilled (Some {| editor := editor; options := options; group := group |}) in
  let waits :=
    match cache s, input_resource editor with
    | Some _, Some r => resourceMatchesCache s r
    | _, _ => false
    end in
  match (if waits then whenInstalledExtensionsRegistered io else Fulfilled true) with
  | Rejected err => (Rejected err, [AwaitExtensions])
  | Fulfilled _ =>
  let log0 := if waits then [AwaitExtensions] else [] in
  match options ≫= override with
  | Some DISABLED =>
      (Rejected "Calling resolve editor override when override is explicitly disabled!",
       log0)
  | requested =>
  let target :=
    match editor with
    | DiffEditorInput _ _ originalInput modifiedInput =>
        match input_resource modifiedInput, input_resource originalInput with
        | Some r, Some _ => Some r
        | _, _ => None
        end
    | EditorInput r _ => r
    end in
  match target with
  | None => (unchanged, log0)
  | Some resource =>
  let override0 :=
    match requested with
    | Some (OverrideString v) => Some v
    | _ => input_viewType editor
    end in
  let pick :=
    match requested with
    | Some PICK =>
        match doPickEditorOverride io options with
        | None => None
        | Some (o, g) =>
            Some (match override o with
                  | Some (OverrideString v) => Some v
                  | _ => None
                  end, Some o, default group g, List.app log0 [PickEditor])
        end
    | _ => Some (override0, options, group, log0)
    end in
  match pick with
  | None => (Fulfilled None, List.app log0 [PickEditor])
  | Some (override1, options, group, log1) =>
  let (contributionPoint, conflictingDefault) :=
    getContributionPoint s resource override1 in
  match contributionPoint with
  | None =>
      (Fulfilled (Some {| editor := editor; options := options; group := group |}), log1)
  | Some selectedContribution =>
  let handlesDiff := cp_options selectedContribution ≫= canHandleDiff in
  if is_diff editor && bool_decide (handlesDiff = Some false) then
    (Fulfilled (Some {| editor := editor; options := options; group := group |}), log1)
  else if describes selectedContribution editor then (Fulfilled None, log1)
  else
    let (input, log2) :=
      doOverrideEditorInput editor options group selectedContribution resource in
    match input with
    | None => (Fulfilled None, List.app log1 log2)
    | Some i =>
        let log3 :=
          if conflictingDefault
          then [ConflictingDefaults (label (editorInfo selectedContribution))]
          else [] in
        let log4 :=
          match input_viewType (iwo_editor i) with
          | Some v => if truthy v then [OverrideTelemetry v] else []
          | None => []
          end in
        (Fulfilled (Some {| editor := iwo_editor i;
                            options := iwo_options i;
                            group := group |}),
         List.app log1 (List.app log2 (List.app log3 log4)))
    end
  end end end end end.

(** The invariant of [_contributionPoints]: [Map] keys are distinct, and
    [registerContributionPoint] files every contribution point under its
    own glob pattern. *)
Definition well_formed (s : Service) : bool :=
  bool_decide (NoDup (map_keys (_contributionPoints s))) &&
  forallb (fun kv => forallb (fun cp => bool_decide (globPattern cp = fst kv)) (snd kv))
          (_contributionPoints s).

(** A user association matches the resource and names the contribution
    point. *)
Definition association_names (s : Service) (resource : URI) (cp : ContributionPoint)
  : bool :=
  existsb (fun a =>
             truthy (filenamePattern a) &&
             globMatchesResource (GlobString (filenamePattern a)) resource &&
             String.eqb (viewType a) (id (editorInfo cp)))
          (getAllUserAssociations s).

(** The contribution point glob-matches the resource or is named by a
    matching user association. *)
Definition matches_resource (s : Service) (resource : URI) (cp : ContributionPoint)
  : bool :=
  globMatchesResource (globPattern cp) resource || association_names s resource cp.

Definition rank (cp : ContributionPoint) : Z := priorityToRank (priority (editorInfo cp)).

Definition is_exclusive (cp : ContributionPoint) : bool :=
  ContributedEditorPriority.eqb (priority (editorInfo cp))
    ContributedEditorPriority.exclusive.

(** The precedence as the specification words it: the highest-ranked
    matching contribution if exclusive, else the first user association
    matching the resource, else the highest-ranked matching contribution of
    at least builtin priority that is not the default editor. *)
Definition claimed_selectedViewType (s : Service) (resource : URI) : option string :=
  let matching := findMatchingContributions s resource in
  let from_settings_or_builtin :=
    match array_find (fun a =>
            truthy (filenamePattern a) &&
            globMatchesResource (GlobString (filenamePattern a)) resource)
            (getAllUserAssociations s) with
    | Some a => Some (viewType a)
    | None => (fun p => id (editorInfo p)) <$> head (possibleContributionPoints matching)
    end in
  match head matching with
  | Some top => if is_exclusive top then Some (id (editorInfo top))
                else from_settings_or_builtin
  | None => from_settings_or_builtin
  end.

(** The registered contribution points that match the resource, have at
    least builtin rank and are not the default editor, in registration
    order. *)
Definition eligible (s : Service) (resource : URI) : ContributionPoints :=
  List.filter (fun cp =>
            matches_resource s resource cp &&
            (priorityToRank ContributedEditorPriority.builtin <=? rank cp) &&
            negb (String.eqb (id (editorInfo cp)) DEFAULT_EDITOR_ASSOCIATION_id))
         (_allContributions s).

(** The first user association that matches the resource and names a
    registered contribution point. *)
Definition first_valid_association (s : Service) (resource : URI)
  : option EditorAssociation :=
  array_find (fun a =>
                truthy (filenamePattern a) &&
                globMatchesResource (GlobString (filenamePattern a)) resource &&
                existsb (fun c => String.eqb (id (editorInfo c)) (viewType a))
                        (_allContributions s))
             (getAllUserAssociations s).

(** The precedence the code implements, stated on the registered
    contribution points and the user associations. *)
Definition amended_selectedViewType (s : Service) (resource : URI) : option string :=
  let best := first_highest rank (eligible s resource) in
  let setting := first_valid_association s resource in
  let from_setting := or_else (viewType <$> setting) ((fun p => id (editorInfo p)) <$> best) in
  match best with
  | Some p => if is_exclusive p then Some (id (editorInfo p)) else from_setting
  | None => from_setting
  end.

Definition is_rejected {A : Type} (p : Promise A) : bool :=
  match p with Rejected _ => true | Fulfilled _ => false end.

End Service.

(** ** A concrete platform and services for examples *)

Fixpoint ends_with (ext r : string) : bool :=
  String.eqb ext r ||
  match r with
  | String _ r' => ends_with ext r'
  | EmptyString => false
  end.

Definition example_glob (g : GlobPattern) (r : string) : bool :=
  match g with
  | GlobString (String "*" ext) => ends_with ext r
  | GlobString p => String.eqb p r
  | GlobRelative _ _ _ => false
  end.

Definition example_rank (p : ContributedEditorPriority.t) : Z :=
  match p with
  | ContributedEditorPriority.exclusive => 5
  | ContributedEditorPriority.default => 4
  | ContributedEditorPriority.builtin => 3
  | ContributedEditorPriority.option => 1
  end.

Definition example_platform : Platform :=
  {| URI := string;
     IEditorGroup := nat;
     globMatchesResource := example_glob;
     priorityToRank := example_rank;
     DEFAULT_EDITOR_ASSOCIATION_id := "default" |}.

#[local] Existing Instance example_platform.

Definition example_point (glob editorId : string) (p : ContributedEditorPriority.t)
  : ContributionPoint :=
  {| globPattern := GlobString glob;
     editorInfo := {| id := editorId; label := editorId; priority := p |};
     cp_options := None;
     describes := fun _ => false;
     createEditorInput := fun r o _ =>
       {| iwo_editor := EditorInput (Some r) (Some editorId);
          iwo_options := o |};
     createDiffEditorInput := None |}.

Definition empty_service (settings : list (string * string)) : Service :=
  {| _contributionPoints := []; cache := None; associations := settings |}.

(** Three editors for markdown files, one of them only an option, and a
    hex editor the user has associated with [*.bin]. *)
Definition example_service : Service :=
  registerContributionPoint
    (example_point "*" "hexEditor" ContributedEditorPriority.option)
    (registerContributionPoint
       (example_point "*.md" "markdown.preview" ContributedEditorPriority.default)
       (registerContributionPoint
          (example_point "*.md" "markdown.wysiwyg" ContributedEditorPriority.option)
          (registerContributionPoint
             (example_point "*.ipynb" "jupyter" ContributedEditorPriority.exclusive)
             (empty_service [("*.bin", "hexEditor"); ("*.md", "markdown.wysiwyg")])))).

(** A builtin markdown preview, and a user association for [*.md] that
    names an editor that is not registered. *)
Definition dangling_service : Service :=
  registerContributionPoint
    (example_point "*.md" "markdown.preview" ContributedEditorPriority.builtin)
    (empty_service [("*.md", "ghost.editor")]).

(** An exclusive contribution that carries the id of the default editor,
    and a builtin markdown preview. *)
Definition exclusive_default_service : Service :=
  registerContributionPoint
    (example_point "*.md" "markdown.preview" ContributedEditorPriority.builtin)
    (registerContributionPoint
       (example_point "*.md" "default" ContributedEditorPriority.exclusive)
       (empty_service [])).

Definition example_options (o : OverrideOption) : IEditorOptions :=
  {| override := Some o; preserveFocus := None; activation := None |}.

Definition example_interaction : Interaction :=
  {| whenInstalledExtensionsRegistered := Fulfilled true; picked := None |}.

End EditorOverride.

(** ** JavaScript strings

    A string is its sequence of UTF-16 code units. *)

Abbreviation jsstring := (list N).

Fixpoint str (s : string) : jsstring :=
  match s with
  | EmptyString => []
  | String a s' => N_of_ascii a :: str s'
  end.

(** The longest prefix whose code units satisfy [p], and the rest. *)
Fixpoint span (p : N -> bool) (s : jsstring) : jsstring * jsstring :=
  match s with
  | c :: s' => if p c then (c :: fst (span p s'), snd (span p s')) else ([], s)
  | [] => ([], [])
  end.

(** [\d] *)
Definition is_digit (c : N) : bool := ((48 <=? c) && (c <=? 57))%N.

(** [\s]: the white space and line terminators of ECMAScript. *)
Definition is_space (c : N) : bool :=
  (((9 <=? c) && (c <=? 13)) || (c =? 32) || (c =? 160) || (c =? 5760) ||
   ((8192 <=? c) && (c <=? 8202)) || (c =? 8232) || (c =? 8233) ||
   (c =? 8239) || (c =? 8287) || (c =? 12288) || (c =? 65279))%N.

Definition is_lower (c : N) : bool := ((97 <=? c) && (c <=? 122))%N.
Definition is_upper (c : N) : bool := ((65 <=? c) && (c <=? 90))%N.

(** A pattern character under the [i] flag (the pattern is written in lower
    case): only ASCII letters have a second case. *)
Definition same_char_ci (p c : N) : bool :=
  ((c =? p) || (is_lower p && (c =? p - 32)))%N.

(** Match a literal at the start of [s]; the rest of [s] on success. *)
Fixpoint match_literal (lit s : jsstring) : option jsstring :=
  match lit with
  | [] => Some s
  | p :: lit' =>
      match s with
      | c :: s' => if same_char_ci p c then match_literal lit' s' else None
      | [] => None
      end
  end.

(** A regular expression of the shape [prefix(class+)suffix] with the
    flags [gi] and one capture group. *)
Record ReferencePattern : Type := {
  prefix : jsstring;
  binding_class : N -> bool;
  suffix : jsstring
}.

(** Match at the start of [s]: the captured group and the length of the
    match.  The class never contains the first unit of the suffix, so the
    greedy run is the only candidate. *)
Definition match_at (pat : ReferencePattern) (s : jsstring) : option (jsstring * nat) :=
  match match_literal (prefix pat) s with
  | Some rest =>
      let (binding, rest') := span (binding_class pat) rest in
      match binding with
      | [] => None
      | _ :: _ =>
          match match_literal (suffix pat) rest' with
          | Some _ =>
              Some (binding,
                    (length (prefix pat) + length binding + length (suffix pat))%nat)
          | None => None
          end
      end
  | None => None
  end.

(** [String.prototype.replace] with such a pattern and a callback that
    receives the match and the group; [skip] code units of a match are
    still to be passed over. *)
Fixpoint replace_from (pat : ReferencePattern) (f : jsstring -> jsstring -> jsstring)
    (skip : nat) (s : jsstring) : jsstring :=
  match s with
  | [] => []
  | c :: s' =>
      match skip with
      | S k => replace_from pat f k s'
      | O =>
          match match_at pat s with
          | Some (binding, len) =>
              List.app (f (take len s) binding) (replace_from pat f (pred len) s')
          | None => c :: replace_from pat f 0 s'
          end
      end
  end.

Definition replace (pat : ReferencePattern) (f : jsstring -> jsstring -> jsstring)
    (s : jsstring) : jsstring :=
  replace_from pat f 0 s.

(** No code unit of [s] is [c]. *)
Definition lacks (c : N) (s : jsstring) : bool := forallb (fun x => negb (x =? c)%N) s.

(** Text without parenthesis-open or backquote: text around a reference
    that contains no reference and no code quote itself. *)
Definition plain_text (s : jsstring) : bool := lacks 40 s && lacks 96 s.

Definition nonempty (s : jsstring) : bool :=
  match s with [] => false | _ :: _ => true end.

Module ReleaseNotes.

(** What the release-notes manager imports and this file does not contain:
    the keybinding service and parser, the localized placeholder
    [nls.localize('unassigned', ...)], the two escaping functions, the
    markdown renderer, the token style sheet, the uuid generator, and the
    HTML page in which [renderBody] places nonce, style sheet and
    content. *)
Class Host : Type := {
  Keybinding : Type;
  ResolvedKeybinding : Type;
  lookupKeybinding : jsstring -> option ResolvedKeybinding;
  getLabel : ResolvedKeybinding -> option jsstring;
  parseKeybinding : jsstring -> option Keybinding;
  resolveKeybinding : Keybinding -> list ResolvedKeybinding;
  unassigned : jsstring;
  escape : jsstring -> jsstring;
  escapeMarkdownSyntaxTokens : jsstring -> jsstring;
  renderMarkdownDocument : jsstring -> jsstring;
  tokensCSS : jsstring;
  generateUuid : nat -> jsstring;
  page : jsstring -> jsstring -> jsstring -> jsstring
}.

(** [/^(\d+\.\d+)\./] and [match[1].replace(/\./g, '_')]. *)
Definition versionLabel (version : jsstring) : option jsstring :=
  let (major, rest1) := span is_digit version in
  match major, rest1 with
  | _ :: _, 46%N :: rest2 =>
      let (minor, rest3) := span is_digit rest2 in
      match minor, rest3 with
      | _ :: _, 46%N :: _ => Some (List.app major (95%N :: minor))
      | _, _ => None
      end
  | _, _ => None
  end.

Definition baseUrl : jsstring := str "https://code.visualstudio.com/raw".

Definition url (label : jsstring) : jsstring :=
  List.app baseUrl (List.app (str "/v") (List.app label (str ".md"))).

(** The four regular expressions of [patchKeybindings]. *)
Definition kb_class (c : N) : bool :=
  (is_lower c || is_upper c || (c =? 46) || is_digit c || (c =? 45))%N.

Definition kbstyle_class (c : N) : bool := negb (c =? 41)%N.

Definition quoted_kb : ReferencePattern :=
  {| prefix := str "`kb("; binding_class := kb_class; suffix := str ")`" |}.
Definition quoted_kbstyle : ReferencePattern :=
  {| prefix := str "`kbstyle("; binding_class := kbstyle_class; suffix := str ")`" |}.
Definition plain_kb : ReferencePattern :=
  {| prefix := str "kb("; binding_class := kb_class; suffix := str ")" |}.
Definition plain_kbstyle : ReferencePattern :=
  {| prefix := str "kbstyle("; binding_class := kbstyle_class; suffix := str ")" |}.

Section Manager.
Context `{Host}.

(** [label || unassigned] on [string | null]. *)
Definition label_or_unassigned (label : option jsstring) : jsstring :=
  match label with
  | Some (c :: l) => c :: l
  | _ => unassigned
  end.

Definition escapeMdHtml (text : jsstring) : jsstring :=
  flat_map (fun c => if (c =? 92)%N then [92%N; 92%N] else [c]) (escape text).

Definition kb (_match kb : jsstring) : jsstring :=
  match lookupKeybinding kb with
  | None => unassigned
  | Some keybinding => label_or_unassigned (getLabel keybinding)
  end.

Definition kbstyle (_match kb : jsstring) : jsstring :=
  match parseKeybinding kb with
  | None => unassigned
  | Some keybinding =>
      match resolveKeybinding keybinding with
      | [] => unassigned
      | first :: _ => label_or_unassigned (getLabel first)
      end
  end.

Definition code_element (binding resolved : jsstring) : jsstring :=
  match resolved with
  | [] => resolved
  | _ :: _ =>
      List.app (str "<code title=")
        (34%N :: List.app binding
           (34%N :: List.app (str ">")
              (List.app (escapeMdHtml resolved) (str "</code>"))))
  end.

Definition kbCode (_match binding : jsstring) : jsstring :=
  code_element binding (kb _match binding).

Definition kbstyleCode (_match binding : jsstring) : jsstring :=
  code_element binding (kbstyle _match binding).

Definition patchKeybindings (text : jsstring) : jsstring :=
  replace plain_kbstyle
    (fun _match binding => escapeMarkdownSyntaxTokens (kbstyle _match binding))
    (replace plain_kb
       (fun _match binding => escapeMarkdownSyntaxTokens (kb _match binding))
       (replace quoted_kbstyle kbstyleCode
          (replace quoted_kb kbCode text))).

(** A keybinding reference in the text outside code quotes. *)
Inductive Reference : Type :=
| KbReference (command : jsstring)
| KbstyleReference (keys : jsstring).

Definition reference_text (ref : Reference) : jsstring :=
  match ref with
  | KbReference command => List.app (str "kb(") (List.app command (str ")"))
  | KbstyleReference keys => List.app (str "kbstyle(") (List.app keys (str ")"))
  end.

(** The group of the reference is one the regular expression captures
    whole. *)
Definition well_formed_reference (ref : Reference) : bool :=
  match ref with
  | KbReference command => nonempty command && forallb kb_class command
  | KbstyleReference keys => nonempty keys && lacks 41 keys && plain_text keys
  end.

Definition no_label (k : ResolvedKeybinding) : bool :=
  match getLabel k with
  | Some (_ :: _) => false
  | _ => true
  end.

(** The keybinding of the reference cannot be looked up, parsed or
    resolved, or has no label. *)
Definition unresolved (ref : Reference) : bool :=
  match ref with
  | KbReference command =>
      match lookupKeybinding command with
      | None => true
      | Some k => no_label k
      end
  | KbstyleReference keys =>
      match parseKeybinding keys with
      | None => true
      | Some k =>
          match resolveKeybinding k with
          | [] => true
          | first :: _ => no_label first
          end
      end
  end.

(** How a promise has settled, if it has. *)
Inductive Settlement : Type :=
| Pending
| Fulfilled (text : jsstring)
| Rejected (error : string).

(** What the request and [asText] deliver. *)
Inductive Response : Type :=
| RequestFailed
| ResponseText (text : option jsstring).

(** [/^#\s/.test(text)] *)
Definition starts_with_heading (text : jsstring) : bool :=
  match text with
  | 35%N :: c :: _ => is_space c
  | _ => false
  end.

(** The part of [fetchReleaseNotes] after the request has been answered. *)
Definition fetchReleaseNotes (r : Response) : Settlement :=
  match r with
  | RequestFailed => Rejected "Failed to fetch release notes"
  | ResponseText None => Rejected "Invalid release notes"
  | ResponseText (Some text) =>
      if negb (match text with [] => false | _ :: _ => true end)
         || negb (starts_with_heading text)
      then Rejected "Invalid release notes"
      else Fulfilled (patchKeybindings text)
  end.

(** A promise made by the [async] wrapper in [loadReleaseNotes]. *)
Record Fetch : Type := {
  fetch_version : jsstring;
  fetch_state : Settlement
}.

Record WebviewInput : Type := {
  name : jsstring;
  html : jsstring
}.

(** The manager: its fields, the promises it has made, and the requests
    it has sent, oldest first. *)
Record Manager : Type := {
  _releaseNotesCache : gmap jsstring nat;
  promises : list Fetch;
  requests : list jsstring;
  _currentReleaseNotes : option WebviewInput;
  _lastText : option jsstring;
  uuids : nat
}.

Definition new_manager : Manager :=
  {| _releaseNotesCache := ∅; promises := []; requests := [];
     _currentReleaseNotes := None; _lastText := None; uuids := 0 |}.

(** What a call of the [async] function [loadReleaseNotes] returns: a
    promise rejected at once, or a promise that adopts promise [p] of the
    cache and is identified with it. *)
Inductive Returned : Type :=
| Throws (error : string)
| Adopts (p : nat).

Definition loadReleaseNotes (version : jsstring) (m : Manager) : Returned * Manager :=
  match versionLabel version with
  | None => (Throws "not found", m)
  | Some label =>
      let m' :=
        match _releaseNotesCache m !! version with
        | Some _ => m
        | None =>
            {| _releaseNotesCache :=
                 <[version := length (promises m)]> (_releaseNotesCache m);
               promises :=
                 List.app (promises m)
                   [{| fetch_version := version; fetch_state := Pending |}];
               requests := List.app (requests m) [url label];
               _currentReleaseNotes := _currentReleaseNotes m;
               _lastText := _lastText m;
               uuids := uuids m |}
        end in
      (* [this._releaseNotesCache.get(version)!] *)
      match _releaseNotesCache m' !! version with
      | Some p => (Adopts p, m')
      | None => (Throws "undefined", m')
      end
  end.

(** The request behind promise [p] is answered: the promise settles, and
    the [catch] of the wrapper removes the cache entry on rejection. *)
Definition respond (p : nat) (r : Response) (m : Manager) : Manager :=
  match promises m !! p with
  | Some {| fetch_version := version; fetch_state := Pending |} =>
      let outcome := fetchReleaseNotes r in
      {| _releaseNotesCache :=
           match outcome with
           | Rejected _ => delete version (_releaseNotesCache m)
           | _ => _releaseNotesCache m
           end;
         promises :=
           <[p := {| fetch_version := version; fetch_state := outcome |}]> (promises m);
         requests := requests m;
         _currentReleaseNotes := _currentReleaseNotes m;
         _lastText := _lastText m;
         uuids := uuids m |}
  | _ => m
  end.

Definition renderBody (text : jsstring) (m : Manager) : jsstring * Manager :=
  let nonce := generateUuid (uuids m) in
  let content := renderMarkdownDocument text in
  (page nonce tokensCSS content,
   {| _releaseNotesCache := _releaseNotesCache m;
      promises := promises m;
      requests := requests m;
      _currentReleaseNotes := _currentReleaseNotes m;
      _lastText := _lastText m;
      uuids := S (uuids m) |}).

(** The markdown text written out in [show]. *)
Definition january2021 : jsstring := str "

		# January 2021 (version 1.53)

**Update 1.53.1**: The update addresses these security [issues](https://github.com/microsoft/vscode/milestone/143).

<!-- DOWNLOAD_LINKS_PLACEHOLDER -->

---

Welcome to the January 2021 release of Visual Studio Code. There are a number of updates in this version that we hope you will like, some of the key highlights include:

* **[Wrap tabs](#wrap-tabs)** - Wrap editor tabs in the workbench instead of having a scrollbar.
* **[Configure tab decorations](#tab-decorations)** - Add editor tab status decorations.
* **[Customize search mode](#default-search-mode)** - Use the Search view or open a new Search editor.
* **[JavaScript debugging](#javascript-debugger)** - Support for conditional exception breakpoints and Node.js worker_threads.
* **[Notebook UX updates](#notebooks)** - Outline view for Notebook cells, and breadcrumbs for improved navigation.
* **[Markdown preview image auto update](#markdown-preview-auto-updates-when-images-are-changed-on-disk)** - Preview automatically updates when images change.
* **[Emmet improvements](#emmet-performance-and-feature-improvements)** - Faster performance and supporting the latest features.
* **[Extension guidelines](#extension-guidelines)** - Documented best practices for extension authors.
* **[Remote Development video series](#documentation)** - Learn to create and configure container-based environments.

>If you'd like to read these release notes online, go to [Updates](https://code.visualstudio.com/updates) on [code.visualstudio.com](https://code.visualstudio.com).

**Join us live** at the [VS Code team's livestream](https://code.visualstudio.com/livestream) on Tuesday, February 9 at 8am Pacific (4pm London) to see a demo of what's new in this release, and ask us questions live.

**Insiders:** Want to try new features as soon as possible? You can download the nightly [Insiders](https://code.visualstudio.com/insiders) build and try the latest updates as soon as they are available.

## Workbench

### Wrap tabs

A new setting 'workbench.editor.wrapTabs' lets editor tabs wrap instead of showing a scrollbar.

![Wrapping tabs in editor](images/1_53/tabs-wrap.gif)
*Theme: [GitHub Dark Theme](https://marketplace.visualstudio.com/items?itemName=GitHub.github-vscode-theme)*

If the available space for the tabs is too small, wrapping will temporarily turn off, and you will see the old experience with a scrollbar.
		".

Definition releaseNotesInputName (version : jsstring) : jsstring :=
  List.app (str "Release Notes: ") version.

(** How the promise of [show] settles. *)
Inductive Shown : Type :=
| Resolves (value : bool)
| Rejects (error : string)
| Waits.

(** [show].  [awaited] is how the promise of [loadReleaseNotes] would
    settle were it awaited.  Whether the webview is created or revealed,
    it ends up with the title as name and the rendered page as content. *)
Definition show (awaited : Settlement) (version : jsstring) (m : Manager)
  : Shown * Manager :=
  let (releaseNoteText, m1) :=
    if false
    then (awaited, snd (loadReleaseNotes version m))
    else (Fulfilled january2021, m) in
  match releaseNoteText with
  | Fulfilled releaseNoteText =>
      let m2 :=
        {| _releaseNotesCache := _releaseNotesCache m1;
           promises := promises m1;
           requests := requests m1;
           _currentReleaseNotes := _currentReleaseNotes m1;
           _lastText := Some releaseNoteText;
           uuids := uuids m1 |} in
      let (html, m3) := renderBody releaseNoteText m2 in
      let title := releaseNotesInputName version in
      (Resolves true,
       {| _releaseNotesCache := _releaseNotesCache m3;
          promises := promises m3;
          requests := requests m3;
          _currentReleaseNotes := Some {| name := title; html := html |};
          _lastText := _lastText m3;
          uuids := uuids m3 |})
  | Rejected error => (Rejects error, m1)
  | Pending => (Waits, m1)
  end.

(** What happens to a manager. *)
Inductive Event : Type :=
| LoadNotes (version : jsstring)
| Respond (p : nat) (r : Response)
| ShowNotes (version : jsstring).

Definition step (m : Manager) (e : Event) : Manager :=
  match e with
  | LoadNotes version => snd (loadReleaseNotes version m)
  | Respond p r => respond p r m
  | ShowNotes version => snd (show Pending version m)
  end.

Definition run (events : list Event) : Manager := fold_left step events new_manager.

(** Promise [p] is the pending fetch for [version]. *)
Definition in_flight (m : Manager) (p : nat) (version : jsstring) : Prop :=
  promises m !! p = Some {| fetch_version := version; fetch_state := Pending |}.

Definition is_rejected (s : option Settlement) : bool :=
  match s with Some (Rejected _) => true | _ => false end.

(** Every cache entry belongs to a version of the expected shape and to a
    promise made for that version that has not been rejected; every
    pending promise is the cache entry of its version. *)
Definition consistent (m : Manager) : Prop :=
  (forall v p, _releaseNotesCache m !! v = Some p ->
     versionLabel v <> None /\
     exists st, promises m !! p = Some {| fetch_version := v; fetch_state := st |} /\
                is_rejected (Some st) = false) /\
  (forall p v, in_flight m p v -> _releaseNotesCache m !! v = Some p).

(** The text does not start with [#] followed by white space. *)
Definition failed (r : Response) : bool :=
  match r with
  | RequestFailed => true
  | ResponseText None => true
  | ResponseText (Some text) => negb (starts_with_heading text)
  end.

End Manager.

(** ** A concrete host for examples *)

Definition example_escape (text : jsstring) : jsstring :=
  flat_map (fun c =>
    if (c =? 60)%N then str "&lt;"
    else if (c =? 62)%N then str "&gt;"
    else if (c =? 38)%N then str "&amp;"
    else [c]) text.

Definition is_markdown_token (c : N) : bool :=
  existsb (N.eqb c) (str "\`*_{}[]()#+-!").

Definition example_escapeMarkdownSyntaxTokens (text : jsstring) : jsstring :=
  flat_map (fun c => if is_markdown_token c then [92%N; c] else [c]) text.

Definition jsstring_eqb (a b : jsstring) : bool := bool_decide (a = b).

Definition example_host : Host :=
  {| Keybinding := jsstring;
     ResolvedKeybinding := jsstring;
     lookupKeybinding := fun command =>
       if jsstring_eqb command (str "workbench.action.files.save")
       then Some (str "Ctrl+S") else None;
     getLabel := fun k => Some k;
     parseKeybinding := fun keys =>
       match match_literal (str "ctrl+") keys with
       | Some _ => Some keys
       | None => None
       end;
     resolveKeybinding := fun k => [k];
     unassigned := str "unassigned";
     escape := example_escape;
     escapeMarkdownSyntaxTokens := example_escapeMarkdownSyntaxTokens;
     renderMarkdownDocument := fun text => text;
     tokensCSS := [];
     generateUuid := fun _ => str "nonce";
     page := fun nonce css content => List.app (str "<!DOCTYPE html>") content |}.

End ReleaseNotes.

Module WebviewPreloads.

(** ** The action queue [outputs]

    A record object is shared by the map and by the callbacks chained on
    its [queue], so records live in a heap and the map holds references.
    An action is identified by its ticket, the number of the [enqueue]
    call that submitted it. *)

(** The object an action receives as [state]: the literal made for the
    first action of a record, or the record itself. *)
Inductive StateObject : Type :=
| FreshState
| RecordState (r : nat).

(** The promise the next callback of the chain waits for: pending on a
    running action, fulfilled, or rejected. *)
Inductive QueueHead : Type :=
| Running (ticket : nat)
| Settled
| Broken.

Record OutputRecord : Type := {
  cancelled : bool;
  queue : QueueHead;
  waiting : list nat
}.

Inductive Observation : Type :=
| Started (ticket : nat) (state : StateObject)
| Completed (ticket : nat)
| Failed (ticket : nat)
| Skipped (ticket : nat).

(** [trace] lists what has happened, latest first; [submitted] gives for
    each ticket the output id and the record it was queued on. *)
Record Outputs : Type := {
  outputs : gmap string nat;
  heap : list OutputRecord;
  submitted : list (string * nat);
  trace : list Observation
}.

Definition no_outputs : Outputs :=
  {| outputs := ∅; heap := []; submitted := []; trace := [] |}.

Definition cancel (record : OutputRecord) : OutputRecord :=
  {| cancelled := true; queue := queue record; waiting := waiting record |}.

Definition then_ (ticket : nat) (record : OutputRecord) : OutputRecord :=
  {| cancelled := cancelled record;
     queue := queue record;
     waiting := List.app (waiting record) [ticket] |}.

Definition enqueue (outputId : string) (s : Outputs) : Outputs :=
  let ticket := length (submitted s) in
  match outputs s !! outputId with
  | None =>
      let r := length (heap s) in
      {| outputs := <[outputId := r]> (outputs s);
         heap := List.app (heap s)
                   [{| cancelled := false; queue := Running ticket; waiting := [] |}];
         submitted := List.app (submitted s) [(outputId, r)];
         trace := Started ticket FreshState :: trace s |}
  | Some r =>
      {| outputs := outputs s;
         heap := alter (then_ ticket) r (heap s);
         submitted := List.app (submitted s) [(outputId, r)];
         trace := trace s |}
  end.

Definition cancelAll (s : Outputs) : Outputs :=
  {| outputs := ∅;
     heap := foldr (fun r h => alter cancel r h) (heap s)
               (map snd (map_to_list (outputs s)));
     submitted := submitted s;
     trace := trace s |}.

Definition cancelOutput (outputId : string) (s : Outputs) : Outputs :=
  match outputs s !! outputId with
  | Some r =>
      {| outputs := delete outputId (outputs s);
         heap := alter cancel r (heap s);
         submitted := submitted s;
         trace := trace s |}
  | None => s
  end.

Definition set_queue (h : QueueHead) (record : OutputRecord) : OutputRecord :=
  {| cancelled := cancelled record; queue := h; waiting := waiting record |}.

(** The promise of a running action settles. *)
Definition settle (ticket : nat) (ok : bool) (s : Outputs) : Outputs :=
  match submitted s !! ticket with
  | Some (_, r) =>
      match queue <$> heap s !! r with
      | Some (Running t) =>
          if decide (t = ticket) then
            {| outputs := outputs s;
               heap := alter (set_queue (if ok then Settled else Broken)) r (heap s);
               submitted := submitted s;
               trace := (if ok then Completed ticket else Failed ticket) :: trace s |}
          else s
      | _ => s
      end
  | None => s
  end.

(** The callback [r => !record.cancelled && action(record)] at the front
    of the chain of record [r] runs, its predecessor being fulfilled. *)
Definition continue (r : nat) (s : Outputs) : Outputs :=
  match heap s !! r with
  | Some {| cancelled := c; queue := Settled; waiting := ticket :: rest |} =>
      if c then
        {| outputs := outputs s;
           heap := <[r := {| cancelled := c; queue := Settled; waiting := rest |}]> (heap s);
           submitted := submitted s;
           trace := Skipped ticket :: trace s |}
      else
        {| outputs := outputs s;
           heap := <[r := {| cancelled := c; queue := Running ticket; waiting := rest |}]>
                     (heap s);
           submitted := submitted s;
           trace := Started ticket (RecordState r) :: trace s |}
  | _ => s
  end.

Inductive Event : Type :=
| Enqueue (outputId : string)
| CancelAll
| CancelOutput (outputId : string)
| Complete (ticket : nat)
| Fail (ticket : nat)
| Continue (r : nat).

Definition step (s : Outputs) (e : Event) : Outputs :=
  match e with
  | Enqueue outputId => enqueue outputId s
  | CancelAll => cancelAll s
  | CancelOutput outputId => cancelOutput outputId s
  | Complete ticket => settle ticket true s
  | Fail ticket => settle ticket false s
  | Continue r => continue r s
  end.

Definition run (events : list Event) : Outputs := fold_left step events no_outputs.

(** The action with this ticket has started. *)
Definition started (s : Outputs) (ticket : nat) : Prop :=
  exists state, Started ticket state ∈ trace s.

(** The action was enqueued for this output id. *)
Definition enqueued_for (s : Outputs) (ticket : nat) (outputId : string) : Prop :=
  exists r, submitted s !! ticket = Some (outputId, r).

(** The record the action was queued on has not been cancelled. *)
Definition not_cancelled (s : Outputs) (ticket : nat) : Prop :=
  exists outputId r record,
    submitted s !! ticket = Some (outputId, r) /\
    heap s !! r = Some record /\ cancelled record = false.

(** [earlier] completed before [later] started. *)
Definition completed_before (s : Outputs) (earlier later : nat) : Prop :=
  exists newer state older,
    trace s = List.app newer (Started later state :: older) /\
    Completed earlier ∈ older.

(** What holds in every state the queue can reach. *)
Record invariant (s : Outputs) : Prop := {
  inv_submitted : forall t id r,
    submitted s !! t = Some (id, r) -> (r < length (heap s))%nat;
  inv_outputs : forall id r,
    outputs s !! id = Some r -> (r < length (heap s))%nat;
  inv_live : forall t id r record,
    submitted s !! t = Some (id, r) -> heap s !! r = Some record ->
    cancelled record = false -> outputs s !! id = Some r;
  inv_waiting : forall r record t,
    heap s !! r = Some record -> t ∈ waiting record ->
    exists id, submitted s !! t = Some (id, r);
  inv_sorted : forall r record,
    heap s !! r = Some record -> StronglySorted lt (waiting record);
  inv_done : forall t id r record,
    submitted s !! t = Some (id, r) -> heap s !! r = Some record ->
    cancelled record = false -> queue record <> Broken ->
    t ∈ waiting record \/ queue record = Running t \/ Completed t ∈ trace s;
  inv_trace : forall t state,
    Started t state ∈ trace s -> (t < length (submitted s))%nat;
  inv_order : forall newer older t1 t2 state id1 id2 r,
    trace s = List.app newer (Started t2 state :: older) -> (t1 < t2)%nat ->
    submitted s !! t1 = Some (id1, r) -> submitted s !! t2 = Some (id2, r) ->
    Completed t1 ∈ older;
  inv_same : forall t1 t2 id r1 r2 record,
    (t1 < t2)%nat -> submitted s !! t1 = Some (id, r1) ->
    submitted s !! t2 = Some (id, r2) -> heap s !! r1 = Some record ->
    cancelled record = false -> r1 = r2
}.

(** What cancelling does to the heap: records keep their chain, and no
    cancelled record is revived. *)
Definition cancels (h h' : list OutputRecord) : Prop :=
  length h' = length h /\
  forall i y, h' !! i = Some y ->
    exists x, h !! i = Some x /\ waiting y = waiting x /\ queue y = queue x /\
              (cancelled y = false -> cancelled x = false).

(** The action will never start: it has not started, and the record it
    waits on is cancelled. *)
Definition skipped_for_good (s : Outputs) (ticket : nat) : Prop :=
  ~ started s ticket /\
  exists id r record,
    submitted s !! ticket = Some (id, r) /\ heap s !! r = Some record /\
    cancelled record = true.

(** ** The action of the ['html'] message *)

(** The content of the output node. *)
#[warnings="-register-all"]
Inductive Node : Type :=
| TextNode (text : string)
| RawHtml (markup : string)
| Element (tag : string) (children : list Node).

(** What [renderCell] can throw: [undefined], [null], an [Error] with its
    message, or any other value with its [message] property, if it has
    one. *)
Inductive Thrown : Type :=
| ThrownUndefined
| ThrownNull
| ThrownError (message : string)
| ThrownOther (message : option string).

(** A call of [renderCell] fills the element and returns, or throws,
    leaving the element in some state. *)
Inductive RenderResult : Type :=
| Returns (children : list Node)
| Throws (children : list Node) (thrown : Thrown).

Record RendererApi : Type := {
  renderCell : string -> string -> RenderResult
}.

(** The values the action inspects: [undefined], an [Error] with its
    message, a renderer API, or anything else. *)
Inductive Value : Type :=
| Undefined
| ErrorObject (message : string)
| ApiObject (api : RendererApi)
| OtherValue.

(** How a promise settles. *)
Inductive Outcome : Type :=
| Resolves (value : Value)
| RejectsWith (reason : Value).

(** [RenderOutputType.Html] and the other types of content. *)
Inductive Content : Type :=
| Html (htmlContent : string)
| Extension (mimeType : string).

Record HtmlMessage : Type := {
  cellId : string;
  outputId : string;
  rendererId : option string;
  requiredPreloads : list string;
  content : Content
}.

(** [renderers.load], the map of [kernelPreloads], and the message of the
    [TypeError] the engine raises when [renderCell] is called on a value
    that is not a renderer API. *)
Record Loaders : Type := {
  renderers_load : string -> Outcome;
  preloads : gmap string Outcome;
  not_an_api : string
}.

Definition waitFor (env : Loaders) (uri : string) : Outcome :=
  match preloads env !! uri with
  | Some p => p
  | None => Resolves (ErrorObject (String.append "Preload not ready: " uri))
  end.

(** [p?.catch(err => err)] under [Promise.all]. *)
Definition caught (p : option Outcome) : Value :=
  match p with
  | None => Undefined
  | Some (Resolves v) => v
  | Some (RejectsWith e) => e
  end.

(** [e instanceof Error] *)
Definition is_error (v : Value) : bool :=
  match v with ErrorObject _ => true | _ => false end.

(** [result.message] as text. *)
Definition message_text (message : option string) : string :=
  match message with
  | Some m => m
  | None => "undefined"
  end.

Definition message_of (v : Value) : option string :=
  match v with ErrorObject m => Some m | _ => None end.

(** [result.message] of a caught value that is neither [undefined] nor
    [null]. *)
Definition thrown_message (e : Thrown) : option string :=
  match e with
  | ThrownError m => Some m
  | ThrownOther m => m
  | ThrownUndefined | ThrownNull => None
  end.

(** [showPreloadErrors]: the content of the output node afterwards, given
    the [message] of each error. *)
Definition showPreloadErrors (errors : list (option string)) : list Node :=
  [TextNode "Error loading preloads:";
   Element "ul" (map (fun result => Element "li" [TextNode (message_text result)]) errors)].

Definition preloadsAndErrors (env : Loaders) (data : HtmlMessage) : list Value :=
  map caught
    ((match rendererId data with
      | Some id => if truthy id then Some (renderers_load env id) else None
      | None => None
      end)
     :: map (fun uri => Some (waitFor env uri)) (requiredPreloads data)).

(** How the action enqueued for an ['html'] message ends: it adds the
    output node with this content, it returns before it adds one, or it
    throws, so that its promise is rejected and no output node is added. *)
Inductive Completion : Type :=
| NodeAdded (children : list Node)
| ReturnsEarly
| ActionThrows.

(** The action enqueued for an ['html'] message.  In the [catch] block
    [showPreloadErrors] sets the heading and then reads [message] off the
    caught value, which throws a [TypeError] when the value is [undefined]
    or [null]; the node is added to the document only after the block. *)
Definition html_completion (env : Loaders) (data : HtmlMessage) (state_cancelled : bool)
  : Completion :=
  let preloadsAndErrors := preloadsAndErrors env data in
  if state_cancelled then ReturnsEarly
  else
    match content data with
    | Html htmlContent => NodeAdded [RawHtml htmlContent]
    | Extension mimeType =>
        if existsb is_error preloadsAndErrors then
          let errors := List.filter is_error preloadsAndErrors in
          NodeAdded (showPreloadErrors (map message_of errors))
        else
          match
            match head preloadsAndErrors with
            | Some (ApiObject rendererApi) =>
                renderCell rendererApi (outputId data) mimeType
            | _ => Throws [] (ThrownError (not_an_api env))
            end
          with
          | Returns children => NodeAdded children
          | Throws _ e =>
              match e with
              | ThrownUndefined | ThrownNull => ActionThrows
              | _ => NodeAdded (showPreloadErrors [thrown_message e])
              end
          end
    end.

(** The content of the output node the action adds, if it adds one. *)
Definition html_action (env : Loaders) (data : HtmlMessage) (state_cancelled : bool)
  : option (list Node) :=
  match html_completion env data state_cancelled with
  | NodeAdded children => Some children
  | ReturnsEarly | ActionThrows => None
  end.

(** The message of the [Error] a promise settles to, fulfilled or
    rejected, if it settles to one. *)
Definition error_message (p : Outcome) : list (option string) :=
  match p with
  | Resolves (ErrorObject m) | RejectsWith (ErrorObject m) => [Some m]
  | _ => []
  end.

(** The messages of the errors that loading yields for a message: that of
    the renderer, if the message names one, and then, for each required
    preload in turn, that of the preload, or ['Preload not ready: '] with
    its address when it has not been registered. *)
Definition loading_errors (env : Loaders) (data : HtmlMessage) : list (option string) :=
  List.app
    match rendererId data with
    | Some id => if truthy id then error_message (renderers_load env id) else []
    | None => []
    end
    (flat_map
       (fun uri =>
          match preloads env !! uri with
          | Some p => error_message p
          | None => [Some (String.append "Preload not ready: " uri)]
          end)
       (requiredPreloads data)).

(** An HTML output that requires a preload which has not been loaded. *)
Definition html_with_missing_preload : HtmlMessage :=
  {| cellId := "cell-1"; outputId := "output-1"; rendererId := None;
     requiredPreloads := ["https://example.org/preload.js"];
     content := Html "<b>42</b>" |}.

Definition no_loaders : Loaders :=
  {| renderers_load := fun _ => RejectsWith (ErrorObject "Could not find renderer");
     preloads := ∅;
     not_an_api := "Cannot read property 'renderCell' of undefined" |}.

Definition plot_output : HtmlMessage :=
  {| cellId := "cell-1"; outputId := "output-2"; rendererId := Some "plot-renderer";
     requiredPreloads := []; content := Extension "application/vnd.plot" |}.

(** A renderer whose [renderCell] throws after it has begun to fill the
    element, and a preload that has loaded. *)
Definition failing_renderer (thrown : Thrown) : Loaders :=
  {| renderers_load := fun _ =>
       Resolves (ApiObject
         {| renderCell := fun _ _ => Throws [TextNode "Loading"] thrown |});
     preloads := {["https://example.org/preload.js" := Resolves Undefined]};
     not_an_api := "Cannot read property 'renderCell' of undefined" |}.

Definition plot_with_preload : HtmlMessage :=
  {| cellId := "cell-1"; outputId := "output-4"; rendererId := Some "plot-renderer";
     requiredPreloads := ["https://example.org/preload.js"];
     content := Extension "application/vnd.plot" |}.

End WebviewPreloads.

(** ** JavaScript objects as string-keyed maps

    The own string keys of an object are listed with the array indices
    first, in ascending order, and then the other keys in the order of
    their creation. *)

Module JsObject.

Definition digit_value (a : ascii) : option N :=
  let n := N_of_ascii a in
  if ((48 <=? n) && (n <=? 57))%N then Some (n - 48)%N else None.

Fixpoint decimal (acc : N) (key : string) : option N :=
  match key with
  | EmptyString => Some acc
  | String a key' =>
      match digit_value a with
      | Some d => decimal (10 * acc + d)%N key'
      | None => None
      end
  end.

(** The key is an array index: a canonical decimal numeral below
    [2^32 - 1]. *)
Definition array_index (key : string) : option N :=
  match key with
  | EmptyString => None
  | String "0" EmptyString => Some 0%N
  | String "0" _ => None
  | _ =>
      match decimal 0 key with
      | Some n => if (n <? 4294967295)%N then Some n else None
      | None => None
      end
  end.

Section Objects.
Context {V : Type}.

Definition t : Type := list (string * V).

(** [Object.create(null)] *)
Definition create : t := [].

(** [o[key]] *)
Fixpoint get (key : string) (o : t) : option V :=
  match o with
  | [] => None
  | (k, v) :: o' => if String.eqb k key then Some v else get key o'
  end.

Definition has (key : string) (o : t) : bool :=
  existsb (fun kv => String.eqb (fst kv) key) o.

Fixpoint overwrite (key : string) (v : V) (o : t) : t :=
  match o with
  | [] => []
  | (k, w) :: o' =>
      if String.eqb k key then (k, v) :: o' else (k, w) :: overwrite key v o'
  end.

(** A new index goes before the first key that is no index or a greater
    one. *)
Fixpoint insert_index (n : N) (key : string) (v : V) (o : t) : t :=
  match o with
  | [] => [(key, v)]
  | (k, w) :: o' =>
      match array_index k with
      | Some m => if (m <? n)%N then (k, w) :: insert_index n key v o'
                  else (key, v) :: o
      | None => (key, v) :: o
      end
  end.

(** [o[key] = v] *)
Definition set (key : string) (v : V) (o : t) : t :=
  if has key o then overwrite key v o
  else
    match array_index key with
    | Some n => insert_index n key v o
    | None => List.app o [(key, v)]
    end.

(** [Object.entries(o)] *)
Definition entries (o : t) : list (string * V) := o.

End Objects.
Arguments t V : clear implicits.
End JsObject.

Module EditorOverrideMore.
Import EditorOverride.

(** An entry of the setting in its old format, an array of associations
    whose [filenamePattern] is optional. *)
Record OldAssociation : Type := {
  old_viewType : string;
  old_filenamePattern : option string
}.

(** What [configurationService.getValue(editorsAssociationsSettingId)]
    returns: nothing, the old array, or the object. *)
Inductive SettingValue : Type :=
| Unset
| ArrayFormat (rawAssociations : list OldAssociation)
| ObjectFormat (rawAssociations : JsObject.t string).

(** [convertOldAssociationFormat]: the object handed to [updateValue], if
    the function gets that far. *)
Definition convertOldAssociationFormat (value : SettingValue)
  : option (JsObject.t string) :=
  let build rawAssociations :=
    fold_left (fun newSettingObject association =>
                 match old_filenamePattern association with
                 | Some pattern =>
                     if truthy pattern
                     then JsObject.set pattern (old_viewType association) newSettingObject
                     else newSettingObject
                 | None => newSettingObject
                 end)
              rawAssociations JsObject.create in
  match value with
  | Unset => Some (build [])
  | ArrayFormat rawAssociations => Some (build rawAssociations)
  | ObjectFormat _ => None
  end.

(** The view type of the last entry of the array for the pattern. *)
Fixpoint last_viewType (pattern : string) (l : list OldAssociation) : option string :=
  match l with
  | [] => None
  | a :: l' =>
      match last_viewType pattern l' with
      | Some v => Some v
      | None =>
          if bool_decide (old_filenamePattern a = Some pattern)
          then Some (old_viewType a) else None
      end
  end.

Section More.
Context `{Platform}.

Definition hasContributionPoint (glob : string) (s : Service) : bool :=
  bool_decide (is_Some (map_get (GlobString glob) (_contributionPoints s))).

(** [updateUserAssociations]: the object handed to [updateValue]. *)
Definition updateUserAssociations (globPattern editorID : string) (s : Service)
  : JsObject.t string :=
  let newAssociation := {| viewType := editorID; filenamePattern := globPattern |} in
  let currentAssociations := getAllUserAssociations s in
  fold_left (fun newSettingObject association =>
               if truthy (filenamePattern association)
               then JsObject.set (filenamePattern association) (viewType association)
                      newSettingObject
               else newSettingObject)
            (List.app currentAssociations [newAssociation]) JsObject.create.

(** [Set.prototype.add] on a set in insertion order. *)
Definition set_add (x : string) (set : list string) : list string :=
  if bool_decide (x ∈ set) then set else List.app set [x].

(** [isRelativePattern(globPattern) ? globPattern.pattern : globPattern] *)
Definition pattern_text (g : GlobPattern) : string :=
  match g with
  | GlobString p => p
  | GlobRelative _ _ p => p
  end.

Definition nonOptional (c : ContributionPoint) : bool :=
  negb (ContributedEditorPriority.eqb (priority (editorInfo c))
          ContributedEditorPriority.option) &&
  negb (String.eqb (id (editorInfo c)) DEFAULT_EDITOR_ASSOCIATION_id).

(** [cacheContributionPoints]: the array that is stored. *)
Definition cacheContributionPoints (s : Service) : list string :=
  let cacheStorage :=
    fold_left (fun cacheStorage globPattern =>
                 let contribPoint :=
                   default [] (map_get globPattern (_contributionPoints s)) in
                 if bool_decide (is_Some (array_find nonOptional contribPoint))
                 then set_add (pattern_text globPattern) cacheStorage
                 else cacheStorage)
              (map_keys (_contributionPoints s)) [] in
  fold_left (fun cacheStorage association =>
               if truthy (filenamePattern association)
               then set_add (filenamePattern association) cacheStorage
               else cacheStorage)
            (getAllUserAssociations s) cacheStorage.

(** The service a new window constructs: no contribution point yet, the
    stored array as its cache, the same settings. *)
Definition restarted (s : Service) : Service :=
  {| _contributionPoints := [];
     cache := Some (cacheContributionPoints s);
     associations := associations s |}.

(** The patterns the cache is meant to hold: those with a contribution
    point that is neither optional nor the default editor, and those of
    the user associations. *)
Definition eager_pattern (s : Service) (p : string) : Prop :=
  (exists key cps c, In (key, cps) (_contributionPoints s) /\ In c cps /\
                     nonOptional c = true /\ pattern_text key = p) \/
  (exists a, In a (getAllUserAssociations s) /\ truthy (filenamePattern a) = true /\
             filenamePattern a = p).

(** The contribution point does not refuse the resource with
    [canSupportResource]. *)
Definition supports (c : ContributionPoint) (resource : URI) : bool :=
  match cp_options c with
  | Some o =>
      match canSupportResource o with
      | Some f => f resource
      | None => true
      end
  | None => true
  end.

(** The editor has no resource to resolve an override for. *)
Definition lacks_resource (e : IEditorInput) : Prop :=
  match e with
  | EditorInput r _ => r = None
  | DiffEditorInput _ _ originalInput modifiedInput =>
      input_resource modifiedInput = None \/ input_resource originalInput = None
  end.

(** The resource an override is resolved for. *)
Definition target_resource (e : IEditorInput) : option URI :=
  match e with
  | EditorInput r _ => r
  | DiffEditorInput _ _ originalInput modifiedInput =>
      match input_resource modifiedInput, input_resource originalInput with
      | Some r, Some _ => Some r
      | _, _ => None
      end
  end.

End More.

Definition example_old_setting : SettingValue :=
  ArrayFormat
    [{| old_viewType := "hexEditor"; old_filenamePattern := Some "*.bin" |};
     {| old_viewType := "imagePreview"; old_filenamePattern := None |};
     {| old_viewType := "binaryViewer"; old_filenamePattern := Some "*.bin" |}].

End EditorOverrideMore.

Module ReleaseNotesMore.
Import ReleaseNotes.

Section More.
Context `{Host}.

(** The label the callbacks [kb] and [kbstyle] produce for a reference;
    neither looks at the match it is handed. *)
Definition resolved (ref : Reference) : jsstring :=
  match ref with
  | KbReference command => kb [] command
  | KbstyleReference keys => kbstyle [] keys
  end.

(** The captured group of a reference. *)
Definition binding_of (ref : Reference) : jsstring :=
  match ref with
  | KbReference command => command
  | KbstyleReference keys => keys
  end.

(** The reference between backquotes. *)
Definition quoted_text (ref : Reference) : jsstring :=
  96%N :: List.app (reference_text ref) [96%N].

(** The version has the shape [digits.digits.] followed by anything. *)
Definition version_shape (version major minor : jsstring) : Prop :=
  nonempty major = true /\ nonempty minor = true /\
  forallb is_digit major = true /\ forallb is_digit minor = true /\
  exists rest, version = List.app major (46%N :: List.app minor (46%N :: rest)).

(** The fetch of [version] is cached as promise [p], fulfilled with
    [text]. *)
Definition kept (version : jsstring) (p : nat) (text : jsstring) (m : Manager) : Prop :=
  consistent m /\
  _releaseNotesCache m !! version = Some p /\
  promises m !! p = Some {| fetch_version := version; fetch_state := Fulfilled text |}.

End More.
End ReleaseNotesMore.

(** ** The action queue, continued *)

Module WebviewPreloadsMore.
Import WebviewPreloads.

(** The ticket of an action whose callback has run: the action was started
    or skipped. *)
Definition begun (o : Observation) : option nat :=
  match o with
  | Started t _ | Skipped t => Some t
  | Completed _ | Failed _ => None
  end.

(** The ticket of an action whose promise has settled. *)
Definition ended (o : Observation) : option nat :=
  match o with
  | Completed t | Failed t => Some t
  | Started _ _ | Skipped _ => None
  end.

Definition begins (tr : list Observation) : list nat := omap begun tr.
Definition ends (tr : list Observation) : list nat := omap ended tr.

(** What holds of the trace in every state the queue can reach. *)
Record once (s : Outputs) : Prop := {
  once_begins : NoDup (begins (trace s));
  once_ends : NoDup (ends (trace s));
  once_begun : forall t, t ∈ begins (trace s) -> (t < length (submitted s))%nat;
  once_ended : forall t, t ∈ ends (trace s) -> started s t;
  once_waiting : forall r record t,
    heap s !! r = Some record -> t ∈ waiting record -> t ∉ begins (trace s);
  once_running : forall r record t,
    heap s !! r = Some record -> queue record = Running t ->
    (exists id, submitted s !! t = Some (id, r)) /\ started s t /\
    t ∉ ends (trace s)
}.

End WebviewPreloadsMore.

(** ** The dimension updater of the notebook webview

    [pending] is a [Map] in insertion order; [timeouts] counts the
    callbacks scheduled with [setTimeout] that have not run; [posted] lists
    the [updates] of the ['dimension'] messages, oldest first. *)

Module DimensionUpdater.

Section Updater.
Context {number : Type}.

Record UpdateOptions : Type := {
  init : option bool;
  isOutput : option bool
}.

(** [{ id, height, ...options }] *)
Record DimensionUpdate : Type := {
  id : string;
  height : number;
  update_init : option bool;
  update_isOutput : option bool
}.

Record Updater : Type := {
  pending : list (string * DimensionUpdate);
  timeouts : nat;
  posted : list (list DimensionUpdate)
}.

Definition new_updater : Updater := {| pending := []; timeouts := 0; posted := [] |}.

(** [Map.prototype.set] *)
Fixpoint pending_set (key : string) (v : DimensionUpdate)
    (m : list (string * DimensionUpdate)) : list (string * DimensionUpdate) :=
  match m with
  | [] => [(key, v)]
  | (k, w) :: m' =>
      if String.eqb k key then (k, v) :: m' else (k, w) :: pending_set key v m'
  end.

Definition update (id : string) (height : number) (options : UpdateOptions)
    (s : Updater) : Updater :=
  {| pending :=
       pending_set id
         {| id := id; height := height;
            update_init := init options; update_isOutput := isOutput options |}
         (pending s);
     timeouts := match pending s with
                 | [] => S (timeouts s)
                 | _ :: _ => timeouts s
                 end;
     posted := posted s |}.

Definition updateImmediately (s : Updater) : Updater :=
  match pending s with
  | [] => s
  | _ :: _ =>
      {| pending := [];
         timeouts := timeouts s;
         posted := List.app (posted s) [map snd (pending s)] |}
  end.

(** A scheduled callback runs. *)
Definition timeout (s : Updater) : Updater :=
  match timeouts s with
  | O => s
  | S n =>
      updateImmediately
        {| pending := pending s; timeouts := n; posted := posted s |}
  end.

Inductive Event : Type :=
| Update (id : string) (height : number) (options : UpdateOptions)
| UpdateImmediately
| Timeout.

Definition step (s : Updater) (e : Event) : Updater :=
  match e with
  | Update id height options => update id height options s
  | UpdateImmediately => updateImmediately s
  | Timeout => timeout s
  end.

Definition run (events : list Event) : Updater := fold_left step events new_updater.

(** The event does not update the dimension of [id]. *)
Definition leaves (id : string) (e : Event) : bool :=
  match e with
  | Update id' _ _ => negb (String.eqb id' id)
  | UpdateImmediately | Timeout => false
  end.

(** The keys of [pending] are distinct and each is the id of its update;
    no message posted is empty or has two updates for one id. *)
Definition well_formed (s : Updater) : Prop :=
  NoDup (map fst (pending s)) /\
  (forall k u, In (k, u) (pending s) -> id u = k) /\
  (forall updates, In updates (posted s) -> updates <> [] /\ NoDup (map id updates)).

End Updater.

Arguments UpdateOptions : clear implicits.
Arguments DimensionUpdate : clear implicits.
Arguments Updater : clear implicits.
Arguments Event : clear implicits.

End DimensionUpdater.

(** ** The focus tracker of an output *)

Module FocusTracker.

Inductive FocusMessage : Type :=
| OutputFocus (id : string)
| OutputBlur (id : string).

(** [timeouts] counts the callbacks of [_onBlur] that have not run;
    [posted] lists the messages, oldest first. *)
Record Tracker : Type := {
  _outputId : string;
  _hasFocus : bool;
  _loosingFocus : bool;
  timeouts : nat;
  posted : list FocusMessage
}.

(** The constructor; [activeInside] is
    [isAncestor(document.activeElement, element)]. *)
Definition new_tracker (outputId : string) (activeInside : bool) : Tracker :=
  {| _outputId := outputId; _hasFocus := activeInside; _loosingFocus := false;
     timeouts := 0; posted := [] |}.

Definition _onFocus (t : Tracker) : Tracker :=
  if negb (_hasFocus t) then
    {| _outputId := _outputId t; _hasFocus := true; _loosingFocus := false;
       timeouts := timeouts t;
       posted := List.app (posted t) [OutputFocus (_outputId t)] |}
  else
    {| _outputId := _outputId t; _hasFocus := _hasFocus t; _loosingFocus := false;
       timeouts := timeouts t; posted := posted t |}.

Definition _onBlur (t : Tracker) : Tracker :=
  if _hasFocus t then
    {| _outputId := _outputId t; _hasFocus := _hasFocus t; _loosingFocus := true;
       timeouts := S (timeouts t); posted := posted t |}
  else t.

(** A callback scheduled by [_onBlur] runs. *)
Definition timeout (t : Tracker) : Tracker :=
  match timeouts t with
  | O => t
  | S n =>
      if _loosingFocus t then
        {| _outputId := _outputId t; _hasFocus := false; _loosingFocus := false;
           timeouts := n;
           posted := List.app (posted t) [OutputBlur (_outputId t)] |}
      else
        {| _outputId := _outputId t; _hasFocus := _hasFocus t;
           _loosingFocus := _loosingFocus t;
           timeouts := n; posted := posted t |}
  end.

Inductive Event : Type :=
| Focus
| Blur
| Timeout.

Definition step (t : Tracker) (e : Event) : Tracker :=
  match e with
  | Focus => _onFocus t
  | Blur => _onBlur t
  | Timeout => timeout t
  end.

Definition run (outputId : string) (activeInside : bool) (events : list Event)
  : Tracker :=
  fold_left step events (new_tracker outputId activeInside).

(** Whether the output has the focus after the messages, told from them
    alone: nothing if a message repeats what the one before it said, or
    names another output. *)
Fixpoint replay (outputId : string) (focused : bool) (messages : list FocusMessage)
  : option bool :=
  match messages with
  | [] => Some focused
  | OutputFocus id :: rest =>
      if negb focused && String.eqb id outputId then replay outputId true rest
      else None
  | OutputBlur id :: rest =>
      if focused && String.eqb id outputId then replay outputId false rest
      else None
  end.

(** What holds of a tracker made for [outputId] with focus
    [activeInside]. *)
Definition tracked (outputId : string) (activeInside : bool) (t : Tracker) : Prop :=
  _outputId t = outputId /\
  replay outputId activeInside (posted t) = Some (_hasFocus t) /\
  (_loosingFocus t = true -> _hasFocus t = true /\ (0 < timeouts t)%nat).

(** The functions an event target can hold as listeners: a method of the
    prototype, or a function made by [bind], each a new object. *)
Inductive Callback : Type :=
| PrototypeMethod (name : string)
| BoundFunction (serial : nat) (target : Callback).

Record Registration : Type := {
  type : string;
  listener : Callback;
  useCapture : bool
}.

#[export] Instance Callback_eq_dec : EqDecision Callback.
Proof. solve_decision. Defined.

#[export] Instance Registration_eq_dec : EqDecision Registration.
Proof. solve_decision. Defined.

Definition addEventListener (r : Registration) (listeners : list Registration)
  : list Registration :=
  if bool_decide (r ∈ listeners) then listeners else List.app listeners [r].

Definition removeEventListener (r : Registration) (listeners : list Registration)
  : list Registration :=
  List.filter (fun x => negb (bool_decide (x = r))) listeners.

(** The two calls of [addEventListener] in the constructor; [serial]
    numbers the functions [bind] makes. *)
Definition listen (serial : nat) (listeners : list Registration) : list Registration :=
  addEventListener
    {| type := "blur";
       listener := BoundFunction (S serial) (PrototypeMethod "_onBlur");
       useCapture := true |}
    (addEventListener
       {| type := "focus";
          listener := BoundFunction serial (PrototypeMethod "_onFocus");
          useCapture := true |}
       listeners).

Definition dispose (listeners : list Registration) : list Registration :=
  removeEventListener
    {| type := "blur"; listener := PrototypeMethod "_onBlur"; useCapture := true |}
    (removeEventListener
       {| type := "focus"; listener := PrototypeMethod "_onFocus"; useCapture := true |}
       listeners).

Definition is_bound (r : Registration) : bool :=
  match listener r with
  | BoundFunction _ _ => true
  | PrototypeMethod _ => false
  end.

End FocusTracker.

(** ** Choices among conflicting default editors *)

Module ConflictingDefaults.
Import EditorOverride.

Section Choices.
Context `{Platform}.
(** [extname] of the resource's path. *)
Context (extname : URI -> string).





End Choices.
End ConflictingDefaults.

(** ** The editors open in the editor groups

    An editor object is told by [ident]; a group by its [id].
    [closeEditor] of a group removes the editor object from the group's
    editors. *)

Module OpenEditors.
Import EditorOverride.

Section Groups.
Context `{Platform}.
(** [isEqual] of [base/common/resources]. *)
Context (isEqual : option URI -> URI -> bool).

Record OpenEditor : Type := {
  ident : nat;
  open_resource : option URI;
  open_viewType : option string
}.

Record EditorGroup : Type := {
  group_id : nat;
  editors : list OpenEditor
}.

(** [distinct] of [base/common/arrays] on group objects: the first of
    equal ones is kept. *)
Fixpoint distinct (seen : list nat) (groups : list EditorGroup) : list EditorGroup :=
  match groups with
  | [] => []
  | group :: groups' =>
      if existsb (Nat.eqb (group_id group)) seen then distinct seen groups'
      else group :: distinct (group_id group :: seen) groups'
  end.

Definition same_editor (a b : OpenEditor) : bool := (ident a =? ident b)%nat.

(** [isEqual(editor.resource, resource) && editor.viewType === viewType] *)
Definition is_existing (resource : URI) (viewType : string) (editor : OpenEditor)
  : bool :=
  isEqual (open_resource editor) resource &&
  bool_decide (open_viewType editor = Some viewType).

Definition findExistingEditorsForResource (resource : URI) (viewType : string)
    (groups : list EditorGroup) : list (OpenEditor * nat) :=
  flat_map (fun group =>
              map (fun editor => (editor, group_id group))
                  (List.filter (is_existing resource viewType) (editors group)))
           (distinct [] groups).

(** [group.closeEditor(editor)] on the group with this id. *)
Definition closeEditor (group : nat) (editor : OpenEditor)
    (groups : list EditorGroup) : list EditorGroup :=
  map (fun g =>
         if (group_id g =? group)%nat
         then {| group_id := group_id g;
                 editors := List.filter (fun x => negb (same_editor x editor))
                                        (editors g) |}
         else g)
      groups.

Definition closeExistingEditorsForResource (resource : URI) (viewType : string)
    (targetGroup : nat) (groups : list EditorGroup) : list EditorGroup :=
  let editorInfoForResource := findExistingEditorsForResource resource viewType groups in
  match editorInfoForResource with
  | [] => groups
  | editorToUse :: _ =>
      let groups1 :=
        fold_left (fun gs info =>
                     if negb (same_editor (fst info) (fst editorToUse))
                     then closeEditor (snd info) (fst info) gs
                     else gs)
                  editorInfoForResource groups in
      if negb (targetGroup =? snd editorToUse)%nat
      then closeEditor (snd editorToUse) (fst editorToUse) groups1
      else groups1
  end.

(** Group objects are distinct, and no editor object is open twice. *)
Definition opened_once (groups : list EditorGroup) : Prop :=
  NoDup (map group_id groups) /\
  NoDup (map ident (flat_map editors groups)).

(** The editors of the group with this id that are left after the editors
    that [drop] holds have been closed. *)
Definition remaining (drop : nat -> OpenEditor -> bool) (g : EditorGroup) : EditorGroup :=
  {| group_id := group_id g;
     editors := List.filter (fun x => negb (drop (group_id g) x)) (editors g) |}.

End Groups.
End OpenEditors.

(** ** More examples *)

Module MoreExamples.
Import EditorOverride WebviewPreloads.



(** A renderer that draws a plot, and no preload. *)
Definition plot_loaders : Loaders :=
  {| renderers_load := fun _ =>
       Resolves (ApiObject {| renderCell := fun _ _ => Returns [TextNode "plot"] |});
     preloads := ∅;
     not_an_api := "Cannot read property 'renderCell' of undefined" |}.

End MoreExamples.

Module OpenEditorsExamples.
Import EditorOverride OpenEditors.
#[local] Existing Instance example_platform.

Definition example_isEqual (a : option string) (b : string) : bool :=
  bool_decide (a = Some b).

(** The markdown preview of [notes.md] open in two groups, beside a text
    editor for the same file. *)
Definition example_groups : list EditorGroup :=
  [{| group_id := 1;
      editors := [{| ident := 1; open_resource := Some "notes.md";
                     open_viewType := Some "markdown.preview" |};
                  {| ident := 2; open_resource := Some "notes.md";
                     open_viewType := None |}] |};
   {| group_id := 2;
      editors := [{| ident := 3; open_resource := Some "notes.md";
                     open_viewType := Some "markdown.preview" |}] |}].

End OpenEditorsExamples.

(** ** Release notes cut at their references *)

Module ReleaseNotesText.
Import ReleaseNotes ReleaseNotesMore.





(** A reference as it stands in the text: bare, or between backquotes. *)
Inductive Occurrence : Type :=
| Plain (ref : Reference)
| Quoted (ref : Reference).

(** The regular expression of [patchKeybindings] that is meant for the
    occurrence, counted in the order in which they are applied. *)
Definition pass_of (o : Occurrence) : nat :=
  match o with
  | Quoted (KbReference _) => 1
  | Quoted (KbstyleReference _) => 2
  | Plain (KbReference _) => 3
  | Plain (KbstyleReference _) => 4
  end.




Section Text.
Context `{Host}.

Definition source (o : Occurrence) : jsstring :=
  match o with
  | Plain ref => reference_text ref
  | Quoted ref => quoted_text ref
  end.

(** The label of a reference: the placeholder when its keybinding cannot
    be looked up, parsed or resolved or has no label. *)
Definition label (ref : Reference) : jsstring :=
  if unresolved ref then unassigned else resolved ref.

(** What stands in place of the occurrence in the patched text. *)
Definition patched (o : Occurrence) : jsstring :=
  match o with
  | Plain ref => escapeMarkdownSyntaxTokens (label ref)
  | Quoted ref => code_element (binding_of ref) (label ref)
  end.



(** The occurrence, and the text, after the first [k] of the four
    replacements. *)
Definition after (k : nat) (o : Occurrence) : jsstring :=
  if (pass_of o <=? k)%nat then patched o else source o.





End Text.








End ReleaseNotesText.

Module ReleaseNotesTextExamples.
Import ReleaseNotes ReleaseNotesText.



End ReleaseNotesTextExamples.

(** * Properties *)

(** ** The stable sort *)

Section ArraySortFacts.
Context {A : Type} (rk : A -> Z).

Lemma sort_insert_perm (x : A) (l : list A) :
  Permutation (sort_insert (by_rank rk) x l) (x :: l).
Proof.
  induction l as [|y l IH]; simpl; [reflexivity|].
  destruct (0 <? by_rank rk x y); [|reflexivity].
  rewrite IH. apply perm_swap.
Qed.

Lemma array_sort_perm (l : list A) : Permutation (array_sort (by_rank rk) l) l.
Proof.
  induction l as [|x l IH]; simpl; [reflexivity|].
  rewrite sort_insert_perm. by constructor.
Qed.

Lemma sort_insert_sorted (x : A) (l : list A) :
  StronglySorted (non_increasing rk) l ->
  StronglySorted (non_increasing rk) (sort_insert (by_rank rk) x l).
Proof.
  induction 1 as [|y l Hl IH Hy]; simpl.
  - repeat constructor.
  - destruct (Z.ltb_spec 0 (by_rank rk x y)) as [Hlt|Hge]; unfold by_rank in *.
    + constructor; [exact IH|].
      rewrite List.Forall_forall. intros z Hz.
      apply (Permutation_in _ (sort_insert_perm x l)) in Hz.
      destruct Hz as [<-|Hz]; [unfold non_increasing; lia|].
      rewrite List.Forall_forall in Hy. by apply Hy.
    + constructor; [by constructor|].
      constructor; [unfold non_increasing; lia|].
      rewrite List.Forall_forall in Hy |- *. intros z Hz.
      specialize (Hy z Hz). unfold non_increasing in *. lia.
Qed.

Lemma array_sort_sorted (l : list A) :
  StronglySorted (non_increasing rk) (array_sort (by_rank rk) l).
Proof.
  induction l as [|x l IH]; simpl; [constructor|].
  by apply sort_insert_sorted.
Qed.

Lemma sort_insert_ge (x : A) (l : list A) :
  Forall (fun z => rk z <= rk x) l -> sort_insert (by_rank rk) x l = x :: l.
Proof.
  destruct 1 as [|y l Hy _]; simpl; [done|].
  unfold by_rank. destruct (Z.ltb_spec 0 (rk y - rk x)); [lia|done].
Qed.

Lemma filter_sort_insert (f : A -> bool) (x : A) (l : list A) :
  StronglySorted (non_increasing rk) l ->
  List.filter f (sort_insert (by_rank rk) x l)
  = if f x then sort_insert (by_rank rk) x (List.filter f l) else List.filter f l.
Proof.
  induction 1 as [|y l Hl IH Hy]; simpl; [by destruct (f x)|].
  destruct (Z.ltb_spec 0 (by_rank rk x y)) as [Hlt|Hge]; simpl.
  - rewrite IH. destruct (f x), (f y); simpl; try done.
    destruct (Z.ltb_spec 0 (by_rank rk x y)); [done|lia].
  - destruct (f x) eqn:Hfx; [|done].
    symmetry. apply sort_insert_ge.
    rewrite List.Forall_forall. intros z Hz.
    assert (Hin : In z (y :: l)).
    { destruct (f y); [destruct Hz as [<-|Hz]; [by left|]|];
        right; by apply List.filter_In in Hz as [? _]. }
    unfold by_rank in Hge. destruct Hin as [<-|Hin]; [lia|].
    rewrite List.Forall_forall in Hy. specialize (Hy z Hin).
    unfold non_increasing in Hy. lia.
Qed.

Lemma filter_array_sort (f : A -> bool) (l : list A) :
  List.filter f (array_sort (by_rank rk) l) = array_sort (by_rank rk) (List.filter f l).
Proof.
  induction l as [|x l IH]; simpl; [done|].
  rewrite filter_sort_insert by apply array_sort_sorted.
  rewrite IH. by destruct (f x).
Qed.

Lemma head_sort_insert (x : A) (l : list A) :
  head (sort_insert (by_rank rk) x l)
  = match head l with
    | Some y => if rk x <? rk y then Some y else Some x
    | None => Some x
    end.
Proof.
  destruct l as [|y l]; simpl; [done|]. unfold by_rank.
  destruct (Z.ltb_spec 0 (rk y - rk x)), (Z.ltb_spec (rk x) (rk y)); done || lia.
Qed.

Lemma head_array_sort (l : list A) : head (array_sort (by_rank rk) l) = first_highest rk l.
Proof.
  induction l as [|x l IH]; simpl; [done|].
  by rewrite head_sort_insert, IH.
Qed.

(** [first_highest] returns the first element among those of the greatest
    rank. *)
Lemma first_highest_spec (l : list A) (p : A) :
  first_highest rk l = Some p -> highest_ranked rk l p.
Proof.
  revert p. induction l as [|x l IH]; simpl; intros p Hp; [done|].
  destruct (first_highest rk l) as [y|] eqn:Hy.
  - destruct (IH y eq_refl) as (l1 & l2 & -> & H1 & H2).
    destruct (Z.ltb_spec (rk x) (rk y)); injection Hp as <-.
    + exists (x :: l1), l2. split; [done|]. split; [by constructor|done].
    + exists [], (List.app l1 (y :: l2)). split; [done|]. split; [constructor|].
      apply Forall_app. split.
      * eapply Forall_impl; [exact H1|]. simpl. intros; lia.
      * constructor; [lia|]. eapply Forall_impl; [exact H2|]. simpl. intros; lia.
  - injection Hp as <-. destruct l as [|z l]; simpl in Hy.
    + exists [], []. repeat split; constructor.
    + destruct (first_highest rk l); [destruct (rk z <? _)|]; discriminate.
Qed.

End ArraySortFacts.

(** ** Array helpers *)

Lemma array_find_existsb {A : Type} (p : A -> bool) (l : list A) :
  bool_decide (is_Some (array_find p l)) = existsb p l.
Proof.
  induction l as [|x l IH]; simpl; [done|].
  destruct (p x); [done|exact IH].
Qed.

Lemma existsb_filter {A : Type} (p q : A -> bool) (l : list A) :
  existsb p (List.filter q l) = existsb (fun x => q x && p x) l.
Proof.
  induction l as [|x l IH]; simpl; [done|].
  destruct (q x); simpl; by rewrite IH.
Qed.

Lemma existsb_ext_in {A : Type} (p q : A -> bool) (l : list A) :
  (forall x, In x l -> p x = q x) -> existsb p l = existsb q l.
Proof.
  induction l as [|x l IH]; simpl; intros Hpq; [done|].
  rewrite Hpq by (by left). f_equal. apply IH. intros; apply Hpq. by right.
Qed.

Lemma array_find_filter {A : Type} (p q : A -> bool) (l : list A) :
  array_find p (List.filter q l) = array_find (fun x => q x && p x) l.
Proof.
  induction l as [|x l IH]; simpl; [done|].
  destruct (q x); simpl; by rewrite IH.
Qed.

Lemma array_find_head_filter {A : Type} (p : A -> bool) (l : list A) :
  head (List.filter p l) = array_find p l.
Proof.
  induction l as [|x l IH]; simpl; [done|]. by destruct (p x).
Qed.

Lemma array_find_ext_in {A : Type} (p q : A -> bool) (l : list A) :
  (forall x, In x l -> p x = q x) -> array_find p l = array_find q l.
Proof.
  induction l as [|x l IH]; simpl; intros Hpq; [done|].
  rewrite Hpq by (by left). rewrite IH; [done|]. intros; apply Hpq. by right.
Qed.

(** ** The editor override service *)

Section EditorOverrideFacts.
Import EditorOverride.
Context `{Platform}.

Lemma map_get_In (m : list (GlobPattern * ContributionPoints)) k v :
  NoDup (map fst m) -> In (k, v) m -> map_get k m = Some v.
Proof.
  induction m as [|[k' v'] m IH]; simpl; [done|].
  intros Hnd [Heq|Hin].
  - injection Heq as -> ->. by rewrite decide_True.
  - apply NoDup_cons in Hnd as [Hk' Hnd].
    rewrite decide_False; [by apply IH|].
    intros ->. apply Hk'. apply list_elem_of_In.
    change k with (fst (k, v)). by apply in_map.
Qed.

Lemma keys_loop {B : Type} (F : GlobPattern -> ContributionPoints -> list B)
    (m0 m : list (GlobPattern * ContributionPoints)) :
  (forall kv, In kv m -> map_get (fst kv) m0 = Some (snd kv)) ->
  flat_map (fun key => F key (default [] (map_get key m0))) (map_keys m)
  = flat_map (fun kv => F (fst kv) (snd kv)) m.
Proof.
  induction m as [|kv m IH]; simpl; intros Hget; [done|].
  rewrite (Hget kv) by (by left). simpl. f_equal.
  apply IH. intros; apply Hget. by right.
Qed.

Lemma flat_map_filter_concat (P : GlobPattern -> ContributionPoint -> bool)
    (Q : ContributionPoint -> bool) (m : list (GlobPattern * ContributionPoints)) :
  (forall kv cp, In kv m -> In cp (snd kv) -> P (fst kv) cp = Q cp) ->
  flat_map (fun kv => List.filter (P (fst kv)) (snd kv)) m
  = List.filter Q (concat (map snd m)).
Proof.
  induction m as [|kv m IH]; simpl; intros HPQ; [done|].
  rewrite List.filter_app. f_equal.
  - apply List.filter_ext_in. intros cp Hcp. apply HPQ; [by left|done].
  - apply IH. intros kv' cp Hkv' Hcp. apply HPQ; [by right|done].
Qed.

Lemma well_formed_keys s : well_formed s = true -> NoDup (map fst (_contributionPoints s)).
Proof.
  unfold well_formed. intros Hwf. apply andb_prop in Hwf as [Hnd _].
  by apply bool_decide_eq_true in Hnd.
Qed.

Lemma well_formed_pattern s kv cp :
  well_formed s = true -> In kv (_contributionPoints s) -> In cp (snd kv) ->
  globPattern cp = fst kv.
Proof.
  unfold well_formed. intros Hwf Hkv Hcp. apply andb_prop in Hwf as [_ Hall].
  rewrite forallb_forall in Hall. specialize (Hall kv Hkv).
  rewrite forallb_forall in Hall. specialize (Hall cp Hcp).
  by apply bool_decide_eq_true in Hall.
Qed.

Lemma found_in_settings s resource cp :
  In cp (_allContributions s) ->
  bool_decide (is_Some (array_find
    (fun setting => String.eqb (viewType setting) (id (editorInfo cp)))
    (getAssociationsForResource s resource)))
  = association_names s resource cp.
Proof.
  intros Hcp. rewrite array_find_existsb. unfold getAssociationsForResource.
  rewrite !existsb_filter. unfold association_names.
  apply existsb_ext_in. intros a _.
  destruct (truthy (filenamePattern a) &&
            globMatchesResource (GlobString (filenamePattern a)) resource); simpl; [|done].
  rewrite array_find_existsb.
  destruct (String.eqb_spec (viewType a) (id (editorInfo cp))) as [Heq|Hne].
  - rewrite andb_true_r. apply existsb_exists. exists cp. split; [done|].
    rewrite Heq. apply String.eqb_refl.
  - apply andb_false_r.
Qed.

Lemma well_formed_spec s :
  well_formed s = true <->
  NoDup (map fst (_contributionPoints s)) /\
  forall k cps cp, In (k, cps) (_contributionPoints s) -> In cp cps -> globPattern cp = k.
Proof.
  split.
  - intros Hwf. split; [by apply well_formed_keys|].
    intros k cps cp Hk Hcp. by apply (well_formed_pattern s (k, cps) cp).
  - intros [Hnd Hpat]. unfold well_formed. apply andb_true_intro. split.
    + by apply bool_decide_eq_true.
    + apply forallb_forall. intros [k cps] Hk. apply forallb_forall. intros cp Hcp.
      apply bool_decide_eq_true. by apply (Hpat k cps).
Qed.

Lemma map_get_Some_In (m : list (GlobPattern * ContributionPoints)) k v :
  map_get k m = Some v -> In (k, v) m.
Proof.
  induction m as [|[k' v'] m IH]; simpl; [done|].
  destruct (decide (k' = k)) as [->|]; [intros [= ->]; by left|].
  intros Hv. right. by apply IH.
Qed.

Lemma map_set_spec (m : list (GlobPattern * ContributionPoints)) key v :
  NoDup (map fst m) ->
  NoDup (map fst (map_set key v m)) /\
  map_get key (map_set key v m) = Some v /\
  (forall k x, In (k, x) (map_set key v m) -> (k = key /\ x = v) \/ In (k, x) m) /\
  (forall k, In k (map fst (map_set key v m)) -> k = key \/ In k (map fst m)).
Proof.
  induction m as [|[k' v'] m IH]; simpl; intros Hnd.
  - rewrite decide_True by done. split; [repeat constructor; by intros ?%elem_of_nil|].
    split; [done|]. split.
    + intros k x [[= <- <-]|[]]. by left.
    + intros k [<-|[]]. by left.
  - apply NoDup_cons in Hnd as [Hk' Hnd].
    destruct (decide (k' = key)) as [->|Hne]; simpl.
    + rewrite decide_True by done. split; [by apply NoDup_cons|].
      split; [done|]. split.
      * intros k x [[= <- <-]|Hin]; auto.
      * intros k [<-|Hin]; auto.
    + rewrite decide_False by done.
      destruct (IH Hnd) as (IH1 & IH2 & IH3 & IH4). split; [|split; [done|split]].
      * apply NoDup_cons. split; [|done]. intros Hin%list_elem_of_In.
        apply IH4 in Hin as [->|Hin]; [done|]. by apply Hk', list_elem_of_In.
      * intros k x [[= <- <-]|Hin]; [right; by left|].
        apply IH3 in Hin as [?|?]; auto.
      * intros k [<-|Hin]; [right; by left|].
        apply IH4 in Hin as [?|?]; auto.
Qed.

(** [registerContributionPoint] keeps the map as the service expects it. *)
Lemma registerContributionPoint_well_formed cp s :
  well_formed s = true -> well_formed (registerContributionPoint cp s) = true.
Proof.
  rewrite !well_formed_spec. intros [Hnd Hpat]. unfold registerContributionPoint.
  simpl. set (key := globPattern cp).
  set (m := match map_get key (_contributionPoints s) with
            | Some _ => _contributionPoints s
            | None => map_set key [] (_contributionPoints s)
            end).
  assert (Hm : NoDup (map fst m) /\
               forall k cps c, In (k, cps) m -> In c cps -> globPattern c = k).
  { unfold m. destruct (map_get key (_contributionPoints s)); [done|].
    destruct (map_set_spec (_contributionPoints s) key [] Hnd) as (H1 & _ & H3 & _).
    split; [done|]. intros k cps c Hk Hc.
    apply H3 in Hk as [[_ ->]|Hk]; [destruct Hc|]. by apply (Hpat k cps). }
  destruct Hm as [Hmnd Hmpat].
  destruct (map_set_spec m key (List.app (default [] (map_get key m)) [cp]) Hmnd)
    as (H1 & _ & H3 & _).
  split; [done|]. intros k cps c Hk Hc.
  apply H3 in Hk as [[-> ->]|Hk]; [|by apply (Hmpat k cps)].
  apply in_app_or in Hc as [Hc|[<-|[]]]; [|done].
  destruct (map_get key m) as [v|] eqn:Hv; [|destruct Hc].
  apply (Hmpat key v); [by apply map_get_Some_In|done].
Qed.

(** Before sorting, the loop of [findMatchingContributions] has collected
    the matching contribution points in registration order. *)
Lemma findMatchingContributions_unsorted s resource :
  well_formed s = true ->
  findMatchingContributions s resource
  = array_sort rank_compare
      (List.filter (matches_resource s resource) (_allContributions s)).
Proof.
  intros Hwf. unfold findMatchingContributions. f_equal.
  rewrite (keys_loop (fun key cps => List.filter (fun cp =>
    bool_decide (is_Some (array_find
      (fun setting => String.eqb (viewType setting) (id (editorInfo cp)))
      (getAssociationsForResource s resource)))
    || globMatchesResource key resource) cps)).
  - unfold _allContributions.
    apply (flat_map_filter_concat
      (fun key cp => bool_decide (is_Some (array_find
         (fun setting => String.eqb (viewType setting) (id (editorInfo cp)))
         (getAssociationsForResource s resource)))
       || globMatchesResource key resource)).
    intros kv cp Hkv Hcp. unfold matches_resource.
    rewrite (well_formed_pattern s kv cp Hwf Hkv Hcp).
    rewrite found_in_settings; [apply orb_comm|].
    unfold _allContributions. apply in_concat. exists (snd kv).
    split; [by apply in_map|done].
  - intros [k v] Hkv. apply map_get_In; [by apply well_formed_keys|done].
Qed.

(** C4. For a service whose map is as [registerContributionPoint] builds
    it, [getEditorIds] returns the ids of exactly the registered
    contribution points that glob-match the resource or are named by a user
    association matching the resource (a rearrangement of those, each as
    often as it is registered), in non-increasing order of priority rank. *)
Theorem getEditorIds_exact s resource :
  well_formed s = true ->
  exists cps,
    getEditorIds s resource = map (fun c => id (editorInfo c)) cps /\
    Permutation cps (List.filter (matches_resource s resource) (_allContributions s)) /\
    StronglySorted (fun a b => rank b <= rank a) cps.
Proof.
  intros Hwf. exists (findMatchingContributions s resource).
  split; [done|]. rewrite findMatchingContributions_unsorted by done.
  split; [apply (array_sort_perm rank)|apply (array_sort_sorted rank)].
Qed.

Lemma filter_filter_and {A : Type} (f g : A -> bool) (l : list A) :
  List.filter f (List.filter g l) = List.filter (fun x => g x && f x) l.
Proof.
  induction l as [|x l IH]; simpl; [done|].
  destruct (g x); simpl; by rewrite IH.
Qed.

Lemma possible_eligible s resource :
  well_formed s = true ->
  possibleContributionPoints (findMatchingContributions s resource)
  = array_sort rank_compare (eligible s resource).
Proof.
  intros Hwf. rewrite findMatchingContributions_unsorted by done.
  unfold possibleContributionPoints.
  change rank_compare with (by_rank rank).
  rewrite (filter_array_sort rank). f_equal.
  rewrite filter_filter_and. unfold eligible.
  apply List.filter_ext. intros cp. unfold rank. by rewrite andb_assoc.
Qed.

Lemma head_associations s resource :
  head (getAssociationsForResource s resource) = first_valid_association s resource.
Proof.
  unfold getAssociationsForResource, first_valid_association.
  rewrite array_find_head_filter, array_find_filter.
  apply array_find_ext_in. intros a _. by rewrite array_find_existsb.
Qed.

(** C5 (amended). With no override string, the selected view type is that
    of the first highest-ranked contribution among the registered ones that
    match the resource, have at least builtin rank and are not the default
    editor, when that contribution is exclusive; otherwise the non-empty
    view type of the first user association that matches the resource and
    names a registered contribution point; otherwise that of the
    highest-ranked such contribution. *)
Theorem selectedViewType_precedence s resource :
  well_formed s = true ->
  selectedViewType s resource = amended_selectedViewType s resource /\
  (forall p, first_highest rank (eligible s resource) = Some p ->
             highest_ranked rank (eligible s resource) p) /\
  fst (getContributionPoint s resource None)
  = findMatchingContribPoint resource (findMatchingContributions s resource)
      (amended_selectedViewType s resource).
Proof.
  intros Hwf.
  assert (Hsel : selectedViewType s resource = amended_selectedViewType s resource).
  { unfold selectedViewType, amended_selectedViewType.
    rewrite possible_eligible by done.
    change rank_compare with (by_rank rank).
    rewrite (head_array_sort rank), head_associations.
    by destruct (first_highest rank (eligible s resource)). }
  split; [exact Hsel|]. split; [apply first_highest_spec|].
  simpl. by rewrite Hsel.
Qed.

(** C10. Called with [options.override] equal to [EditorOverride.DISABLED],
    [resolveEditorOverride] rejects, whatever the editor input, the group,
    the state of the service and the answers of its collaborators. *)
Theorem resolveEditorOverride_disabled io s editor options group :
  options ≫= override = Some DISABLED ->
  is_rejected (fst (resolveEditorOverride io s editor options group)) = true.
Proof.
  intros Hdis. unfold resolveEditorOverride. rewrite Hdis.
  destruct (match cache s, input_resource editor with
            | Some _, Some r => resourceMatchesCache s r
            | _, _ => false
            end); [|done].
  by destruct (whenInstalledExtensionsRegistered io).
Qed.

End EditorOverrideFacts.

Section EditorOverrideExamples.
Import EditorOverride.
#[local] Existing Instance example_platform.

Lemma getEditorIds_exact_witness :
  well_formed example_service = true /\
  exists cps,
    getEditorIds example_service "notes.md" = map (fun c => id (editorInfo c)) cps /\
    Permutation cps
      (List.filter (matches_resource example_service "notes.md")
                   (_allContributions example_service)) /\
    StronglySorted (fun a b => rank b <= rank a) cps.
Proof.
  split; [reflexivity|].
  apply (getEditorIds_exact example_service "notes.md"). reflexivity.
Defined.

(** C5 as stated fails: the user association for [*.md] names an editor
    that is not registered, so the code falls through to the builtin
    preview, where the stated precedence yields the association's view
    type. *)
Lemma selectedViewType_not_claimed :
  selectedViewType dangling_service "notes.md" = Some "markdown.preview" /\
  claimed_selectedViewType dangling_service "notes.md" = Some "ghost.editor" /\
  selectedViewType dangling_service "notes.md"
  <> claimed_selectedViewType dangling_service "notes.md".
Proof. split; [reflexivity|]. split; [reflexivity|]. discriminate. Qed.

(** The exclusive test is made after the default editor has been set
    aside: here the highest-ranked matching contribution is exclusive, and
    the builtin preview is selected. *)
Lemma selectedViewType_exclusive_default :
  getEditorIds exclusive_default_service "notes.md" = ["default"; "markdown.preview"] /\
  claimed_selectedViewType exclusive_default_service "notes.md" = Some "default" /\
  selectedViewType exclusive_default_service "notes.md" = Some "markdown.preview".
Proof. repeat split. Qed.

Lemma selectedViewType_precedence_witness :
  well_formed example_service = true /\
  selectedViewType example_service "notes.md" = Some "markdown.wysiwyg".
Proof.
  split; [reflexivity|].
  destruct (selectedViewType_precedence example_service "notes.md" eq_refl) as [-> _].
  reflexivity.
Defined.

Lemma resolveEditorOverride_disabled_witness :
  Some (example_options DISABLED) ≫= override = Some DISABLED /\
  is_rejected (fst (resolveEditorOverride example_interaction example_service
                      (EditorInput (Some "notes.md") None)
                      (Some (example_options DISABLED)) 0%nat)) = true.
Proof.
  split; [reflexivity|].
  apply (resolveEditorOverride_disabled example_interaction example_service).
  reflexivity.
Defined.

End EditorOverrideExamples.

(** ** The release-notes manager *)

Section ReleaseNotesFacts.
Import ReleaseNotes.
Context `{Host}.

Lemma consistent_new : consistent new_manager.
Proof.
  split.
  - intros v p Hv. simpl in Hv. by rewrite lookup_empty in Hv.
  - intros p v Hp. unfold in_flight in Hp. simpl in Hp. by rewrite lookup_nil in Hp.
Qed.

Lemma fetchReleaseNotes_settled r : fetchReleaseNotes r <> Pending.
Proof.
  destruct r as [|[text|]]; simpl; try done.
  by destruct (_ || _).
Qed.

Lemma fetchReleaseNotes_failed r :
  failed r = true -> is_rejected (Some (fetchReleaseNotes r)) = true.
Proof.
  destruct r as [|[text|]]; simpl; try done.
  intros ->. by rewrite orb_true_r.
Qed.

(** A call that misses the cache sends one request and caches a new
    pending promise. *)
Lemma loadReleaseNotes_miss version label m :
  versionLabel version = Some label ->
  _releaseNotesCache m !! version = None ->
  loadReleaseNotes version m
  = (Adopts (length (promises m)),
     {| _releaseNotesCache := <[version := length (promises m)]> (_releaseNotesCache m);
        promises := List.app (promises m)
                      [{| fetch_version := version; fetch_state := Pending |}];
        requests := List.app (requests m) [url label];
        _currentReleaseNotes := _currentReleaseNotes m;
        _lastText := _lastText m;
        uuids := uuids m |}).
Proof.
  intros Hl Hc. unfold loadReleaseNotes. rewrite Hl, Hc. simpl.
  by rewrite lookup_insert_eq.
Qed.

Lemma loadReleaseNotes_hit version label p m :
  versionLabel version = Some label ->
  _releaseNotesCache m !! version = Some p ->
  loadReleaseNotes version m = (Adopts p, m).
Proof. intros Hl Hc. unfold loadReleaseNotes. by rewrite Hl, Hc, Hc. Qed.

Lemma consistent_load version m :
  consistent m -> consistent (snd (loadReleaseNotes version m)).
Proof.
  intros [Ha Hb].
  destruct (versionLabel version) as [label|] eqn:Hl;
    [|unfold loadReleaseNotes; by rewrite Hl].
  destruct (_releaseNotesCache m !! version) as [p0|] eqn:Hc.
  { by rewrite (loadReleaseNotes_hit _ _ _ _ Hl Hc). }
  rewrite (loadReleaseNotes_miss _ _ _ Hl Hc). split; simpl.
  - intros v p Hv. destruct (decide (version = v)) as [<-|Hne].
    + rewrite lookup_insert_eq in Hv. injection Hv as <-.
      split; [by rewrite Hl|]. exists Pending.
      split; [|done]. by rewrite lookup_app_r, Nat.sub_diag.
    + rewrite lookup_insert_ne in Hv by done.
      destruct (Ha v p Hv) as [Hlab (st & Hst & Hrej)].
      split; [done|]. exists st. split; [|done].
      rewrite lookup_app_l; [done|]. by eapply lookup_lt_Some.
  - intros p v Hp. unfold in_flight in Hp. simpl in Hp.
    destruct (decide (p < length (promises m))%nat) as [Hlt|Hge].
    + rewrite lookup_app_l in Hp by done.
      specialize (Hb p v Hp). rewrite lookup_insert_ne; [done|].
      intros <-. by rewrite Hc in Hb.
    + rewrite lookup_app_r in Hp by lia.
      destruct (p - length (promises m))%nat as [|k] eqn:Hk; [|done].
      injection Hp as <-. assert (p = length (promises m)) as -> by lia.
      by rewrite lookup_insert_eq.
Qed.

Lemma respond_in_flight p r version m :
  in_flight m p version ->
  respond p r m
  = {| _releaseNotesCache :=
         match fetchReleaseNotes r with
         | Rejected _ => delete version (_releaseNotesCache m)
         | _ => _releaseNotesCache m
         end;
       promises := <[p := {| fetch_version := version;
                             fetch_state := fetchReleaseNotes r |}]> (promises m);
       requests := requests m;
       _currentReleaseNotes := _currentReleaseNotes m;
       _lastText := _lastText m;
       uuids := uuids m |}.
Proof. intros Hp. unfold respond. by rewrite Hp. Qed.

Lemma consistent_respond p r m : consistent m -> consistent (respond p r m).
Proof.
  intros [Ha Hb].
  destruct (promises m !! p) as [[version st]|] eqn:Hp;
    [|unfold respond; by rewrite Hp].
  destruct st; try (unfold respond; by rewrite Hp).
  rewrite (respond_in_flight p r version m Hp).
  pose proof (Hb p version Hp) as Hcp.
  assert (Hlt : (p < length (promises m))%nat) by (by eapply lookup_lt_Some).
  split; simpl.
  - intros v q Hv.
    assert (Hold : _releaseNotesCache m !! v = Some q /\
                   (v = version -> is_rejected (Some (fetchReleaseNotes r)) = false)).
    { destruct (fetchReleaseNotes r) eqn:Hr; try (split; done).
      destruct (decide (version = v)) as [<-|Hne].
      - by rewrite lookup_delete_eq in Hv.
      - rewrite lookup_delete_ne in Hv by done. split; [done|congruence]. }
    destruct Hold as [Hvq Hrej].
    destruct (Ha v q Hvq) as [Hlab (st & Hst & Hnr)]. split; [done|].
    destruct (decide (q = p)) as [->|Hne].
    + rewrite Hp in Hst. injection Hst as <- <-.
      exists (fetchReleaseNotes r). split; [|by apply Hrej].
      by rewrite list_lookup_insert_eq.
    + exists st. split; [|done]. by rewrite list_lookup_insert_ne.
  - intros q v Hq. unfold in_flight in Hq. simpl in Hq.
    destruct (decide (q = p)) as [->|Hne].
    { rewrite list_lookup_insert_eq in Hq by done. injection Hq as _ Hq.
      by destruct (fetchReleaseNotes_settled r). }
    rewrite list_lookup_insert_ne in Hq by done.
    pose proof (Hb q v Hq) as Hvq.
    assert (v <> version) by (intros ->; congruence).
    destruct (fetchReleaseNotes r); try done.
    by rewrite lookup_delete_ne.
Qed.

Lemma consistent_step m e : consistent m -> consistent (step m e).
Proof.
  destruct e as [version|p r|version]; simpl.
  - apply consistent_load.
  - apply consistent_respond.
  - done.
Qed.

Lemma consistent_run events : consistent (run events).
Proof.
  unfold run. generalize consistent_new. generalize new_manager.
  induction events as [|e events IH]; simpl; intros m Hm; [done|].
  apply IH. by apply consistent_step.
Qed.

(** C3. In every state the manager can reach, a call of
    [loadReleaseNotes] for a version whose promise is cached returns that
    promise and leaves the manager, hence the list of requests sent, as it
    was; and no version has two fetches in flight. *)
Theorem loadReleaseNotes_cached events version p :
  _releaseNotesCache (run events) !! version = Some p ->
  loadReleaseNotes version (run events) = (Adopts p, run events) /\
  requests (snd (loadReleaseNotes version (run events))) = requests (run events) /\
  (forall v p1 p2,
     in_flight (run events) p1 v -> in_flight (run events) p2 v -> p1 = p2).
Proof.
  intros Hc. destruct (consistent_run events) as [Ha Hb].
  destruct (Ha version p Hc) as [Hlab _].
  destruct (versionLabel version) as [label|] eqn:Hl; [|done].
  rewrite (loadReleaseNotes_hit _ _ _ _ Hl Hc).
  repeat split. intros v p1 p2 H1 H2.
  apply Hb in H1, H2. congruence.
Qed.

(** C6. When the request behind a pending fetch fails, or the text it
    delivers does not start with [#] and white space, the promise is
    rejected and the cache entry of the version is removed, so that the
    next call for that version sends a fresh request and caches a new
    pending promise. *)
Theorem loadReleaseNotes_failure events p version r :
  in_flight (run events) p version ->
  failed r = true ->
  let m := respond p r (run events) in
  is_rejected (fetch_state <$> promises m !! p) = true /\
  _releaseNotesCache m !! version = None /\
  exists label fresh,
    versionLabel version = Some label /\
    fresh <> p /\
    fst (loadReleaseNotes version m) = Adopts fresh /\
    requests (snd (loadReleaseNotes version m)) = List.app (requests m) [url label] /\
    in_flight (snd (loadReleaseNotes version m)) fresh version.
Proof.
  intros Hp Hfail m. destruct (consistent_run events) as [Ha Hb].
  pose proof (Hb p version Hp) as Hc.
  destruct (Ha version p Hc) as [Hlab _].
  destruct (versionLabel version) as [label|] eqn:Hl; [|done].
  assert (Hlt : (p < length (promises (run events)))%nat) by (by eapply lookup_lt_Some).
  pose proof (fetchReleaseNotes_failed r Hfail) as Hrej.
  assert (Hnone : _releaseNotesCache m !! version = None).
  { unfold m. rewrite (respond_in_flight p r version _ Hp). simpl.
    destruct (fetchReleaseNotes r); try done. apply lookup_delete_eq. }
  assert (Hlen : length (promises m) = length (promises (run events))).
  { unfold m. rewrite (respond_in_flight p r version _ Hp). simpl.
    apply length_insert. }
  split; [|split; [done|]].
  - unfold m. rewrite (respond_in_flight p r version _ Hp). simpl.
    by rewrite list_lookup_insert_eq.
  - exists label, (length (promises m)).
    rewrite (loadReleaseNotes_miss _ _ _ Hl Hnone). simpl.
    repeat split; [lia|].
    unfold in_flight. simpl. by rewrite lookup_app_r, Nat.sub_diag.
Qed.

(** C9. For every version, [show] resolves to [true] without a request
    and without touching the cache: the branch that would call
    [loadReleaseNotes] is dead, and the page shown is rendered from the
    markdown text written out in [show]. *)
Theorem show_builtin awaited version m :
  fst (show awaited version m) = Resolves true /\
  requests (snd (show awaited version m)) = requests m /\
  _releaseNotesCache (snd (show awaited version m)) = _releaseNotesCache m /\
  promises (snd (show awaited version m)) = promises m /\
  _lastText (snd (show awaited version m)) = Some january2021 /\
  _currentReleaseNotes (snd (show awaited version m))
  = Some {| name := releaseNotesInputName version;
            html := page (generateUuid (uuids m)) tokensCSS
                      (renderMarkdownDocument january2021) |}.
Proof. repeat split. Qed.

End ReleaseNotesFacts.

(** ** Replacing references *)

Lemma lacks_app c s t : lacks c (List.app s t) = lacks c s && lacks c t.
Proof. apply forallb_app. Qed.

Lemma lacks_cons c x s : lacks c (x :: s) = negb (x =? c)%N && lacks c s.
Proof. done. Qed.

Lemma same_char_ci_symbol p c :
  is_lower p = false -> same_char_ci p c = true -> c = p.
Proof.
  unfold same_char_ci. intros ->. rewrite andb_false_l, orb_false_r.
  apply N.eqb_eq.
Qed.

Lemma match_literal_In lit s c :
  In c lit -> is_lower c = false -> lacks c s = true -> match_literal lit s = None.
Proof.
  revert s. induction lit as [|p lit IH]; intros s Hin Hlow Hs; [done|].
  destruct s as [|x s]; [done|]. simpl.
  rewrite lacks_cons in Hs. apply andb_prop in Hs as [Hx Hs].
  destruct (same_char_ci p x) eqn:Hpx; [|done].
  destruct Hin as [->|Hin]; [|by apply IH].
  apply same_char_ci_symbol in Hpx; [|done]. subst x.
  by rewrite N.eqb_refl in Hx.
Qed.

Lemma replace_from_none pat f c s :
  match_at pat (c :: s) = None ->
  replace_from pat f 0 (c :: s) = c :: replace_from pat f 0 s.
Proof. intros Hm. simpl replace_from. by rewrite Hm. Qed.

(** Text that lacks a symbol of the prefix is left as it is. *)
Lemma replace_lacks pat f c s :
  In c (prefix pat) -> is_lower c = false -> lacks c s = true -> replace pat f s = s.
Proof.
  intros Hin Hlow. unfold replace. induction s as [|x s IH]; intros Hs; [done|].
  rewrite replace_from_none.
  - f_equal. apply IH. rewrite lacks_cons in Hs. by apply andb_prop in Hs as [_ Hs].
  - unfold match_at. by rewrite (match_literal_In _ _ c).
Qed.

Lemma replace_from_skip pat f k s :
  replace_from pat f k s = replace_from pat f 0 (drop k s).
Proof.
  revert k. induction s as [|c s IH]; intros [|k]; try done.
  simpl drop. by rewrite <- IH.
Qed.

Lemma replace_from_some pat f c s binding len :
  match_at pat (c :: s) = Some (binding, len) ->
  replace_from pat f 0 (c :: s)
  = List.app (f (take len (c :: s)) binding) (replace_from pat f 0 (drop (pred len) s)).
Proof. intros Hm. simpl replace_from. rewrite Hm. by rewrite replace_from_skip. Qed.

(** Text before the first match is copied. *)
Lemma replace_before pat f pre rest :
  (forall a c b, pre = List.app a (c :: b) ->
                 match_at pat (c :: List.app b rest) = None) ->
  replace_from pat f 0 (List.app pre rest) = List.app pre (replace_from pat f 0 rest).
Proof.
  induction pre as [|c pre IH]; intros Hnone; [done|].
  simpl List.app. rewrite replace_from_none by apply (Hnone [] c pre eq_refl).
  f_equal. apply IH. intros a d b ->. by apply (Hnone (c :: a) d b).
Qed.

Lemma span_app p s rest :
  forallb p s = true ->
  match rest with [] => True | c :: _ => p c = false end ->
  span p (List.app s rest) = (s, rest).
Proof.
  intros Hs Hrest. induction s as [|x s IH]; simpl.
  - destruct rest as [|c rest]; [done|]. simpl. by rewrite Hrest.
  - simpl in Hs. apply andb_prop in Hs as [Hx Hs]. by rewrite Hx, IH.
Qed.

Lemma match_literal_fail_at lit s (i : nat) p c :
  lit !! i = Some p -> s !! i = Some c -> same_char_ci p c = false ->
  match_literal lit s = None.
Proof.
  revert s i. induction lit as [|q lit IH]; intros s i Hp Hc Hpc; [done|].
  destruct s as [|x s]; [done|]. simpl.
  destruct i as [|i]; simpl in Hp, Hc.
  - injection Hp as ->. injection Hc as ->. by rewrite Hpc.
  - destruct (same_char_ci q x); [|done]. by eapply IH.
Qed.

Lemma lacks_lookup c s (i : nat) x :
  lacks c s = true -> s !! i = Some x -> (x =? c)%N = false.
Proof.
  intros Hs Hx. unfold lacks in Hs. rewrite forallb_forall in Hs.
  apply negb_true_iff, Hs. apply list_elem_of_In. by eapply list_elem_of_lookup_2.
Qed.

(** No match of a literal that ends with [(] and has [k] only in front
    starts in text without [(] that is followed by [k]. *)
Lemma match_literal_before lit body suf rest :
  lit = List.app body [40%N] ->
  forallb (fun p => negb (same_char_ci p 107)) (tail lit) = true ->
  suf <> [] -> lacks 40 suf = true ->
  match_literal lit (List.app suf (107%N :: rest)) = None.
Proof.
  intros Hlit Hk Hne Hsuf.
  destruct (decide (length suf < length lit)%nat) as [Hlt|Hge].
  - destruct suf as [|c suf]; [done|]. simpl in Hlt.
    destruct lit as [|q lit]; [simpl in Hlt; lia|]. simpl in Hk, Hlt.
    destruct (lookup_lt_is_Some_2 lit (length suf) ltac:(lia)) as [p Hp].
    apply (match_literal_fail_at _ _ (S (length suf)) p 107%N).
    + done.
    + change ((List.app suf (107%N :: rest)) !! length suf = Some 107%N).
      by apply list_lookup_middle.
    + rewrite forallb_forall in Hk. apply negb_true_iff, Hk.
      apply list_elem_of_In. by eapply list_elem_of_lookup_2.
  - subst lit. rewrite length_app in Hge. simpl in Hge.
    destruct (lookup_lt_is_Some_2 suf (length body) ltac:(lia)) as [x Hx].
    apply (match_literal_fail_at _ _ (length body) 40%N x).
    + by apply list_lookup_middle.
    + rewrite lookup_app_l; [done|]. by eapply lookup_lt_Some.
    + unfold same_char_ci. simpl. rewrite orb_false_r.
      by eapply lacks_lookup.
Qed.

Lemma replace_before_reference pat f body pre rest :
  prefix pat = List.app body [40%N] ->
  forallb (fun p => negb (same_char_ci p 107)) (tail (prefix pat)) = true ->
  lacks 40 pre = true ->
  replace_from pat f 0 (List.app pre (107%N :: rest))
  = List.app pre (replace_from pat f 0 (107%N :: rest)).
Proof.
  intros Hlit Hk Hpre. apply replace_before. intros a c b ->.
  unfold match_at.
  change (c :: List.app b (107%N :: rest)) with (List.app (c :: b) (107%N :: rest)).
  rewrite (match_literal_before _ body); try done.
  rewrite lacks_app in Hpre. by apply andb_prop in Hpre as [_ Hpre].
Qed.

Lemma forallb_lacks (p : N -> bool) c s :
  p c = false -> forallb p s = true -> lacks c s = true.
Proof.
  intros Hc Hs. unfold lacks. rewrite forallb_forall in Hs |- *.
  intros x Hx. specialize (Hs x Hx). apply negb_true_iff, N.eqb_neq.
  intros ->. congruence.
Qed.

Lemma replace_from_lacks pat f c s :
  In c (prefix pat) -> is_lower c = false -> lacks c s = true ->
  replace_from pat f 0 s = s.
Proof. apply replace_lacks. Qed.

Section PatchKeybindingsFacts.
Import ReleaseNotes.
Context `{Host}.

Lemma reference_lacks_backquote ref :
  well_formed_reference ref = true -> lacks 96 (reference_text ref) = true.
Proof.
  destruct ref as [command|keys]; simpl; intros Hwf.
  - apply andb_prop in Hwf as [_ Hc].
    rewrite lacks_app. by rewrite (forallb_lacks kb_class 96 command).
  - apply andb_prop in Hwf as [_ Hp]. apply andb_prop in Hp as [_ Hp].
    rewrite lacks_app. by rewrite Hp.
Qed.

Lemma match_plain_kb command post :
  nonempty command = true -> forallb kb_class command = true ->
  match_at plain_kb (List.app (str "kb(") (List.app command (41%N :: post)))
  = Some (command, (3 + length command + 1)%nat).
Proof.
  intros Hne Hc. unfold match_at. simpl match_literal at 1.
  cbv iota beta. change (binding_class plain_kb) with kb_class.
  rewrite (span_app kb_class command (41%N :: post)) by done.
  by destruct command.
Qed.

Lemma match_plain_kbstyle keys post :
  nonempty keys = true -> lacks 41 keys = true ->
  match_at plain_kbstyle (List.app (str "kbstyle(") (List.app keys (41%N :: post)))
  = Some (keys, (8 + length keys + 1)%nat).
Proof.
  intros Hne Hc. unfold match_at. simpl match_literal at 1.
  cbv iota beta. change (binding_class plain_kbstyle) with kbstyle_class.
  rewrite (span_app kbstyle_class keys (41%N :: post)); [|exact Hc|done].
  by destruct keys.
Qed.

Lemma drop_reference (a : jsstring) (command post : jsstring) :
  drop (length a + length command + 1) (List.app a (List.app command (41%N :: post)))
  = post.
Proof.
  change (41%N :: post) with (List.app [41%N] post).
  rewrite !app_assoc. apply drop_app_length'.
  rewrite !length_app. simpl. lia.
Qed.

(** The pass for [kb(...)] on text that holds one such reference. *)
Lemma replace_plain_kb f pre command post :
  lacks 40 pre = true -> lacks 40 post = true ->
  nonempty command = true -> forallb kb_class command = true ->
  replace plain_kb f
    (List.app pre (List.app (reference_text (KbReference command)) post))
  = List.app pre
      (List.app (f (reference_text (KbReference command)) command) post).
Proof.
  intros Hpre Hpost Hne Hc. unfold replace, reference_text.
  rewrite <- (app_assoc (str "kb(")), <- (app_assoc command).
  change (List.app (str ")") post) with (41%N :: post).
  change (List.app (str "kb(") (List.app command (41%N :: post)))
    with (107%N :: List.app (str "b(") (List.app command (41%N :: post))).
  rewrite (replace_before_reference plain_kb f (str "kb")) by done.
  f_equal.
  rewrite (replace_from_some plain_kb f _ _ command (3 + length command + 1)%nat)
    by by apply match_plain_kb.
  f_equal.
  - f_equal.
    change (107%N :: List.app (str "b(") (List.app command (41%N :: post)))
      with (List.app (str "kb(") (List.app command (List.app (str ")") post))).
    rewrite !app_assoc.
    rewrite (take_app_length' _ post); [done|].
    rewrite !length_app. simpl. lia.
  - change (pred (3 + length command + 1))
      with (length (str "b(") + length command + 1)%nat.
    rewrite drop_reference.
    apply (replace_from_lacks _ _ 40%N); [simpl; tauto|done|done].
Qed.

(** The pass for [kbstyle(...)] on text that holds one such reference. *)
Lemma replace_plain_kbstyle f pre keys post :
  lacks 40 pre = true -> lacks 40 post = true ->
  nonempty keys = true -> lacks 41 keys = true ->
  replace plain_kbstyle f
    (List.app pre (List.app (reference_text (KbstyleReference keys)) post))
  = List.app pre
      (List.app (f (reference_text (KbstyleReference keys)) keys) post).
Proof.
  intros Hpre Hpost Hne Hc. unfold replace, reference_text.
  rewrite <- (app_assoc (str "kbstyle(")), <- (app_assoc keys).
  change (List.app (str ")") post) with (41%N :: post).
  change (List.app (str "kbstyle(") (List.app keys (41%N :: post)))
    with (107%N :: List.app (str "bstyle(") (List.app keys (41%N :: post))).
  rewrite (replace_before_reference plain_kbstyle f (str "kbstyle")) by done.
  f_equal.
  rewrite (replace_from_some plain_kbstyle f _ _ keys (8 + length keys + 1)%nat)
    by by apply match_plain_kbstyle.
  f_equal.
  - f_equal.
    change (107%N :: List.app (str "bstyle(") (List.app keys (41%N :: post)))
      with (List.app (str "kbstyle(") (List.app keys (List.app (str ")") post))).
    rewrite !app_assoc.
    rewrite (take_app_length' _ post); [done|].
    rewrite !length_app. simpl. lia.
  - change (pred (8 + length keys + 1))
      with (length (str "bstyle(") + length keys + 1)%nat.
    rewrite drop_reference.
    apply (replace_from_lacks _ _ 40%N); [simpl; tauto|done|done].
Qed.

(** The pass for [kb(...)] leaves a [kbstyle(...)] reference alone. *)
Lemma replace_plain_kb_kbstyle f pre keys post :
  lacks 40 pre = true -> lacks 40 post = true -> lacks 40 keys = true ->
  replace plain_kb f
    (List.app pre (List.app (reference_text (KbstyleReference keys)) post))
  = List.app pre (List.app (reference_text (KbstyleReference keys)) post).
Proof.
  intros Hpre Hpost Hkeys. unfold replace, reference_text.
  rewrite <- (app_assoc (str "kbstyle(")), <- (app_assoc keys).
  change (List.app (str ")") post) with (41%N :: post).
  change (List.app (str "kbstyle(") (List.app keys (41%N :: post)))
    with (107%N :: List.app (str "bstyle(") (List.app keys (41%N :: post))).
  rewrite (replace_before_reference plain_kb f (str "kb")) by done.
  f_equal.
  change (List.app (str "bstyle(") (List.app keys (41%N :: post)))
    with (98%N :: 115%N :: 116%N :: 121%N :: 108%N :: 101%N :: 40%N ::
          List.app keys (41%N :: post)).
  do 8 (rewrite replace_from_none by reflexivity; f_equal).
  apply (replace_from_lacks _ _ 40%N); [simpl; tauto|done|].
  rewrite lacks_app, Hkeys. simpl. exact Hpost.
Qed.



End PatchKeybindingsFacts.

(** ** Matching a quoted reference *)

Section QuotedMatches.
Import ReleaseNotes ReleaseNotesMore.
Context `{Host}.

Lemma quoted_kb_text command post :
  List.app (quoted_text (KbReference command)) post
  = List.app (str "`kb(") (List.app command (41%N :: 96%N :: post)).
Proof. unfold quoted_text, reference_text. simpl. by rewrite <- !app_assoc. Qed.

Lemma quoted_kbstyle_text keys post :
  List.app (quoted_text (KbstyleReference keys)) post
  = List.app (str "`kbstyle(") (List.app keys (41%N :: 96%N :: post)).
Proof. unfold quoted_text, reference_text. simpl. by rewrite <- !app_assoc. Qed.

Lemma quoted_text_length ref :
  length (quoted_text ref) = (length (reference_text ref) + 2)%nat.
Proof. unfold quoted_text. simpl. rewrite length_app. simpl. lia. Qed.

Lemma match_quoted_kb command post :
  nonempty command = true -> forallb kb_class command = true ->
  match_at quoted_kb (List.app (quoted_text (KbReference command)) post)
  = Some (command, length (quoted_text (KbReference command))).
Proof.
  intros Hne Hc. rewrite quoted_kb_text, quoted_text_length.
  unfold match_at. simpl match_literal at 1.
  cbv iota beta. change (binding_class quoted_kb) with kb_class.
  rewrite (span_app kb_class command (41%N :: 96%N :: post)) by done.
  destruct command; [done|]. simpl. rewrite !length_app. simpl.
  do 3 f_equal. lia.
Qed.

Lemma match_quoted_kbstyle keys post :
  nonempty keys = true -> lacks 41 keys = true ->
  match_at quoted_kbstyle (List.app (quoted_text (KbstyleReference keys)) post)
  = Some (keys, length (quoted_text (KbstyleReference keys))).
Proof.
  intros Hne Hc. rewrite quoted_kbstyle_text, quoted_text_length.
  unfold match_at. simpl match_literal at 1.
  cbv iota beta. change (binding_class quoted_kbstyle) with kbstyle_class.
  rewrite (span_app kbstyle_class keys (41%N :: 96%N :: post)); [|exact Hc|done].
  destruct keys; [done|]. simpl. rewrite !length_app. simpl.
  do 3 f_equal. lia.
Qed.

Lemma code_element_lacks c binding label :
  c = 40%N \/ c = 96%N ->
  lacks c binding = true -> lacks c (escapeMdHtml label) = true ->
  lacks c (code_element binding label) = true.
Proof.
  intros Hc Hb Hl. unfold code_element.
  destruct label as [|x label]; [done|].
  change (34%N :: List.app binding
            (34%N :: List.app (str ">")
               (List.app (escapeMdHtml (x :: label)) (str "</code>"))))
    with (List.app [34%N] (List.app binding
            (List.app [34%N] (List.app (str ">")
               (List.app (escapeMdHtml (x :: label)) (str "</code>")))))).
  rewrite !lacks_app, Hb, Hl. by destruct Hc as [-> | ->].
Qed.

End QuotedMatches.

(** ** All references of a text *)

Section Triggers.
Import ReleaseNotes ReleaseNotesText.


















End Triggers.

Section Pieces.
Import ReleaseNotes ReleaseNotesMore ReleaseNotesText.
Context `{Host}.









Hypothesis placeholder : nonempty unassigned = true.


































End Pieces.

Section AllReferences.
Import ReleaseNotes ReleaseNotesMore ReleaseNotesText.
Context `{Host}.




End AllReferences.

Section AllReferencesExamples.
Import ReleaseNotes ReleaseNotesMore ReleaseNotesText ReleaseNotesTextExamples.
#[local] Existing Instance example_host.



(** The regular expressions ignore the case of [kb] and [kbstyle]. *)
Lemma patchKeybindings_ignores_case :
  patchKeybindings (str "Press KB(workbench.action.files.save) or KbStyle(Ctrl+S).")
  = str "Press Ctrl\+S or Ctrl\+S.".
Proof. reflexivity. Qed.

End AllReferencesExamples.

Section ReleaseNotesExamples.
Import ReleaseNotes.
#[local] Existing Instance example_host.

Lemma loadReleaseNotes_cached_witness :
  _releaseNotesCache (run [LoadNotes (str "1.53.1")]) !! str "1.53.1" = Some 0%nat /\
  loadReleaseNotes (str "1.53.1") (run [LoadNotes (str "1.53.1")])
  = (Adopts 0, run [LoadNotes (str "1.53.1")]).
Proof.
  assert (Hc : _releaseNotesCache (run [LoadNotes (str "1.53.1")]) !! str "1.53.1"
               = Some 0%nat) by (vm_compute; reflexivity).
  split; [exact Hc|].
  exact (proj1 (loadReleaseNotes_cached [LoadNotes (str "1.53.1")] (str "1.53.1") 0%nat Hc)).
Defined.

Lemma loadReleaseNotes_failure_witness :
  in_flight (run [LoadNotes (str "1.53.1")]) 0 (str "1.53.1") /\
  failed (ResponseText (Some (str "<html>Not found</html>"))) = true /\
  _releaseNotesCache
    (respond 0 (ResponseText (Some (str "<html>Not found</html>")))
       (run [LoadNotes (str "1.53.1")])) !! str "1.53.1" = None.
Proof.
  assert (Hp : in_flight (run [LoadNotes (str "1.53.1")]) 0 (str "1.53.1"))
    by reflexivity.
  split; [exact Hp|]. split; [reflexivity|].
  exact (proj1 (proj2 (loadReleaseNotes_failure [LoadNotes (str "1.53.1")] 0%nat
           (str "1.53.1") (ResponseText (Some (str "<html>Not found</html>")))
           Hp eq_refl))).
Defined.

End ReleaseNotesExamples.

(** ** The action queue of the notebook webview *)

Section WebviewPreloadsFacts.
Import WebviewPreloads.

Lemma cons_split {A : Type} (e x : A) (tr newer older : list A) :
  e :: tr = List.app newer (x :: older) ->
  (newer = [] /\ e = x /\ tr = older) \/
  (exists newer', newer = e :: newer' /\ tr = List.app newer' (x :: older)).
Proof. destruct newer as [|e' newer]; simpl; intros [= -> ->]; eauto. Qed.

Lemma invariant_no_outputs : invariant no_outputs.
Proof.
  split; simpl; intros; try done.
  by apply elem_of_nil in H.
Qed.

Lemma invariant_enqueue_new id s :
  outputs s !! id = None -> invariant s -> invariant (enqueue id s).
Proof.
  intros Hid Hs. unfold enqueue. rewrite Hid.
  split; simpl.
  - intros t id' r [[_ Ht]|[_ [= <- <-]]]%lookup_snoc_Some; rewrite length_app; simpl.
    + pose proof (inv_submitted s Hs _ _ _ Ht). lia.
    + lia.
  - intros id' r Hr. rewrite length_app. simpl.
    destruct (decide (id = id')) as [<-|Hne].
    + rewrite lookup_insert_eq in Hr. injection Hr as <-. lia.
    + rewrite lookup_insert_ne in Hr by done.
      pose proof (inv_outputs s Hs _ _ Hr). lia.
  - intros t id' r record [[_ Ht]|[_ [= <- <-]]]%lookup_snoc_Some Hr Hc.
    + pose proof (inv_submitted s Hs _ _ _ Ht) as Hlt.
      rewrite lookup_app_l in Hr by done.
      pose proof (inv_live s Hs _ _ _ _ Ht Hr Hc) as Hlive.
      rewrite lookup_insert_ne; [done|]. intros <-. congruence.
    + apply lookup_insert_eq.
  - intros r record t [[_ Hr]|[_ <-]]%lookup_snoc_Some Ht.
    + destruct (inv_waiting s Hs _ _ _ Hr Ht) as [id' Hid'].
      exists id'. by apply lookup_app_l_Some.
    + simpl in Ht. by apply elem_of_nil in Ht.
  - intros r record [[_ Hr]|[_ <-]]%lookup_snoc_Some.
    + by apply (inv_sorted s Hs r).
    + constructor.
  - intros t id' r record [[_ Ht]|[-> [= <- <-]]]%lookup_snoc_Some Hr Hc Hq.
    + pose proof (inv_submitted s Hs _ _ _ Ht) as Hlt.
      rewrite lookup_app_l in Hr by done.
      destruct (inv_done s Hs _ _ _ _ Ht Hr Hc Hq) as [?|[?|?]]; auto.
      right. right. by apply elem_of_cons; right.
    + rewrite (list_lookup_middle (heap s) [] _ (length (heap s)) eq_refl) in Hr.
      injection Hr as <-. auto.
  - intros t state [[= -> _]|Ht]%elem_of_cons; rewrite length_app; simpl; [lia|].
    pose proof (inv_trace s Hs _ _ Ht). lia.
  - intros newer older t1 t2 state id1 id2 r Htr Hlt H1 H2.
    apply cons_split in Htr as [(-> & [= <- <-] & <-)|(newer' & -> & Htr)].
    + apply lookup_snoc_Some in H1 as [[_ H1]|[-> _]]; [|lia].
      rewrite (list_lookup_middle (submitted s) [] _ (length (submitted s)) eq_refl) in H2.
      injection H2 as <- <-.
      pose proof (inv_submitted s Hs _ _ _ H1). lia.
    + assert (Ht2 : (t2 < length (submitted s))%nat).
      { apply (inv_trace s Hs t2 state). rewrite Htr.
        apply elem_of_app. right. by left. }
      rewrite lookup_app_l in H1, H2 by lia.
      by apply (inv_order s Hs _ _ _ _ _ _ _ _ Htr Hlt H1 H2).
  - intros t1 t2 id' r1 r2 record Hlt H1 H2 Hr Hc.
    apply lookup_snoc_Some in H1 as [[Hlt1 H1]|[-> _]];
      [|apply lookup_lt_Some in H2; rewrite length_app in H2; simpl in H2; lia].
    pose proof (inv_submitted s Hs _ _ _ H1) as Hr1.
    rewrite lookup_app_l in Hr by done.
    apply lookup_snoc_Some in H2 as [[_ H2]|[_ [= <- <-]]].
    + by apply (inv_same s Hs _ _ _ _ _ _ Hlt H1 H2 Hr Hc).
    + pose proof (inv_live s Hs _ _ _ _ H1 Hr Hc). congruence.
Qed.

Lemma lookup_alter_inv {A : Type} (f : A -> A) (l : list A) (i j : nat) (y : A) :
  alter f i l !! j = Some y ->
  (i = j /\ exists x, l !! j = Some x /\ y = f x) \/ (i <> j /\ l !! j = Some y).
Proof.
  destruct (decide (i = j)) as [->|Hne].
  - rewrite list_lookup_alter_eq. destruct (l !! j) as [x|]; [|done].
    intros [= <-]. left. eauto.
  - rewrite list_lookup_alter_ne by done. auto.
Qed.

Lemma invariant_enqueue_old id r0 s :
  outputs s !! id = Some r0 -> invariant s -> invariant (enqueue id s).
Proof.
  intros Hid Hs. unfold enqueue. rewrite Hid.
  split; simpl.
  - intros t id' r [[_ Ht]|[_ [= <- <-]]]%lookup_snoc_Some; rewrite length_alter.
    + by apply (inv_submitted s Hs _ _ _ Ht).
    + by apply (inv_outputs s Hs _ _ Hid).
  - intros id' r Hr. rewrite length_alter. by apply (inv_outputs s Hs _ _ Hr).
  - intros t id' r record [[_ Ht]|[_ [= <- <-]]]%lookup_snoc_Some Hr Hc; [|done].
    apply lookup_alter_inv in Hr as [[<- (x & Hx & ->)]|[_ Hr]].
    + by apply (inv_live s Hs _ _ _ _ Ht Hx).
    + by apply (inv_live s Hs _ _ _ _ Ht Hr).
  - intros r record t Hr Ht.
    apply lookup_alter_inv in Hr as [[<- (x & Hx & ->)]|[_ Hr]].
    + simpl in Ht. apply elem_of_app in Ht as [Ht|Ht].
      * destruct (inv_waiting s Hs _ _ _ Hx Ht) as [id' Hid'].
        exists id'. by apply lookup_app_l_Some.
      * apply list_elem_of_singleton in Ht as ->. exists id.
        by apply list_lookup_middle.
    + destruct (inv_waiting s Hs _ _ _ Hr Ht) as [id' Hid'].
      exists id'. by apply lookup_app_l_Some.
  - intros r record Hr.
    apply lookup_alter_inv in Hr as [[<- (x & Hx & ->)]|[_ Hr]];
      [|by apply (inv_sorted s Hs r)].
    simpl. apply StronglySorted_app. split; [|split].
    + intros x1 x2 H1 ->%list_elem_of_singleton.
      destruct (inv_waiting s Hs _ _ _ Hx H1) as [id' Hid'].
      by apply lookup_lt_Some in Hid'.
    + by apply (inv_sorted s Hs r0).
    + repeat constructor.
  - intros t id' r record Ht Hr Hc Hq.
    apply lookup_snoc_Some in Ht as [[_ Ht]|[-> [= <- <-]]].
    + apply lookup_alter_inv in Hr as [[<- (x & Hx & ->)]|[_ Hr]].
      * destruct (inv_done s Hs _ _ _ _ Ht Hx Hc Hq) as [?|[?|?]]; auto.
        left. simpl. apply elem_of_app. by left.
      * by apply (inv_done s Hs _ _ _ _ Ht Hr).
    + apply lookup_alter_inv in Hr as [[_ (x & Hx & ->)]|[? _]]; [|done].
      left. simpl. apply elem_of_app. right. by left.
  - intros t state Ht. rewrite length_app. simpl.
    pose proof (inv_trace s Hs _ _ Ht). lia.
  - intros newer older t1 t2 state id1 id2 r Htr Hlt H1 H2.
    assert (Ht2 : (t2 < length (submitted s))%nat).
    { apply (inv_trace s Hs t2 state). rewrite Htr.
      apply elem_of_app. right. by left. }
    rewrite lookup_app_l in H1, H2 by lia.
    by apply (inv_order s Hs _ _ _ _ _ _ _ _ Htr Hlt H1 H2).
  - intros t1 t2 id' r1 r2 record Hlt H1 H2 Hr Hc.
    apply lookup_snoc_Some in H1 as [[Hlt1 H1]|[-> _]];
      [|apply lookup_lt_Some in H2; rewrite length_app in H2; simpl in H2; lia].
    assert (Hold : exists x, heap s !! r1 = Some x /\ cancelled x = false).
    { apply lookup_alter_inv in Hr as [[<- (x & Hx & ->)]|[_ Hr]]; eauto. }
    destruct Hold as (x & Hx & Hxc).
    apply lookup_snoc_Some in H2 as [[_ H2]|[_ [= <- <-]]].
    + by apply (inv_same s Hs _ _ _ _ _ _ Hlt H1 H2 Hx Hxc).
    + pose proof (inv_live s Hs _ _ _ _ H1 Hx Hxc). congruence.
Qed.

Lemma invariant_enqueue id s : invariant s -> invariant (enqueue id s).
Proof.
  destruct (outputs s !! id) as [r0|] eqn:Hid.
  - by apply (invariant_enqueue_old id r0).
  - by apply invariant_enqueue_new.
Qed.

Lemma invariant_cancels s m' h' :
  invariant s -> cancels (heap s) h' ->
  (forall id r, m' !! id = Some r -> outputs s !! id = Some r) ->
  (forall id r y, outputs s !! id = Some r -> h' !! r = Some y ->
                  cancelled y = false -> m' !! id = Some r) ->
  invariant {| outputs := m'; heap := h'; submitted := submitted s; trace := trace s |}.
Proof.
  intros Hs [Hlen Hh] Hsub Hkeep. split; simpl.
  - intros t id r Ht. rewrite Hlen. by apply (inv_submitted s Hs _ _ _ Ht).
  - intros id r Hr. rewrite Hlen. by apply (inv_outputs s Hs id), Hsub.
  - intros t id r y Ht Hr Hc.
    destruct (Hh r y Hr) as (x & Hx & _ & _ & Hxc).
    apply (Hkeep id r y); [|done..].
    by apply (inv_live s Hs _ _ _ _ Ht Hx), Hxc.
  - intros r y t Hr Ht. destruct (Hh r y Hr) as (x & Hx & Hw & _).
    rewrite Hw in Ht. by apply (inv_waiting s Hs _ _ _ Hx Ht).
  - intros r y Hr. destruct (Hh r y Hr) as (x & Hx & Hw & _).
    rewrite Hw. by apply (inv_sorted s Hs r).
  - intros t id r y Ht Hr Hc Hq.
    destruct (Hh r y Hr) as (x & Hx & Hw & Hqx & Hxc).
    rewrite Hw, Hqx in *. by apply (inv_done s Hs _ _ _ _ Ht Hx); auto.
  - apply (inv_trace s Hs).
  - apply (inv_order s Hs).
  - intros t1 t2 id r1 r2 y Hlt H1 H2 Hr Hc.
    destruct (Hh r1 y Hr) as (x & Hx & _ & _ & Hxc).
    by apply (inv_same s Hs _ _ _ _ _ _ Hlt H1 H2 Hx), Hxc.
Qed.

Lemma cancels_alter h r : cancels h (alter cancel r h).
Proof.
  split; [apply length_alter|]. intros i y Hy.
  apply lookup_alter_inv in Hy as [[<- (x & Hx & ->)]|[_ Hy]].
  - exists x. by repeat split.
  - exists y. by repeat split.
Qed.

Lemma cancels_trans h1 h2 h3 : cancels h1 h2 -> cancels h2 h3 -> cancels h1 h3.
Proof.
  intros [Hl12 H12] [Hl23 H23]. split; [congruence|]. intros i z Hz.
  destruct (H23 i z Hz) as (y & Hy & Hw & Hq & Hc).
  destruct (H12 i y Hy) as (x & Hx & Hw' & Hq' & Hc').
  exists x. repeat split; try congruence. auto.
Qed.

Lemma cancels_refl h : cancels h h.
Proof. split; [done|]. intros i y Hy. exists y. by repeat split. Qed.

Lemma cancels_foldr (h : list OutputRecord) (rs : list nat) :
  cancels h (foldr (fun r h => alter cancel r h) h rs).
Proof.
  induction rs as [|r rs IH]; simpl; [apply cancels_refl|].
  eapply cancels_trans; [exact IH|apply cancels_alter].
Qed.

Lemma cancelled_foldr (h : list OutputRecord) (rs : list nat) (r : nat) y :
  r ∈ rs -> foldr (fun r h => alter cancel r h) h rs !! r = Some y ->
  cancelled y = true.
Proof.
  induction rs as [|r' rs IH]; simpl; intros Hin Hy; [by apply elem_of_nil in Hin|].
  apply lookup_alter_inv in Hy as [[-> (x & Hx & ->)]|[Hne Hy]]; [done|].
  apply elem_of_cons in Hin as [->|Hin]; [done|]. by apply IH.
Qed.

Lemma invariant_cancelOutput id s : invariant s -> invariant (cancelOutput id s).
Proof.
  intros Hs. unfold cancelOutput.
  destruct (outputs s !! id) as [r0|] eqn:Hid; [|done].
  apply invariant_cancels; [done|apply cancels_alter|..].
  - intros id' r Hr. apply lookup_delete_Some in Hr. tauto.
  - intros id' r y Hr Hy Hc.
    apply lookup_alter_inv in Hy as [[<- (x & Hx & ->)]|[Hne Hy]]; [done|].
    apply lookup_delete_Some. split; [|done]. intros <-. congruence.
Qed.

Lemma invariant_cancelAll s : invariant s -> invariant (cancelAll s).
Proof.
  intros Hs. unfold cancelAll.
  apply invariant_cancels; [done|apply cancels_foldr|..].
  - intros id r Hr. by rewrite lookup_empty in Hr.
  - intros id r y Hr Hy Hc.
    assert (Hin : r ∈ map snd (map_to_list (outputs s))).
    { apply list_elem_of_fmap. exists (id, r). split; [done|].
      by apply elem_of_map_to_list. }
    by rewrite (cancelled_foldr _ _ _ _ Hin Hy) in Hc.
Qed.

Lemma invariant_settle t ok s : invariant s -> invariant (settle t ok s).
Proof.
  intros Hs. unfold settle.
  destruct (submitted s !! t) as [[id0 r0]|] eqn:Ht0; [|done].
  destruct (heap s !! r0) as [rec0|] eqn:Hr0; [|done]. simpl.
  destruct (queue rec0) as [t'| |] eqn:Hq0; try done.
  destruct (decide (t' = t)) as [->|]; [|done].
  set (e := if ok then Completed t else Failed t).
  assert (He : forall u st, e <> Started u st) by (intros; unfold e; by destruct ok).
  split; simpl.
  - intros u id r Hu. rewrite length_alter. by apply (inv_submitted s Hs _ _ _ Hu).
  - intros id r Hr. rewrite length_alter. by apply (inv_outputs s Hs _ _ Hr).
  - intros u id r y Hu Hy Hc.
    apply lookup_alter_inv in Hy as [[<- (x & Hx & ->)]|[_ Hy]].
    + by apply (inv_live s Hs _ _ _ _ Hu Hx).
    + by apply (inv_live s Hs _ _ _ _ Hu Hy).
  - intros r y u Hy Hu.
    apply lookup_alter_inv in Hy as [[<- (x & Hx & ->)]|[_ Hy]].
    + by apply (inv_waiting s Hs _ _ _ Hx Hu).
    + by apply (inv_waiting s Hs _ _ _ Hy Hu).
  - intros r y Hy.
    apply lookup_alter_inv in Hy as [[<- (x & Hx & ->)]|[_ Hy]].
    + simpl. by apply (inv_sorted s Hs r0).
    + by apply (inv_sorted s Hs r).
  - intros u id r y Hu Hy Hc Hq.
    apply lookup_alter_inv in Hy as [[<- (x & Hx & ->)]|[_ Hy]].
    + rewrite Hr0 in Hx. injection Hx as <-. simpl in *.
      destruct ok; [|done].
      destruct (inv_done s Hs _ _ _ _ Hu Hr0 Hc) as [?|[Hrun|?]]; auto.
      * by rewrite Hq0.
      * rewrite Hq0 in Hrun. injection Hrun as ->.
        right. right. by left.
      * right. right. by right.
    + destruct (inv_done s Hs _ _ _ _ Hu Hy Hc Hq) as [?|[?|?]]; auto.
      right. right. by right.
  - intros u st [Hu|Hu]%elem_of_cons; [by destruct (He u st)|].
    by apply (inv_trace s Hs _ _ Hu).
  - intros newer older t1 t2 st id1 id2 r Htr Hlt H1 H2.
    apply cons_split in Htr as [(_ & Heq & _)|(newer' & -> & Htr)];
      [by destruct (He t2 st)|].
    by apply (inv_order s Hs _ _ _ _ _ _ _ _ Htr Hlt H1 H2).
  - intros t1 t2 id r1 r2 y Hlt H1 H2 Hy Hc.
    apply lookup_alter_inv in Hy as [[<- (x & Hx & ->)]|[_ Hy]].
    + by apply (inv_same s Hs _ _ _ _ _ _ Hlt H1 H2 Hx).
    + by apply (inv_same s Hs _ _ _ _ _ _ Hlt H1 H2 Hy).
Qed.

Lemma lookup_insert_inv {A : Type} (l : list A) (i j : nat) (x y : A) :
  <[i := x]> l !! j = Some y -> (i = j /\ y = x) \/ (i <> j /\ l !! j = Some y).
Proof. intros [(-> & -> & _)|[? ?]]%list_lookup_insert_Some; auto. Qed.

Lemma invariant_continue r0 s : invariant s -> invariant (continue r0 s).
Proof.
  intros Hs. unfold continue.
  destruct (heap s !! r0) as [[c q w]|] eqn:Hr0; [|done].
  destruct q; try done. destruct w as [|t0 rest]; [done|].
  pose proof (inv_sorted s Hs _ _ Hr0) as Hsorted. simpl in Hsorted.
  apply StronglySorted_inv in Hsorted as [Hrest Ht0].
  destruct (inv_waiting s Hs _ _ t0 Hr0) as [id0 Hid0]; [by left|].
  destruct c.
  - split; simpl.
    + intros u id r Hu. rewrite length_insert. by apply (inv_submitted s Hs _ _ _ Hu).
    + intros id r Hr. rewrite length_insert. by apply (inv_outputs s Hs _ _ Hr).
    + intros u id r y Hu Hy Hc.
      apply lookup_insert_inv in Hy as [[<- ->]|[_ Hy]]; [done|].
      by apply (inv_live s Hs _ _ _ _ Hu Hy).
    + intros r y u Hy Hu.
      apply lookup_insert_inv in Hy as [[<- ->]|[_ Hy]].
      * apply (inv_waiting s Hs _ _ _ Hr0). by right.
      * by apply (inv_waiting s Hs _ _ _ Hy Hu).
    + intros r y Hy.
      apply lookup_insert_inv in Hy as [[<- ->]|[_ Hy]]; [done|].
      by apply (inv_sorted s Hs r).
    + intros u id r y Hu Hy Hc Hq.
      apply lookup_insert_inv in Hy as [[<- ->]|[_ Hy]]; [done|].
      destruct (inv_done s Hs _ _ _ _ Hu Hy Hc Hq) as [?|[?|?]]; auto.
      right. right. by right.
    + intros u st [Hu|Hu]%elem_of_cons; [done|].
      by apply (inv_trace s Hs _ _ Hu).
    + intros newer older t1 t2 st id1 id2 r Htr Hlt H1 H2.
      apply cons_split in Htr as [(_ & Heq & _)|(newer' & -> & Htr)]; [done|].
      by apply (inv_order s Hs _ _ _ _ _ _ _ _ Htr Hlt H1 H2).
    + intros t1 t2 id r1 r2 y Hlt H1 H2 Hy Hc.
      apply lookup_insert_inv in Hy as [[<- ->]|[_ Hy]]; [done|].
      by apply (inv_same s Hs _ _ _ _ _ _ Hlt H1 H2 Hy).
  - split; simpl.
    + intros u id r Hu. rewrite length_insert. by apply (inv_submitted s Hs _ _ _ Hu).
    + intros id r Hr. rewrite length_insert. by apply (inv_outputs s Hs _ _ Hr).
    + intros u id r y Hu Hy Hc.
      apply lookup_insert_inv in Hy as [[<- ->]|[_ Hy]].
      * by apply (inv_live s Hs _ _ _ _ Hu Hr0).
      * by apply (inv_live s Hs _ _ _ _ Hu Hy).
    + intros r y u Hy Hu.
      apply lookup_insert_inv in Hy as [[<- ->]|[_ Hy]].
      * apply (inv_waiting s Hs _ _ _ Hr0). by right.
      * by apply (inv_waiting s Hs _ _ _ Hy Hu).
    + intros r y Hy.
      apply lookup_insert_inv in Hy as [[<- ->]|[_ Hy]]; [done|].
      by apply (inv_sorted s Hs r).
    + intros u id r y Hu Hy Hc Hq.
      apply lookup_insert_inv in Hy as [[<- ->]|[_ Hy]].
      * destruct (inv_done s Hs _ _ _ _ Hu Hr0) as [Hw|[?|?]]; try done.
        -- apply elem_of_cons in Hw as [->|Hw]; auto.
        -- right. right. by right.
      * destruct (inv_done s Hs _ _ _ _ Hu Hy Hc Hq) as [?|[?|?]]; auto.
        right. right. by right.
    + intros u st [[= -> _]|Hu]%elem_of_cons.
      * by apply lookup_lt_Some in Hid0.
      * by apply (inv_trace s Hs _ _ Hu).
    + intros newer older t1 t2 st id1 id2 r Htr Hlt H1 H2.
      apply cons_split in Htr as [(_ & [= <- _] & <-)|(newer' & -> & Htr)].
      * rewrite Hid0 in H2. injection H2 as <- <-.
        destruct (inv_done s Hs _ _ _ _ H1 Hr0) as [Hw|[?|?]]; try done.
        apply elem_of_cons in Hw as [->|Hw]; [lia|].
        rewrite List.Forall_forall in Ht0.
        apply list_elem_of_In, Ht0 in Hw. lia.
      * by apply (inv_order s Hs _ _ _ _ _ _ _ _ Htr Hlt H1 H2).
    + intros t1 t2 id r1 r2 y Hlt H1 H2 Hy Hc.
      apply lookup_insert_inv in Hy as [[<- ->]|[_ Hy]].
      * by apply (inv_same s Hs _ _ _ _ _ _ Hlt H1 H2 Hr0).
      * by apply (inv_same s Hs _ _ _ _ _ _ Hlt H1 H2 Hy).
Qed.

Lemma invariant_step s e : invariant s -> invariant (step s e).
Proof.
  destruct e; simpl.
  - apply invariant_enqueue.
  - apply invariant_cancelAll.
  - apply invariant_cancelOutput.
  - apply invariant_settle.
  - apply invariant_settle.
  - apply invariant_continue.
Qed.

Lemma invariant_from s events : invariant s -> invariant (fold_left step events s).
Proof.
  revert s. induction events as [|e events IH]; simpl; intros s Hs; [done|].
  by apply IH, invariant_step.
Qed.

Lemma invariant_run events : invariant (run events).
Proof. apply invariant_from, invariant_no_outputs. Qed.

(** C1. Of two actions enqueued for one output id, the later starts only
    after the earlier has completed, provided the earlier has not been
    cancelled: in every state the queue reaches in which the later action
    has started and the record of the earlier is not cancelled, the
    completion of the earlier precedes the start of the later. *)
Theorem enqueue_in_order events id t1 t2 :
  (t1 < t2)%nat ->
  enqueued_for (run events) t1 id -> enqueued_for (run events) t2 id ->
  not_cancelled (run events) t1 ->
  started (run events) t2 ->
  completed_before (run events) t1 t2.
Proof.
  intros Hlt [r1 H1] [r2 H2] (id' & r & record & Ht & Hr & Hc) [state Hst].
  pose proof (invariant_run events) as Hs.
  rewrite H1 in Ht. injection Ht as <- <-.
  assert (r1 = r2) as <- by (by apply (inv_same _ Hs _ _ _ _ _ _ Hlt H1 H2 Hr)).
  apply list_elem_of_split in Hst as (newer & older & Htr).
  exists newer, state, older. split; [done|].
  by apply (inv_order _ Hs _ _ _ _ _ _ _ _ Htr Hlt H1 H2).
Qed.

(** Three facts about one step: tickets keep their record, a cancelled
    record stays cancelled, and an action starts only as the first of a
    new record or from the chain of a record that is not cancelled. *)
Lemma step_submitted s e t x :
  submitted s !! t = Some x -> submitted (step s e) !! t = Some x.
Proof.
  intros Ht. destruct e as [id| |id|u|u|r]; simpl; try done.
  - unfold enqueue. destruct (outputs s !! id); simpl; by apply lookup_app_l_Some.
  - unfold cancelOutput. by destruct (outputs s !! id).
  - unfold settle. destruct (submitted s !! u) as [[? r]|]; [|done].
    destruct (queue <$> heap s !! r) as [[u'| |]|]; try done.
    by destruct (decide (u' = u)).
  - unfold settle. destruct (submitted s !! u) as [[? r]|]; [|done].
    destruct (queue <$> heap s !! r) as [[u'| |]|]; try done.
    by destruct (decide (u' = u)).
  - unfold continue. destruct (heap s !! r) as [[c [| |] [|? ?]]|]; try done.
    by destruct c.
Qed.

Lemma step_cancelled s e r record :
  heap s !! r = Some record -> cancelled record = true ->
  exists record', heap (step s e) !! r = Some record' /\ cancelled record' = true.
Proof.
  intros Hr Hc.
  assert (Halter : forall f i, (forall x, cancelled x = true -> cancelled (f x) = true) ->
            exists record', alter f i (heap s) !! r = Some record' /\
                            cancelled record' = true).
  { intros f i Hf. destruct (decide (i = r)) as [->|Hne].
    - rewrite list_lookup_alter_eq, Hr. simpl. eauto.
    - rewrite list_lookup_alter_ne by done. eauto. }
  destruct e as [id| |id|u|u|r0]; simpl.
  - unfold enqueue. destruct (outputs s !! id); simpl.
    + by apply Halter.
    + exists record. split; [by apply lookup_app_l_Some|done].
  - destruct (cancels_foldr (heap s) (map snd (map_to_list (outputs s))))
      as [Hlen Hh].
    destruct (lookup_lt_is_Some_2
                (foldr (fun r h => alter cancel r h) (heap s)
                       (map snd (map_to_list (outputs s)))) r) as [y Hy].
    { rewrite Hlen. by eapply lookup_lt_Some. }
    exists y. split; [done|].
    destruct (Hh r y Hy) as (x & Hx & _ & _ & Hxc).
    destruct (cancelled y); [done|]. rewrite Hr in Hx. injection Hx as <-.
    by rewrite Hxc in Hc.
  - unfold cancelOutput. destruct (outputs s !! id); simpl; [|eauto].
    by apply Halter.
  - unfold settle. destruct (submitted s !! u) as [[? r1]|]; [|eauto].
    destruct (queue <$> heap s !! r1) as [[u'| |]|]; eauto.
    destruct (decide (u' = u)); simpl; [|eauto]. by apply Halter.
  - unfold settle. destruct (submitted s !! u) as [[? r1]|]; [|eauto].
    destruct (queue <$> heap s !! r1) as [[u'| |]|]; eauto.
    destruct (decide (u' = u)); simpl; [|eauto]. by apply Halter.
  - unfold continue.
    destruct (heap s !! r0) as [[c [| |] [|t0 rest]]|] eqn:Hr0; eauto.
    destruct (decide (r0 = r)) as [->|Hne].
    + rewrite Hr in Hr0. injection Hr0 as ->. simpl in Hc. subst c. simpl.
      rewrite list_lookup_insert_eq by (by eapply lookup_lt_Some). eauto.
    + destruct c; simpl; rewrite list_lookup_insert_ne by done; eauto.
Qed.

Lemma step_started s e t state :
  Started t state ∈ trace (step s e) ->
  Started t state ∈ trace s \/ t = length (submitted s) \/
  exists r record, heap s !! r = Some record /\ cancelled record = false /\
                   t ∈ waiting record.
Proof.
  destruct e as [id| |id|u|u|r]; simpl; auto.
  - unfold enqueue. destruct (outputs s !! id); simpl; auto.
    intros [[= -> _]|?]%elem_of_cons; auto.
  - unfold cancelOutput. destruct (outputs s !! id); auto.
  - unfold settle. destruct (submitted s !! u) as [[? r]|]; auto.
    destruct (queue <$> heap s !! r) as [[u'| |]|]; auto.
    destruct (decide (u' = u)); simpl; auto.
    intros [?|?]%elem_of_cons; auto. done.
  - unfold settle. destruct (submitted s !! u) as [[? r]|]; auto.
    destruct (queue <$> heap s !! r) as [[u'| |]|]; auto.
    destruct (decide (u' = u)); simpl; auto.
    intros [?|?]%elem_of_cons; auto. done.
  - unfold continue.
    destruct (heap s !! r) as [[c [| |] [|t0 rest]]|] eqn:Hr; auto.
    destruct c; simpl; intros [Heq|?]%elem_of_cons; auto; [done|].
    injection Heq as -> _. right. right. exists r. eexists.
    split; [done|]. split; [done|]. by left.
Qed.

Lemma skipped_step s e t :
  invariant s -> skipped_for_good s t -> skipped_for_good (step s e) t.
Proof.
  intros Hs [Hnot (id & r & record & Ht & Hr & Hc)]. split.
  - intros [state Hst].
    apply step_started in Hst as [Hst|[->|(r' & record' & Hr' & Hc' & Hw)]].
    + apply Hnot. by exists state.
    + apply lookup_lt_Some in Ht. lia.
    + destruct (inv_waiting s Hs _ _ _ Hr' Hw) as [id' Ht'].
      rewrite Ht in Ht'. injection Ht' as <- <-. congruence.
  - destruct (step_cancelled s e r record Hr Hc) as (record' & Hr' & Hc').
    exists id, r, record'. split; [by apply step_submitted|done].
Qed.

Lemma skipped_from s events t :
  invariant s -> skipped_for_good s t ->
  skipped_for_good (fold_left step events s) t.
Proof.
  revert s. induction events as [|e events IH]; simpl; intros s Hs Ht; [done|].
  apply IH; [by apply invariant_step|by apply skipped_step].
Qed.

(** An action that has not started when its output is cancelled waits on
    a cancelled record from then on. *)
Lemma skipped_cancel s e t id :
  invariant s -> enqueued_for s t id -> ~ started s t ->
  e = CancelOutput id \/ e = CancelAll ->
  skipped_for_good (step s e) t.
Proof.
  intros Hs [r Ht] Hnot He. split.
  - intros [state Hst]. apply Hnot. exists state.
    destruct He as [->| ->]; simpl in Hst; [|done].
    unfold cancelOutput in Hst. by destruct (outputs s !! id).
  - destruct (lookup_lt_is_Some_2 (heap s) r (inv_submitted s Hs _ _ _ Ht))
      as [record Hr].
    destruct (cancelled record) eqn:Hc.
    { destruct (step_cancelled s e r record Hr Hc) as (record' & Hr' & Hc').
      exists id, r, record'. split; [by apply step_submitted|done]. }
    pose proof (inv_live s Hs _ _ _ _ Ht Hr Hc) as Hlive.
    exists id, r, (cancel record). destruct He as [->| ->]; simpl.
    + unfold cancelOutput. rewrite Hlive. simpl.
      by rewrite list_lookup_alter_eq, Hr.
    + split; [done|]. split; [|done].
      destruct (cancels_foldr (heap s) (map snd (map_to_list (outputs s))))
        as [Hlen Hh].
      destruct (lookup_lt_is_Some_2
                  (foldr (fun r h => alter cancel r h) (heap s)
                         (map snd (map_to_list (outputs s)))) r) as [y Hy].
      { rewrite Hlen. by eapply lookup_lt_Some. }
      rewrite Hy. f_equal.
      assert (Hin : r ∈ map snd (map_to_list (outputs s))).
      { apply list_elem_of_fmap. exists (id, r). split; [done|].
        by apply elem_of_map_to_list. }
      pose proof (cancelled_foldr _ _ _ _ Hin Hy) as Hyc.
      destruct (Hh r y Hy) as (x & Hx & Hw & Hq & _).
      rewrite Hr in Hx. injection Hx as <-.
      destruct y as [c q w]. simpl in *. by subst.
Qed.

(** C2. After [cancelOutput(id)], and after [cancelAll()] for every id,
    an action enqueued for that id that has not started yet never starts,
    whatever happens afterwards. *)
Theorem cancelled_never_starts before cancellation after id t :
  enqueued_for (run before) t id ->
  ~ started (run before) t ->
  cancellation = CancelOutput id \/ cancellation = CancelAll ->
  ~ started (run (List.app before (cancellation :: after))) t.
Proof.
  intros Ht Hnot Hc. unfold run. rewrite fold_left_app. simpl.
  apply (skipped_from _ after t).
  - apply invariant_step, invariant_run.
  - by apply (skipped_cancel _ _ _ id); [apply invariant_run|..].
Qed.

End WebviewPreloadsFacts.

Section WebviewPreloadsExamples.
Import WebviewPreloads.

Lemma enqueue_in_order_witness :
  completed_before
    (run [Enqueue "output-1"; Enqueue "output-1"; Complete 0; Continue 0]) 0 1.
Proof.
  apply (enqueue_in_order _ "output-1").
  - lia.
  - exists 0%nat. reflexivity.
  - exists 0%nat. reflexivity.
  - exists "output-1", 0%nat, {| cancelled := false; queue := Running 1; waiting := [] |}.
    repeat split; reflexivity.
  - exists (RecordState 0). vm_compute. left.
Defined.

(** After a cancellation the output id gets a new record, whose first
    action starts at once, while the first action of the cancelled record
    may still be running: it was handed a state object of its own and is
    cancelled only in that its record is. *)
Lemma restart_after_cancel :
  trace (run [Enqueue "output-1"; CancelOutput "output-1"; Enqueue "output-1"])
  = [Started 1 FreshState; Started 0 FreshState] /\
  cancelled <$> heap (run [Enqueue "output-1"; CancelOutput "output-1";
                           Enqueue "output-1"]) !! 0%nat = Some true.
Proof. split; reflexivity. Qed.

Lemma cancelled_never_starts_witness :
  ~ started
      (run (List.app [Enqueue "output-1"; Enqueue "output-1"]
              (CancelOutput "output-1" :: [Complete 0; Continue 0]))) 1.
Proof.
  apply (cancelled_never_starts _ _ _ "output-1").
  - exists 0%nat. reflexivity.
  - intros [state Hst]. vm_compute in Hst.
    apply elem_of_cons in Hst as [Hst|Hst]; [done|].
    by apply elem_of_nil in Hst.
  - by left.
Defined.

End WebviewPreloadsExamples.

(** ** The ['html'] action *)

Section HtmlActionFacts.
Import WebviewPreloads.

Lemma existsb_nonempty_filter {A : Type} (p : A -> bool) (l : list A) :
  existsb p l = match List.filter p l with [] => false | _ :: _ => true end.
Proof.
  induction l as [|x l IH]; [done|]. simpl. by destruct (p x).
Qed.

Lemma error_message_caught p :
  map message_of (List.filter is_error [caught (Some p)]) = error_message p.
Proof. by destruct p as [[| | |]|[| | |]]. Qed.

(** The errors the action filters out of [preloadsAndErrors] are those
    that loading yields. *)
Lemma loading_errors_filtered env data :
  map message_of (List.filter is_error (preloadsAndErrors env data))
  = loading_errors env data.
Proof.
  unfold preloadsAndErrors, loading_errors.
  set (r := match rendererId data with
            | Some id => if truthy id then Some (renderers_load env id) else None
            | None => None
            end).
  change (map caught (r :: map (fun uri => Some (waitFor env uri)) (requiredPreloads data)))
    with (List.app [caught r]
            (map caught (map (fun uri => Some (waitFor env uri)) (requiredPreloads data)))).
  rewrite List.filter_app, map_app. f_equal.
  - subst r. destruct (rendererId data) as [id|]; [|done].
    destruct (truthy id); [|done]. apply error_message_caught.
  - induction (requiredPreloads data) as [|uri l IH]; [done|].
    simpl flat_map. rewrite <- IH.
    change (map caught (map (fun uri => Some (waitFor env uri)) (uri :: l)))
      with (List.app [caught (Some (waitFor env uri))]
              (map caught (map (fun uri => Some (waitFor env uri)) l))).
    rewrite List.filter_app, map_app. f_equal.
    unfold waitFor. destruct (preloads env !! uri) as [p|]; [|done].
    apply error_message_caught.
Qed.

Lemma loading_errors_some env data :
  existsb is_error (preloadsAndErrors env data) = true <-> loading_errors env data <> [].
Proof.
  rewrite <- loading_errors_filtered, existsb_nonempty_filter.
  by destruct (List.filter is_error (preloadsAndErrors env data)).
Qed.

(** With an API loaded and no loading error, the action ends as the call
    of [renderCell] makes it. *)
Lemma html_completion_renderCell env data mimeType id api :
  content data = Extension mimeType ->
  loading_errors env data = [] ->
  rendererId data = Some id -> truthy id = true ->
  renderers_load env id = Resolves (ApiObject api) ->
  html_completion env data false
  = match renderCell api (outputId data) mimeType with
    | Returns children => NodeAdded children
    | Throws _ e =>
        match e with
        | ThrownUndefined | ThrownNull => ActionThrows
        | _ => NodeAdded (showPreloadErrors [thrown_message e])
        end
    end.
Proof.
  intros Hcontent Hnone Hid Htruthy Hload. unfold html_completion.
  rewrite Hcontent.
  destruct (existsb is_error (preloadsAndErrors env data)) eqn:Hex.
  { by apply loading_errors_some in Hex. }
  unfold preloadsAndErrors. by rewrite Hid, Htruthy, Hload.
Qed.

(** C8 (amended). When the action of an ['html'] message is not cancelled
    and the content is not of type Html: if loading the renderer or a
    required preload yields an [Error], the action adds the output node
    with ['Error loading preloads:'] followed by one list item per error
    message; otherwise, if the renderer has loaded to an API whose
    [renderCell] throws a value other than [undefined] and [null], it adds
    the node with the same heading and the [message] of the thrown value
    as the one item.  The action returns in both cases. *)
Theorem html_action_shows_errors env data mimeType :
  content data = Extension mimeType ->
  (loading_errors env data <> [] ->
   html_completion env data false
   = NodeAdded (showPreloadErrors (loading_errors env data))) /\
  (forall id api children thrown,
     loading_errors env data = [] ->
     rendererId data = Some id -> truthy id = true ->
     renderers_load env id = Resolves (ApiObject api) ->
     renderCell api (outputId data) mimeType = Throws children thrown ->
     thrown <> ThrownUndefined -> thrown <> ThrownNull ->
     html_completion env data false
     = NodeAdded (showPreloadErrors [thrown_message thrown])).
Proof.
  intros Hcontent. split.
  - intros Hsome. unfold html_completion. rewrite Hcontent.
    rewrite (proj2 (loading_errors_some env data) Hsome).
    by rewrite loading_errors_filtered.
  - intros id api children thrown Hnone Hid Htruthy Hload Hthrow Hu Hn.
    rewrite (html_completion_renderCell env data mimeType id api) by done.
    rewrite Hthrow. by destruct thrown.
Qed.

(** A cancelled action returns before it adds an output node. *)
Lemma html_action_cancelled env data :
  html_completion env data true = ReturnsEarly /\ html_action env data true = None.
Proof. done. Qed.

(** When [renderCell] throws [undefined] or [null], the action throws in
    turn and adds no output node. *)
Lemma html_action_rethrows env data mimeType id api children thrown :
  content data = Extension mimeType ->
  loading_errors env data = [] ->
  rendererId data = Some id -> truthy id = true ->
  renderers_load env id = Resolves (ApiObject api) ->
  renderCell api (outputId data) mimeType = Throws children thrown ->
  thrown = ThrownUndefined \/ thrown = ThrownNull ->
  html_completion env data false = ActionThrows /\ html_action env data false = None.
Proof.
  intros Hcontent Hnone Hid Htruthy Hload Hthrow Hthrown.
  assert (Hc : html_completion env data false = ActionThrows).
  { rewrite (html_completion_renderCell env data mimeType id api) by done.
    rewrite Hthrow. by destruct Hthrown as [-> | ->]. }
  split; [done|]. unfold html_action. by rewrite Hc.
Qed.

(** With no renderer named and no loading error, the call of [renderCell]
    on [undefined] throws a [TypeError], which is shown. *)
Lemma html_action_no_renderer env data mimeType :
  content data = Extension mimeType ->
  loading_errors env data = [] ->
  rendererId data = None ->
  html_completion env data false
  = NodeAdded (showPreloadErrors [Some (not_an_api env)]).
Proof.
  intros Hcontent Hnone Hid. unfold html_completion. rewrite Hcontent.
  destruct (existsb is_error (preloadsAndErrors env data)) eqn:Hex.
  { by apply loading_errors_some in Hex. }
  unfold preloadsAndErrors. by rewrite Hid.
Qed.

(** C8 as stated fails for HTML content: the preload the output requires
    yields an error, and the node shows the markup, not the error. *)
Lemma html_action_hides_errors :
  loading_errors no_loaders html_with_missing_preload
  = [Some "Preload not ready: https://example.org/preload.js"] /\
  html_completion no_loaders html_with_missing_preload false
  = NodeAdded [RawHtml "<b>42</b>"] /\
  html_completion no_loaders html_with_missing_preload false
  <> NodeAdded (showPreloadErrors (loading_errors no_loaders html_with_missing_preload)).
Proof. split; [reflexivity|]. split; [reflexivity|]. discriminate. Qed.

Lemma html_action_shows_errors_witness :
  content plot_output = Extension "application/vnd.plot" /\
  html_completion no_loaders plot_output false
  = NodeAdded (showPreloadErrors [Some "Could not find renderer"]) /\
  html_completion (failing_renderer (ThrownError "Cannot draw")) plot_with_preload false
  = NodeAdded (showPreloadErrors [Some "Cannot draw"]) /\
  html_completion (failing_renderer (ThrownOther None)) plot_with_preload false
  = NodeAdded (showPreloadErrors [None]).
Proof.
  split; [reflexivity|]. split; [|split].
  - apply (html_action_shows_errors no_loaders plot_output "application/vnd.plot" eq_refl).
    discriminate.
  - apply (proj2 (html_action_shows_errors (failing_renderer (ThrownError "Cannot draw"))
                    plot_with_preload "application/vnd.plot" eq_refl)
             "plot-renderer"
             {| renderCell := fun _ _ => Throws [TextNode "Loading"] (ThrownError "Cannot draw") |}
             [TextNode "Loading"] (ThrownError "Cannot draw"));
      (reflexivity || discriminate).
  - apply (proj2 (html_action_shows_errors (failing_renderer (ThrownOther None))
                    plot_with_preload "application/vnd.plot" eq_refl)
             "plot-renderer"
             {| renderCell := fun _ _ => Throws [TextNode "Loading"] (ThrownOther None) |}
             [TextNode "Loading"] (ThrownOther None));
      (reflexivity || discriminate).
Defined.

(** The same renderer throwing [null]: the action throws. *)
Lemma html_action_rethrows_null :
  html_completion (failing_renderer ThrownNull) plot_with_preload false = ActionThrows /\
  html_action (failing_renderer ThrownNull) plot_with_preload false = None.
Proof.
  apply (html_action_rethrows (failing_renderer ThrownNull) plot_with_preload
           "application/vnd.plot" "plot-renderer"
           {| renderCell := fun _ _ => Throws [TextNode "Loading"] ThrownNull |}
           [TextNode "Loading"] ThrownNull);
    try reflexivity. by right.
Qed.

End HtmlActionFacts.

(** * Further properties *)

(** ** Objects *)

Section JsObjectFacts.
Context {V : Type}.
Implicit Types (o : JsObject.t V) (key : string) (v : V).

Lemma get_has key o : JsObject.has key o = bool_decide (is_Some (JsObject.get key o)).
Proof.
  induction o as [|[k w] o IH]; simpl; [done|].
  destruct (String.eqb k key); [done|exact IH].
Qed.

Lemma get_overwrite key v o k :
  JsObject.has key o = true ->
  JsObject.get k (JsObject.overwrite key v o)
  = if String.eqb key k then Some v else JsObject.get k o.
Proof.
  induction o as [|[k' w] o IH]; simpl; [done|].
  destruct (String.eqb_spec k' key) as [Heq|Hne]; simpl; intros Hhas.
  - destruct (String.eqb_spec k' k), (String.eqb_spec key k); congruence.
  - rewrite (IH Hhas).
    destruct (String.eqb_spec k' k), (String.eqb_spec key k); congruence.
Qed.

Lemma get_insert_index n key v o k :
  JsObject.has key o = false ->
  JsObject.get k (JsObject.insert_index n key v o)
  = if String.eqb key k then Some v else JsObject.get k o.
Proof.
  induction o as [|[k' w] o IH]; simpl; [done|].
  destruct (String.eqb_spec k' key) as [Heq|Hne]; [done|]. simpl. intros Hhas.
  destruct (JsObject.array_index k') as [m|]; [|done].
  destruct (m <? n)%N; [|done]. simpl. rewrite (IH Hhas).
  destruct (String.eqb_spec k' k), (String.eqb_spec key k); congruence.
Qed.

Lemma get_app key o o' :
  JsObject.get key (List.app o o')
  = match JsObject.get key o with Some v => Some v | None => JsObject.get key o' end.
Proof.
  induction o as [|[k w] o IH]; simpl; [done|]. by destruct (String.eqb k key).
Qed.

(** Reading a key after writing one. *)
Lemma get_set key v o k :
  JsObject.get k (JsObject.set key v o)
  = if String.eqb key k then Some v else JsObject.get k o.
Proof.
  unfold JsObject.set. destruct (JsObject.has key o) eqn:Hhas.
  - by apply get_overwrite.
  - destruct (JsObject.array_index key) as [n|]; [by apply get_insert_index|].
    rewrite get_app. simpl.
    destruct (String.eqb_spec key k) as [->|Hk].
    + rewrite get_has in Hhas. apply bool_decide_eq_false in Hhas.
      destruct (JsObject.get k o); [|done]. destruct Hhas. by eexists.
    + by destruct (JsObject.get k o).
Qed.

Lemma get_In key v o : JsObject.get key o = Some v -> In (key, v) o.
Proof.
  induction o as [|[k w] o IH]; simpl; [done|].
  destruct (String.eqb_spec k key) as [->|Hne]; [intros [= ->]; by left|].
  intros Hv. right. by apply IH.
Qed.

Lemma In_get key v o : NoDup (map fst o) -> In (key, v) o -> JsObject.get key o = Some v.
Proof.
  induction o as [|[k w] o IH]; simpl; [done|].
  intros [Hk Hnd]%NoDup_cons [[= -> ->]|Hin].
  - by rewrite String.eqb_refl.
  - destruct (String.eqb_spec k key) as [->|Hne]; [|by apply IH].
    destruct Hk. apply list_elem_of_In. change key with (fst (key, v)).
    by apply in_map.
Qed.

End JsObjectFacts.

(** ** More of the editor override service *)

Section EditorOverrideMoreFacts.
Import EditorOverride EditorOverrideMore.
Context `{Platform}.

Lemma convert_fold (l : list OldAssociation) (o : JsObject.t string) p :
  JsObject.get p
    (fold_left (fun newSettingObject association =>
                  match old_filenamePattern association with
                  | Some pattern =>
                      if truthy pattern
                      then JsObject.set pattern (old_viewType association)
                             newSettingObject
                      else newSettingObject
                  | None => newSettingObject
                  end) l o)
  = if truthy p
    then match last_viewType p l with
         | Some v => Some v
         | None => JsObject.get p o
         end
    else JsObject.get p o.
Proof.
  revert o. induction l as [|a l IH]; intros o; simpl; [by destruct (truthy p)|].
  rewrite IH. destruct (truthy p) eqn:Hp.
  - destruct (last_viewType p l); [done|].
    destruct (old_filenamePattern a) as [q|] eqn:Hq.
    + destruct (decide (q = p)) as [->|Hne].
      * rewrite Hp, get_set, String.eqb_refl. by rewrite bool_decide_eq_true_2.
      * rewrite bool_decide_eq_false_2 by congruence.
        destruct (truthy q); [|done]. rewrite get_set.
        by rewrite (proj2 (String.eqb_neq q p)).
    + by rewrite bool_decide_eq_false_2.
  - destruct (old_filenamePattern a) as [q|]; [|done].
    destruct (truthy q) eqn:Hq; [|done]. rewrite get_set.
    destruct (String.eqb_spec q p) as [->|]; [congruence|done].
Qed.

(** X8. [convertOldAssociationFormat] writes, for a setting in the old
    array format, an object that maps every non-empty pattern to the view
    type of the last array entry for it and has no other key; an unset
    setting is written back as the empty object; a setting that is an
    object already is not written. *)
Theorem convertOldAssociationFormat_last_wins :
  (forall l, exists o,
     convertOldAssociationFormat (ArrayFormat l) = Some o /\
     forall p, JsObject.get p o = if truthy p then last_viewType p l else None) /\
  convertOldAssociationFormat Unset = Some JsObject.create /\
  (forall o, convertOldAssociationFormat (ObjectFormat o) = None).
Proof.
  split; [|done]. intros l. eexists. split; [reflexivity|].
  intros p. rewrite convert_fold. simpl.
  by destruct (truthy p), (last_viewType p l).
Qed.

Lemma update_fold (l : list EditorAssociation) (o : JsObject.t string) p :
  JsObject.get p
    (fold_left (fun newSettingObject association =>
                  if truthy (filenamePattern association)
                  then JsObject.set (filenamePattern association)
                         (viewType association) newSettingObject
                  else newSettingObject) l o)
  = if truthy p
    then match JsObject.get p
                 (rev (map (fun a => (filenamePattern a, viewType a)) l)) with
         | Some v => Some v
         | None => JsObject.get p o
         end
    else JsObject.get p o.
Proof.
  revert o. induction l as [|a l IH]; intros o; simpl; [by destruct (truthy p)|].
  rewrite IH, get_app. simpl. destruct (truthy p) eqn:Hp.
  - destruct (JsObject.get p (rev _)); [done|].
    destruct (String.eqb_spec (filenamePattern a) p) as [Heq|Hne].
    + by rewrite Heq, Hp, get_set, String.eqb_refl.
    + destruct (truthy (filenamePattern a)); [|done].
      by rewrite get_set, (proj2 (String.eqb_neq _ _) Hne).
  - destruct (truthy (filenamePattern a)) eqn:Hq; [|done]. rewrite get_set.
    destruct (String.eqb_spec (filenamePattern a) p) as [Heq|]; [congruence|done].
Qed.

Lemma get_rev {V : Type} (o : JsObject.t V) p :
  NoDup (map fst o) -> JsObject.get p (rev o) = JsObject.get p o.
Proof.
  intros Hnd. destruct (JsObject.get p o) as [v|] eqn:Hv.
  - apply In_get.
    + rewrite map_rev. by rewrite <- (Permutation_rev (map fst o)).
    + apply in_rev. rewrite rev_involutive. by apply get_In.
  - destruct (JsObject.get p (rev o)) as [w|] eqn:Hw; [|done].
    apply get_In, in_rev in Hw.
    apply (In_get _ _ _ Hnd) in Hw. congruence.
Qed.

(** X9. The object [updateUserAssociations] writes maps the glob pattern
    to the editor id and every other non-empty pattern to what the
    setting had for it; an empty pattern is not written. *)
Theorem updateUserAssociations_lookup globPattern editorID s :
  NoDup (map fst (associations s)) ->
  truthy globPattern = true ->
  JsObject.get globPattern (updateUserAssociations globPattern editorID s)
  = Some editorID /\
  forall p, p <> globPattern ->
    JsObject.get p (updateUserAssociations globPattern editorID s)
    = if truthy p then JsObject.get p (associations s) else None.
Proof.
  intros Hnd Hg. unfold updateUserAssociations. rewrite fold_left_app. simpl.
  rewrite Hg. split.
  - by rewrite get_set, String.eqb_refl.
  - intros p Hp. rewrite get_set.
    rewrite (proj2 (String.eqb_neq globPattern p)) by congruence.
    rewrite update_fold. unfold getAllUserAssociations. rewrite map_map. simpl.
    assert (Hid : map (fun x : string * string => (x.1, x.2)) (associations s)
                  = associations s).
    { clear. induction (associations s) as [|[a b] l IH]; simpl; by rewrite ?IH. }
    rewrite Hid, get_rev by done.
    by destruct (truthy p), (JsObject.get p (associations s)).
Qed.

Lemma set_add_In x y set : In x (set_add y set) <-> x = y \/ In x set.
Proof.
  unfold set_add. case_bool_decide as Hy.
  - apply list_elem_of_In in Hy. split; [auto|]. by intros [->|?].
  - rewrite in_app_iff. simpl. split.
    + intros [?|[<-|[]]]; auto.
    + intros [->|?]; auto.
Qed.

Lemma fold_set_add_In {A : Type} (cond : A -> bool) (text : A -> string)
    (l : list A) (acc : list string) x :
  In x (fold_left (fun set a => if cond a then set_add (text a) set else set) l acc)
  <-> In x acc \/ exists a, In a l /\ cond a = true /\ text a = x.
Proof.
  revert acc. induction l as [|a l IH]; intros acc; simpl.
  - split; [auto|]. by intros [?|(? & [] & _)].
  - rewrite IH. destruct (cond a) eqn:Ha.
    + rewrite set_add_In. split.
      * intros [[->|?]|(b & ? & ? & ?)]; eauto 10.
      * intros [?|(b & [<-|?] & ? & <-)]; eauto 10.
    + split.
      * intros [?|(b & ? & ? & ?)]; eauto 10.
      * intros [?|(b & [<-|?] & ? & ?)]; eauto 10. congruence.
Qed.

Lemma cacheContributionPoints_In s p :
  well_formed s = true ->
  In p (cacheContributionPoints s) <-> eager_pattern s p.
Proof.
  intros Hwf. pose proof (well_formed_keys s Hwf) as Hnd.
  unfold cacheContributionPoints, eager_pattern.
  rewrite (fold_set_add_In (fun a => truthy (filenamePattern a)) filenamePattern).
  rewrite (fold_set_add_In
             (fun key => bool_decide (is_Some (array_find nonOptional
                (default [] (map_get key (_contributionPoints s))))))
             pattern_text).
  simpl. split.
  - intros [[[]|(key & Hkey & Hc & <-)]|Ha]; [left|by right].
    rewrite array_find_existsb in Hc. apply existsb_exists in Hc as (c & Hc & Hn).
    apply in_map_iff in Hkey as ([k cps] & <- & Hk). simpl in *.
    rewrite (map_get_In _ _ _ Hnd Hk) in Hc. eauto 10.
  - intros [(key & cps & c & Hk & Hc & Hn & <-)|Ha]; [left; right|by right].
    exists key. split; [|split; [|done]].
    + change key with (fst (key, cps)). by apply in_map.
    + rewrite array_find_existsb, (map_get_In _ _ _ Hnd Hk). simpl.
      apply existsb_exists. eauto.
Qed.

(** X7. After a restart the service waits for the extensions exactly for
    the resources matched, as a string glob, by a pattern that had a
    contribution point neither optional nor the default editor, or by the
    pattern of a user association. *)
Theorem resourceMatchesCache_restarted s resource :
  well_formed s = true ->
  resourceMatchesCache (restarted s) resource = true <->
  exists p, eager_pattern s p /\ globMatchesResource (GlobString p) resource = true.
Proof.
  intros Hwf. unfold resourceMatchesCache, restarted. simpl.
  rewrite existsb_exists. split.
  - intros (p & Hp & Hm). exists p. split; [|done].
    by apply cacheContributionPoints_In.
  - intros (p & Hp & Hm). exists p. split; [|done].
    by apply cacheContributionPoints_In.
Qed.

Lemma map_set_In (m : list (GlobPattern * ContributionPoints)) key v k x :
  In (k, x) m -> k <> key -> In (k, x) (map_set key v m).
Proof.
  induction m as [|[k' w] m IH]; simpl; [done|]. intros [[= -> ->]|Hin] Hne.
  - rewrite decide_False by done. by left.
  - destruct (decide (k' = key)); right; auto.
Qed.

Lemma map_set_In_key (m : list (GlobPattern * ContributionPoints)) key v :
  In (key, v) (map_set key v m).
Proof.
  induction m as [|[k' w] m IH]; simpl; [by left|].
  destruct (decide (k' = key)) as [->|]; [by left|by right].
Qed.

(** The contribution points after a registration are the new one and
    those there were. *)
Lemma registerContributionPoint_all cp s c :
  well_formed s = true ->
  In c (_allContributions (registerContributionPoint cp s))
  <-> c = cp \/ In c (_allContributions s).
Proof.
  intros Hwf. pose proof (well_formed_keys s Hwf) as Hnd.
  unfold _allContributions, registerContributionPoint. simpl.
  set (key := globPattern cp).
  set (m := match map_get key (_contributionPoints s) with
            | Some _ => _contributionPoints s
            | None => map_set key [] (_contributionPoints s)
            end).
  assert (Hm : NoDup (map fst m) /\
               (forall c, In c (concat (map snd m))
                          <-> In c (concat (map snd (_contributionPoints s))))).
  { unfold m. destruct (map_get key (_contributionPoints s)) as [v|] eqn:Hv; [done|].
    destruct (map_set_spec (_contributionPoints s) key [] Hnd) as (H1 & _ & H3 & _).
    split; [done|]. intros c'. rewrite !in_concat. split.
    - intros (l & Hl & Hc). apply in_map_iff in Hl as ([k x] & <- & Hk).
      apply H3 in Hk as [[_ ->]|Hk]; [destruct Hc|].
      exists x. split; [|done]. exact (in_map snd _ _ Hk).
    - intros (l & Hl & Hc). apply in_map_iff in Hl as ([k x] & <- & Hk).
      exists x. split; [|done].
      assert (Hne : k <> key)
        by (intros ->; apply (map_get_In _ _ _ Hnd) in Hk; congruence).
      exact (in_map snd _ _ (map_set_In _ key [] _ _ Hk Hne)). }
  destruct Hm as [Hmnd Hmall]. rewrite <- Hmall.
  destruct (map_set_spec m key (List.app (default [] (map_get key m)) [cp]) Hmnd)
    as (_ & _ & H3 & _).
  rewrite !in_concat. split.
  - intros (l & Hl & Hc). apply in_map_iff in Hl as ([k x] & <- & Hk). simpl in Hc.
    apply H3 in Hk as [[-> ->]|Hk].
    + apply in_app_or in Hc as [Hc|[<-|[]]]; [|by left]. right.
      destruct (map_get key m) as [v|] eqn:Hv; [|destruct Hc].
      exists v. split; [|done].
      exact (in_map snd _ _ (map_get_Some_In _ _ _ Hv)).
    + right. exists x. split; [|done]. exact (in_map snd _ _ Hk).
  - intros [->|Hc].
    + exists (List.app (default [] (map_get key m)) [cp]). split.
      * apply in_map_iff. eexists (key, _). split; [done|]. apply map_set_In_key.
      * apply in_or_app. right. by left.
    + destruct Hc as (l & Hl & Hc).
      apply in_map_iff in Hl as ([k x] & <- & Hk). simpl in Hc.
      destruct (decide (k = key)) as [->|Hne].
      * exists (List.app (default [] (map_get key m)) [cp]). split.
        -- apply in_map_iff. eexists (key, _). split; [done|]. apply map_set_In_key.
        -- rewrite (map_get_In _ _ _ Hmnd Hk). simpl. apply in_or_app. by left.
      * exists x. split; [|done].
        exact (in_map snd _ _ (map_set_In _ key
                 (List.app (default [] (map_get key m)) [cp]) _ _ Hk Hne)).
Qed.

Lemma getEditorIds_In s resource i :
  well_formed s = true ->
  In i (getEditorIds s resource) <->
  exists c, In c (_allContributions s) /\ matches_resource s resource c = true /\
            id (editorInfo c) = i.
Proof.
  intros Hwf. unfold getEditorIds. rewrite in_map_iff.
  rewrite findMatchingContributions_unsorted by done. split.
  - intros (c & <- & Hc).
    apply (Permutation_in _ (array_sort_perm rank _)) in Hc.
    apply List.filter_In in Hc as [? ?]. eauto.
  - intros (c & Hc & Hm & <-). exists c. split; [done|].
    apply (Permutation_in _ (Permutation_sym (array_sort_perm rank _))).
    by apply List.filter_In.
Qed.

(** X1. Registering a contribution point makes its pattern known to
    [hasContributionPoint], lists its id among the editor ids of every
    resource its pattern matches, and removes no id from any resource. *)
Theorem registerContributionPoint_getEditorIds cp s resource :
  well_formed s = true ->
  (forall glob, globPattern cp = GlobString glob ->
     hasContributionPoint glob (registerContributionPoint cp s) = true) /\
  (globMatchesResource (globPattern cp) resource = true ->
     In (id (editorInfo cp)) (getEditorIds (registerContributionPoint cp s) resource)) /\
  (forall i, In i (getEditorIds s resource) ->
     In i (getEditorIds (registerContributionPoint cp s) resource)).
Proof.
  intros Hwf.
  pose proof (registerContributionPoint_well_formed cp s Hwf) as Hwf'.
  split; [|split].
  - intros glob Hg. unfold hasContributionPoint. apply bool_decide_eq_true.
    eexists. apply (map_get_In _ _ _ (well_formed_keys _ Hwf')).
    unfold registerContributionPoint. simpl. rewrite <- Hg. apply map_set_In_key.
  - intros Hm. apply getEditorIds_In; [done|]. exists cp.
    split; [apply registerContributionPoint_all; auto|].
    split; [|done]. unfold matches_resource. by rewrite Hm.
  - intros i Hi. apply getEditorIds_In in Hi as (c & Hc & Hm & <-); [|done].
    apply getEditorIds_In; [done|]. exists c.
    split; [apply registerContributionPoint_all; auto|]. by split.
Qed.

Lemma array_find_Some {A : Type} (p : A -> bool) (l : list A) x :
  array_find p l = Some x -> In x l /\ p x = true.
Proof.
  induction l as [|y l IH]; simpl; [done|].
  destruct (p y) eqn:Hy; [intros [= ->]; auto|].
  intros Hx. destruct (IH Hx). auto.
Qed.

Lemma array_find_exists {A : Type} (p : A -> bool) (l : list A) x :
  In x l -> p x = true -> exists y, array_find p l = Some y.
Proof.
  intros Hx Hp. destruct (array_find p l) as [y|] eqn:Hy; [eauto|].
  assert (Hex : existsb p l = true) by (apply existsb_exists; eauto).
  rewrite <- array_find_existsb, Hy in Hex. done.
Qed.

Lemma findMatchingContributions_In s resource c :
  well_formed s = true ->
  In c (findMatchingContributions s resource)
  <-> In c (_allContributions s) /\ matches_resource s resource c = true.
Proof.
  intros Hwf. rewrite findMatchingContributions_unsorted by done.
  rewrite <- List.filter_In. split.
  - apply (Permutation_in _ (array_sort_perm rank _)).
  - apply (Permutation_in _ (Permutation_sym (array_sort_perm rank _))).
Qed.

Lemma selectedViewType_amended s resource :
  well_formed s = true ->
  selectedViewType s resource = amended_selectedViewType s resource.
Proof.
  intros Hwf. unfold selectedViewType, amended_selectedViewType.
  rewrite possible_eligible by done.
  change rank_compare with (by_rank rank).
  rewrite (head_array_sort rank), head_associations.
  by destruct (first_highest rank (eligible s resource)).
Qed.

(** X5. With no override, a conflict of defaults is reported exactly when
    no user association that matches the resource names a registered
    contribution point and at least two registered contribution points
    match the resource with at least builtin rank and an id other than the
    default editor's. *)
Theorem conflictingDefault_iff s resource :
  well_formed s = true ->
  snd (getContributionPoint s resource None) = true <->
  first_valid_association s resource = None /\
  (2 <= length (eligible s resource))%nat.
Proof.
  intros Hwf. simpl. rewrite possible_eligible by done.
  change rank_compare with (by_rank rank).
  rewrite (Permutation_length (array_sort_perm rank (eligible s resource))).
  rewrite <- head_associations.
  rewrite andb_true_iff, Nat.eqb_eq, Nat.ltb_lt.
  destruct (getAssociationsForResource s resource); simpl; split;
    intros [? ?]; split; done || lia.
Qed.

(** X6. With no override and no exclusive candidate, a user association
    decides: the contribution point selected carries the view type of the
    first association that matches the resource and names a registered
    contribution point, provided no point with that id refuses the
    resource. *)
Theorem user_association_selected s resource a :
  well_formed s = true ->
  first_valid_association s resource = Some a ->
  truthy (viewType a) = true ->
  (forall c, In c (eligible s resource) -> is_exclusive c = false) ->
  (forall c, In c (_allContributions s) -> id (editorInfo c) = viewType a ->
             supports c resource = true) ->
  exists cp,
    fst (getContributionPoint s resource None) = Some cp /\
    id (editorInfo cp) = viewType a /\
    In cp (_allContributions s).
Proof.
  intros Hwf Ha Htruthy Hexcl Hsup. simpl.
  assert (Hsel : selectedViewType s resource = Some (viewType a)).
  { rewrite selectedViewType_amended by done. unfold amended_selectedViewType.
    rewrite Ha. simpl. rewrite Htruthy.
    destruct (first_highest rank (eligible s resource)) as [p|] eqn:Hp; [|done].
    destruct (first_highest_spec rank _ _ Hp) as (l1 & l2 & Hl & _).
    rewrite Hexcl; [done|]. rewrite Hl. apply in_or_app. right. by left. }
  rewrite Hsel. unfold first_valid_association in Ha.
  apply array_find_Some in Ha as [Hin Ha].
  apply andb_prop in Ha as [Ha Hvalid]. apply existsb_exists in Hvalid as (c & Hc & Hid).
  apply String.eqb_eq in Hid.
  assert (Hmatch : In c (findMatchingContributions s resource)).
  { apply findMatchingContributions_In; [done|]. split; [done|].
    unfold matches_resource, association_names. apply orb_true_iff. right.
    apply existsb_exists. exists a. split; [done|].
    rewrite Ha. simpl. apply String.eqb_eq. by symmetry. }
  set (pred := fun contribPoint : ContributionPoint =>
         let same := String.eqb (id (editorInfo contribPoint)) (viewType a) in
         match cp_options contribPoint with
         | Some o =>
             match canSupportResource o with
             | Some supports => same && supports resource
             | None => same
             end
         | None => same
         end).
  assert (Hpred : forall x, pred x = String.eqb (id (editorInfo x)) (viewType a)
                                     && supports x resource).
  { intros x. unfold pred, supports.
    destruct (cp_options x) as [o|]; [destruct (canSupportResource o)|];
      by rewrite ?andb_true_r. }
  destruct (array_find_exists pred _ c Hmatch) as [cp Hcp].
  { rewrite Hpred, Hid, String.eqb_refl. simpl. by apply Hsup. }
  exists cp. unfold findMatchingContribPoint. fold pred. split; [done|].
  apply array_find_Some in Hcp as [Hcpin Hcp]. rewrite Hpred in Hcp.
  apply andb_prop in Hcp as [Hcp _]. apply String.eqb_eq in Hcp. split; [done|].
  by apply (findMatchingContributions_In s resource cp Hwf).
Qed.

Lemma target_resource_None editor :
  lacks_resource editor <-> target_resource editor = None.
Proof.
  destruct editor as [r v|r v o m]; simpl; [done|].
  destruct (input_resource m), (input_resource o); intuition discriminate.
Qed.

(** X2. For an editor without a resource (for a diff editor: with a side
    without one), [resolveEditorOverride] resolves to the editor, options
    and group it was given, and does not ask the user to pick, whatever
    override but [DISABLED] the options ask for. *)
Theorem resolveEditorOverride_without_resource io s editor options group :
  lacks_resource editor ->
  options ≫= override <> Some DISABLED ->
  (forall err, whenInstalledExtensionsRegistered io <> Rejected err) ->
  fst (resolveEditorOverride io s editor options group)
  = Fulfilled (Some {| EditorOverride.editor := editor;
                       EditorOverride.options := options;
                       EditorOverride.group := group |}) /\
  ~ In PickEditor (snd (resolveEditorOverride io s editor options group)).
Proof.
  intros Hres%target_resource_None Hdis Hawait. unfold resolveEditorOverride.
  set (waits := match cache s, input_resource editor with
                | Some _, Some r => resourceMatchesCache s r
                | _, _ => false
                end).
  assert (Hw : exists b, (if waits then whenInstalledExtensionsRegistered io
                          else Fulfilled true) = Fulfilled b).
  { destruct waits; [|eauto].
    destruct (whenInstalledExtensionsRegistered io) as [b|err] eqn:Hio; [eauto|].
    by destruct (Hawait err). }
  destruct Hw as [b ->].
  unfold target_resource in Hres.
  destruct (options ≫= override) as [[v| |]|] eqn:Ho; try done;
    rewrite Hres; (split; [done|]); destruct waits; simpl; intuition discriminate.
Qed.

(** X3. An override string that is the id of no registered contribution
    point leaves the editor as it is. *)
Theorem resolveEditorOverride_unknown_override io s editor options group resource v :
  target_resource editor = Some resource ->
  options ≫= override = Some (OverrideString v) ->
  truthy v = true ->
  (forall c, In c (_allContributions s) -> id (editorInfo c) <> v) ->
  (forall err, whenInstalledExtensionsRegistered io <> Rejected err) ->
  fst (resolveEditorOverride io s editor options group)
  = Fulfilled (Some {| EditorOverride.editor := editor;
                       EditorOverride.options := options;
                       EditorOverride.group := group |}).
Proof.
  intros Hres Ho Hv Hnone Hawait. unfold resolveEditorOverride.
  set (waits := match cache s, input_resource editor with
                | Some _, Some r => resourceMatchesCache s r
                | _, _ => false
                end).
  assert (Hw : exists b, (if waits then whenInstalledExtensionsRegistered io
                          else Fulfilled true) = Fulfilled b).
  { destruct waits; [|eauto].
    destruct (whenInstalledExtensionsRegistered io) as [b|err] eqn:Hio; [eauto|].
    by destruct (Hawait err). }
  destruct Hw as [b ->]. rewrite Ho. unfold target_resource in Hres. rewrite Hres.
  unfold getContributionPoint. rewrite Hv.
  assert (Hfind : findMatchingContribPoint resource (_allContributions s) (Some v)
                  = None).
  { unfold findMatchingContribPoint.
    destruct (array_find _ (_allContributions s)) as [c|] eqn:Hc; [|done].
    apply array_find_Some in Hc as [Hin Hc].
    assert (Hid : String.eqb (id (editorInfo c)) v = true).
    { destruct (cp_options c) as [o|]; [destruct (canSupportResource o)|];
        try done. by apply andb_prop in Hc as [? _]. }
    apply String.eqb_eq in Hid. by destruct (Hnone c Hin). }
  by rewrite Hfind.
Qed.

(** X4. [resolveEditorOverride] never makes up an editor: when it
    resolves to an input, that is the editor it was given or one made by
    a factory of a registered contribution point that does not describe
    the given editor: by [createEditorInput] if the editor is no diff
    editor, and by [createDiffEditorInput] of a contribution point whose
    [canHandleDiff] is not [false] if it is one. *)
Theorem resolveEditorOverride_sound io s editor options group result :
  well_formed s = true ->
  fst (resolveEditorOverride io s editor options group) = Fulfilled (Some result) ->
  EditorOverride.editor result = editor \/
  exists cp resource o g,
    In cp (_allContributions s) /\ describes cp editor = false /\
    target_resource editor = Some resource /\
    ((is_diff editor = false /\
      EditorOverride.editor result = iwo_editor (createEditorInput cp resource o g)) \/
     (is_diff editor = true /\
      cp_options cp ≫= canHandleDiff <> Some false /\
      exists create, createDiffEditorInput cp = Some create /\
                     EditorOverride.editor result = iwo_editor (create editor o g))).
Proof.
  intros Hwf. unfold resolveEditorOverride.
  destruct (if match cache s, input_resource editor with
               | Some _, Some r => resourceMatchesCache s r
               | _, _ => false
               end
            then whenInstalledExtensionsRegistered io else Fulfilled true)
    as [b|err]; [|done].
  fold (target_resource editor).
  assert (Hcp : forall resource o cp,
            fst (getContributionPoint s resource o) = Some cp ->
            In cp (_allContributions s)).
  { intros resource o cp. unfold getContributionPoint.
    destruct (match o with Some o0 => truthy o0 | None => false end); simpl;
      unfold findMatchingContribPoint; intros [Hin _]%array_find_Some; [done|].
    by apply (findMatchingContributions_In s resource cp Hwf). }
  assert (Htail : forall resource override1 options1 group1 log1 r,
    target_resource editor = Some resource ->
    fst (let (contributionPoint, conflictingDefault) :=
           getContributionPoint s resource override1 in
         match contributionPoint with
         | None =>
             (Fulfilled (Some {| EditorOverride.editor := editor;
                                 EditorOverride.options := options1;
                                 EditorOverride.group := group1 |}), log1)
         | Some selectedContribution =>
             let handlesDiff := cp_options selectedContribution ≫= canHandleDiff in
             if is_diff editor && bool_decide (handlesDiff = Some false) then
               (Fulfilled (Some {| EditorOverride.editor := editor;
                                   EditorOverride.options := options1;
                                   EditorOverride.group := group1 |}), log1)
             else if describes selectedContribution editor then (Fulfilled None, log1)
             else
               let (input, log2) :=
                 doOverrideEditorInput editor options1 group1 selectedContribution
                   resource in
               match input with
               | None => (Fulfilled None, List.app log1 log2)
               | Some i =>
                   let log3 :=
                     if conflictingDefault
                     then [ConflictingDefaults (label (editorInfo selectedContribution))]
                     else [] in
                   let log4 :=
                     match input_viewType (iwo_editor i) with
                     | Some v => if truthy v then [OverrideTelemetry v] else []
                     | None => []
                     end in
                   (Fulfilled (Some {| EditorOverride.editor := iwo_editor i;
                                       EditorOverride.options := iwo_options i;
                                       EditorOverride.group := group1 |}),
                    List.app log1 (List.app log2 (List.app log3 log4)))
               end
         end) = Fulfilled (Some r) ->
    EditorOverride.editor r = editor \/
    exists cp resource o g,
      In cp (_allContributions s) /\ describes cp editor = false /\
      target_resource editor = Some resource /\
      ((is_diff editor = false /\
        EditorOverride.editor r = iwo_editor (createEditorInput cp resource o g)) \/
       (is_diff editor = true /\
        cp_options cp ≫= canHandleDiff <> Some false /\
        exists create, createDiffEditorInput cp = Some create /\
                       EditorOverride.editor r = iwo_editor (create editor o g)))).
  { intros resource override1 options1 group1 log1 r Hres.
    destruct (getContributionPoint s resource override1) as [[cp|] conflicting] eqn:Hg;
      [|intros [= <-]; by left].
    assert (Hin : In cp (_allContributions s))
      by (apply (Hcp resource override1); by rewrite Hg).
    simpl. unfold doOverrideEditorInput.
    destruct (is_diff editor) eqn:Hdiff; simpl.
    - destruct (bool_decide (cp_options cp ≫= canHandleDiff = Some false)) eqn:Hh;
        [intros [= <-]; by left|].
      apply bool_decide_eq_false in Hh.
      destruct (describes cp editor) eqn:Hd; [done|].
      destruct (createDiffEditorInput cp) as [create|] eqn:Hcreate; [|done].
      simpl. intros [= <-]. right. exists cp, resource. do 2 eexists.
      split; [done|]. split; [done|]. split; [done|]. right.
      split; [done|]. split; [done|]. eauto.
    - destruct (describes cp editor) eqn:Hd; [done|].
      simpl. intros [= <-]. right. exists cp, resource. do 2 eexists.
      split; [done|]. split; [done|]. split; [done|]. left. by split. }
  destruct (options ≫= override) as [[v| |]|] eqn:Ho; try done.
  - destruct (target_resource editor) as [resource|] eqn:Hres;
      [|intros [= <-]; by left].
    by apply Htail.
  - destruct (target_resource editor) as [resource|] eqn:Hres;
      [|intros [= <-]; by left].
    destruct (doPickEditorOverride io options) as [[o g]|]; [|done].
    by apply Htail.
  - destruct (target_resource editor) as [resource|] eqn:Hres;
      [|intros [= <-]; by left].
    by apply Htail.
Qed.

End EditorOverrideMoreFacts.

Section EditorOverrideMoreExamples.
Import EditorOverride EditorOverrideMore.
#[local] Existing Instance example_platform.

Lemma registerContributionPoint_getEditorIds_witness :
  well_formed example_service = true /\
  hasContributionPoint "*.txt"
    (registerContributionPoint
       (example_point "*.txt" "plain" ContributedEditorPriority.builtin)
       example_service) = true.
Proof.
  split; [reflexivity|].
  destruct (registerContributionPoint_getEditorIds
              (example_point "*.txt" "plain" ContributedEditorPriority.builtin)
              example_service "notes.txt" eq_refl) as [Hhas _].
  apply Hhas. reflexivity.
Defined.

Lemma resolveEditorOverride_without_resource_witness :
  lacks_resource (EditorInput None None) /\
  fst (resolveEditorOverride example_interaction example_service
         (EditorInput None None) None 0%nat)
  = Fulfilled (Some {| editor := EditorInput None None;
                       options := None; group := 0%nat |}).
Proof.
  split; [reflexivity|].
  apply (resolveEditorOverride_without_resource example_interaction example_service
           (EditorInput None None) None 0%nat); [reflexivity| |]; simpl; congruence.
Defined.

Lemma resolveEditorOverride_unknown_override_witness :
  @target_resource example_platform (EditorInput (Some "notes.md") None)
  = Some "notes.md" /\
  fst (resolveEditorOverride example_interaction example_service
         (EditorInput (Some "notes.md") None)
         (Some (example_options (OverrideString "ghost.editor"))) 0%nat)
  = Fulfilled (Some {| editor := EditorInput (Some "notes.md") None;
                       options := Some (example_options (OverrideString "ghost.editor"));
                       group := 0%nat |}).
Proof.
  split; [reflexivity|].
  apply (resolveEditorOverride_unknown_override example_interaction example_service
           (@EditorInput example_platform (Some "notes.md") None)
           (Some (example_options (OverrideString "ghost.editor"))) 0%nat
           "notes.md" "ghost.editor" eq_refl eq_refl eq_refl).
  - apply List.Forall_forall. vm_compute. repeat constructor; discriminate.
  - simpl. congruence.
Defined.

Lemma resolveEditorOverride_sound_witness :
  well_formed example_service = true /\
  exists result,
    fst (resolveEditorOverride example_interaction example_service
           (EditorInput (Some "notes.md") None) None 0%nat)
    = Fulfilled (Some result) /\
    editor result = @EditorInput example_platform (Some "notes.md") (Some "markdown.wysiwyg").
Proof.
  split; [reflexivity|]. eexists. split; [reflexivity|].
  destruct (resolveEditorOverride_sound example_interaction example_service
              (@EditorInput example_platform (Some "notes.md") None) None 0%nat _ eq_refl eq_refl)
    as [Hsame|_]; [discriminate Hsame|reflexivity].
Defined.

Lemma conflictingDefault_iff_witness :
  well_formed dangling_service = true /\
  snd (getContributionPoint dangling_service "notes.md" None) = false.
Proof.
  split; [reflexivity|].
  destruct (snd (getContributionPoint dangling_service "notes.md" None)) eqn:Hc;
    [|reflexivity].
  apply (conflictingDefault_iff dangling_service "notes.md" eq_refl) in Hc.
  destruct Hc as [_ Hc]. vm_compute in Hc. lia.
Defined.

Lemma user_association_selected_witness :
  well_formed example_service = true /\
  exists cp,
    fst (getContributionPoint example_service "notes.md" None) = Some cp /\
    id (editorInfo cp) = "markdown.wysiwyg".
Proof.
  split; [reflexivity|].
  destruct (user_association_selected example_service "notes.md"
              {| filenamePattern := "*.md"; viewType := "markdown.wysiwyg" |}
              eq_refl eq_refl eq_refl) as (cp & Hcp & Hid & _).
  - apply List.Forall_forall. vm_compute. repeat constructor.
  - intros c Hc _. revert c Hc. apply List.Forall_forall. vm_compute.
    repeat constructor.
  - exists cp. split; [exact Hcp|exact Hid].
Defined.

Lemma resourceMatchesCache_restarted_witness :
  well_formed example_service = true /\
  resourceMatchesCache (restarted example_service) "notes.md" = true.
Proof.
  split; [reflexivity|].
  apply (resourceMatchesCache_restarted example_service "notes.md" eq_refl).
  exists "*.md". split; [|reflexivity].
  right. exists {| filenamePattern := "*.md"; viewType := "markdown.wysiwyg" |}.
  split; [|split; reflexivity]. simpl. tauto.
Defined.

Lemma updateUserAssociations_lookup_witness :
  truthy "*.md" = true /\
  JsObject.get "*.md" (updateUserAssociations "*.md" "markdown.preview" example_service)
  = Some "markdown.preview" /\
  JsObject.get "*.bin" (updateUserAssociations "*.md" "markdown.preview" example_service)
  = Some "hexEditor".
Proof.
  split; [reflexivity|].
  destruct (updateUserAssociations_lookup "*.md" "markdown.preview" example_service)
    as [Hnew Hold].
  - apply (bool_decide_unpack _). vm_compute. reflexivity.
  - reflexivity.
  - split; [exact Hnew|]. rewrite (Hold "*.bin") by discriminate. reflexivity.
Defined.

End EditorOverrideMoreExamples.

(** ** More of the release-notes manager *)

Lemma span_spec p s a b :
  span p s = (a, b) ->
  s = List.app a b /\ forallb p a = true /\
  match b with [] => True | c :: _ => p c = false end.
Proof.
  revert a b. induction s as [|c s IH]; simpl; intros a b.
  - by intros [= <- <-].
  - destruct (p c) eqn:Hc.
    + destruct (span p s) as [a' b'] eqn:Hs. simpl. intros [= <- <-].
      destruct (IH _ _ eq_refl) as (-> & Ha & Hb).
      simpl. by rewrite Hc, Ha.
    + by intros [= <- <-].
Qed.

Lemma dot_or_other (c : N) :
  c = 46%N \/
  forall (A : Type) (x y : A), match c with 46%N => x | _ => y end = y.
Proof.
  destruct (N.eq_dec c 46%N) as [->|Hne]; [by left|right]. intros A x y.
  destruct c as [|p]; [done|].
  repeat (destruct p as [p|p|]; try done).
Qed.

Section ReleaseNotesMoreFacts.
Import ReleaseNotes ReleaseNotesMore.
Context `{Host}.

(** X10. [loadReleaseNotes] accepts exactly the versions that start with
    digits, a dot, digits and a dot, and requests the notes of the two
    numbers joined by an underscore; for any other version it rejects at
    once, without a request and without touching the cache. *)
Theorem versionLabel_shape version :
  (forall label,
     versionLabel version = Some label <->
     exists major minor,
       version_shape version major minor /\ label = List.app major (95%N :: minor)) /\
  (versionLabel version = None ->
   forall m, loadReleaseNotes version m = (Throws "not found", m)).
Proof.
  split.
  - intros label. unfold versionLabel, version_shape. split.
    + destruct (span is_digit version) as [major rest1] eqn:H1.
      apply span_spec in H1 as (-> & Hmajor & _).
      destruct major as [|d major]; [done|].
      destruct rest1 as [|c rest2]; [done|].
      destruct (dot_or_other c) as [->|Hc]; [|by rewrite Hc].
      destruct (span is_digit rest2) as [minor rest3] eqn:H2.
      apply span_spec in H2 as (-> & Hminor & _).
      destruct minor as [|e minor]; [done|].
      destruct rest3 as [|c rest4]; [done|].
      destruct (dot_or_other c) as [->|Hc]; [|by rewrite Hc].
      intros [= <-]. exists (d :: major), (e :: minor). split; [|done].
      repeat split; try done. by exists rest4.
    + intros (major & minor & (Hmaj & Hmin & Hdmaj & Hdmin & rest & ->) & ->).
      rewrite (span_app is_digit major (46%N :: _)) by done.
      destruct major as [|d major]; [done|].
      rewrite (span_app is_digit minor (46%N :: rest)) by done.
      by destruct minor.
  - intros Hnone m. unfold loadReleaseNotes. by rewrite Hnone.
Qed.

Lemma fetchReleaseNotes_heading text :
  starts_with_heading text = true ->
  fetchReleaseNotes (ResponseText (Some text)) = Fulfilled (patchKeybindings text).
Proof. intros Hh. simpl. rewrite Hh. by destruct text. Qed.

Lemma kept_step version p text m e :
  kept version p text m -> kept version p text (step m e).
Proof.
  intros (Hcons & Hc & Hp). split; [by apply consistent_step|].
  destruct e as [v|q r|v]; simpl.
  - destruct (versionLabel v) as [label|] eqn:Hl;
      [|unfold loadReleaseNotes; by rewrite Hl].
    destruct (_releaseNotesCache m !! v) as [p0|] eqn:Hv.
    { by rewrite (loadReleaseNotes_hit _ _ _ _ Hl Hv). }
    rewrite (loadReleaseNotes_miss _ _ _ Hl Hv). simpl. split.
    + rewrite lookup_insert_ne; [done|]. intros <-. by rewrite Hc in Hv.
    + rewrite lookup_app_l; [done|]. by eapply lookup_lt_Some.
  - destruct (promises m !! q) as [[v st]|] eqn:Hq;
      [|unfold respond; by rewrite Hq].
    destruct st; try (unfold respond; by rewrite Hq).
    rewrite (respond_in_flight q r v m Hq). simpl.
    assert (Hne : q <> p) by (intros ->; by rewrite Hp in Hq).
    destruct Hcons as [_ Hb]. pose proof (Hb q v Hq) as Hvq.
    assert (Hv : v <> version) by (intros ->; congruence).
    split.
    + destruct (fetchReleaseNotes r); try done. by rewrite lookup_delete_ne.
    + by rewrite list_lookup_insert_ne.
  - done.
Qed.

Lemma kept_steps version p text more m :
  kept version p text m -> kept version p text (fold_left step more m).
Proof.
  revert m. induction more as [|e more IH]; intros m Hm; [done|].
  simpl. by apply IH, kept_step.
Qed.

(** X11. When the text delivered for a pending fetch starts with [#] and
    white space, the promise is fulfilled with the patched text and stays
    the cache entry of its version whatever happens afterwards: every
    later call for the version returns that promise and sends no
    request. *)
Theorem loadReleaseNotes_success events more p version text :
  in_flight (run events) p version ->
  starts_with_heading text = true ->
  let m := fold_left step more (respond p (ResponseText (Some text)) (run events)) in
  promises m !! p = Some {| fetch_version := version;
                            fetch_state := Fulfilled (patchKeybindings text) |} /\
  loadReleaseNotes version m = (Adopts p, m).
Proof.
  intros Hp Hh m.
  assert (Hk : kept version p (patchKeybindings text) m).
  { apply kept_steps. split; [apply consistent_respond, consistent_run|].
    rewrite (respond_in_flight p _ version _ Hp), fetchReleaseNotes_heading by done.
    simpl. split.
    - by apply (consistent_run events).
    - apply list_lookup_insert_eq. by eapply lookup_lt_Some. }
  destruct Hk as ((Ha & _) & Hc & Hpm). split; [done|].
  destruct (Ha version p Hc) as [Hlab _].
  destruct (versionLabel version) as [label|] eqn:Hl; [|done].
  by apply (loadReleaseNotes_hit _ label).
Qed.

Lemma respond_versions p r m :
  map fetch_version (promises (respond p r m)) = map fetch_version (promises m).
Proof.
  unfold respond. destruct (promises m !! p) as [[v st]|] eqn:Hp; [|done].
  destruct st; try done. simpl.
  rewrite list_fmap_insert. simpl. apply list_insert_id.
  by rewrite list_lookup_fmap, Hp.
Qed.

(** X12. The manager sends one request for each promise it makes, in the
    same order, to the address of the notes of the promise's version. *)
Theorem requests_of_promises events :
  map Some (requests (run events))
  = map (fun v => url <$> versionLabel v) (map fetch_version (promises (run events))).
Proof.
  unfold run. assert (Hnew : map Some (requests new_manager)
    = map (fun v => url <$> versionLabel v) (map fetch_version (promises new_manager)))
    by done.
  revert Hnew. generalize new_manager.
  induction events as [|e events IH]; intros m Hm; [done|].
  simpl. apply IH. destruct e as [v|q r|v]; simpl.
  - destruct (versionLabel v) as [label|] eqn:Hl;
      [|unfold loadReleaseNotes; by rewrite Hl].
    destruct (_releaseNotesCache m !! v) as [p0|] eqn:Hv.
    { by rewrite (loadReleaseNotes_hit _ _ _ _ Hl Hv). }
    rewrite (loadReleaseNotes_miss _ _ _ Hl Hv). simpl.
    rewrite !map_app, Hm. simpl. by rewrite Hl.
  - rewrite respond_versions.
    assert (Hreq : requests (respond q r m) = requests m); [|by rewrite Hreq].
    unfold respond. destruct (promises m !! q) as [[v st]|]; [|done].
    by destruct st.
  - done.
Qed.

(** X13. Text without a parenthesis holds no keybinding reference:
    [patchKeybindings] returns it as it is, so notes that start with a
    heading and have no parenthesis are delivered unchanged. *)
Theorem patchKeybindings_plain text :
  lacks 40 text = true ->
  patchKeybindings text = text /\
  (starts_with_heading text = true ->
   fetchReleaseNotes (ResponseText (Some text)) = Fulfilled text).
Proof.
  intros Ht.
  assert (Hp : patchKeybindings text = text).
  { unfold patchKeybindings.
    rewrite (replace_lacks quoted_kb _ 40%N) by (done || (simpl; tauto)).
    rewrite (replace_lacks quoted_kbstyle _ 40%N) by (done || (simpl; tauto)).
    rewrite (replace_lacks plain_kb _ 40%N) by (done || (simpl; tauto)).
    by rewrite (replace_lacks plain_kbstyle _ 40%N) by (done || (simpl; tauto)). }
  split; [done|]. intros Hh. by rewrite fetchReleaseNotes_heading, Hp.
Qed.

(** X14. A reference outside code quotes, standing in text without other
    references or code quotes, is replaced by the label of its keybinding
    with the markdown syntax escaped; for [kb(...)], whose result the pass
    for [kbstyle(...)] reads again, provided the escaped label has no
    parenthesis. *)
Theorem patchKeybindings_reference pre ref post :
  plain_text pre = true -> plain_text post = true ->
  well_formed_reference ref = true ->
  (forall command, ref = KbReference command ->
     lacks 40 (escapeMarkdownSyntaxTokens (resolved ref)) = true) ->
  patchKeybindings (List.app pre (List.app (reference_text ref) post))
  = List.app pre (List.app (escapeMarkdownSyntaxTokens (resolved ref)) post).
Proof.
  intros Hpre Hpost Hwf Hlabel.
  apply andb_prop in Hpre as [Hpre40 Hpre96].
  apply andb_prop in Hpost as [Hpost40 Hpost96].
  unfold patchKeybindings.
  assert (H96 : lacks 96 (List.app pre (List.app (reference_text ref) post)) = true).
  { rewrite !lacks_app, Hpre96, Hpost96. by rewrite reference_lacks_backquote. }
  rewrite (replace_lacks quoted_kb _ 96%N) by (done || (simpl; tauto)).
  rewrite (replace_lacks quoted_kbstyle _ 96%N) by (done || (simpl; tauto)).
  destruct ref as [command|keys]; simpl in Hwf.
  - apply andb_prop in Hwf as [Hne Hc].
    rewrite replace_plain_kb by done.
    apply (replace_lacks _ _ 40%N); [simpl; tauto|done|].
    rewrite !lacks_app, Hpre40, Hpost40.
    change (kb (reference_text (KbReference command)) command)
      with (resolved (KbReference command)).
    by rewrite (Hlabel command eq_refl).
  - apply andb_prop in Hwf as [Hwf Hplain].
    apply andb_prop in Hwf as [Hne Hc].
    apply andb_prop in Hplain as [Hk40 _].
    rewrite replace_plain_kb_kbstyle by done.
    by rewrite replace_plain_kbstyle by done.
Qed.

End ReleaseNotesMoreFacts.

(** Text that lacks the first symbol of the pattern is copied. *)
Lemma replace_before_first pat f q lit pre rest :
  prefix pat = q :: lit -> is_lower q = false -> lacks q pre = true ->
  replace_from pat f 0 (List.app pre rest) = List.app pre (replace_from pat f 0 rest).
Proof.
  intros Hpat Hlow Hpre. apply replace_before. intros a c b ->.
  unfold match_at. rewrite Hpat. simpl.
  rewrite lacks_app, lacks_cons in Hpre.
  apply andb_prop in Hpre as [_ Hpre]. apply andb_prop in Hpre as [Hc _].
  unfold same_char_ci. rewrite Hlow. simpl. rewrite orb_false_r.
  by apply negb_true_iff in Hc as ->.
Qed.

Section QuotedReferences.
Import ReleaseNotes ReleaseNotesMore.
Context `{Host}.

(** A pass for quoted references on text that holds one it matches. *)
Lemma replace_quoted pat f pre ref post :
  (exists lit, prefix pat = 96%N :: lit) ->
  match_at pat (List.app (quoted_text ref) post)
  = Some (binding_of ref, length (quoted_text ref)) ->
  lacks 96 pre = true -> lacks 96 post = true ->
  replace pat f (List.app pre (List.app (quoted_text ref) post))
  = List.app pre (List.app (f (quoted_text ref) (binding_of ref)) post).
Proof.
  intros [lit Hpat] Hm Hpre Hpost. unfold replace.
  rewrite (replace_before_first pat f 96%N lit) by done. f_equal.
  assert (Hq : exists s, List.app (quoted_text ref) post = 96%N :: s
                         /\ drop (pred (length (quoted_text ref))) s = post).
  { unfold quoted_text. simpl. eexists. split; [done|].
    rewrite length_app. simpl. rewrite <- app_assoc.
    replace (length (reference_text ref) + 1)%nat
      with (length (List.app (reference_text ref) [96%N]))
      by (rewrite length_app; done).
    rewrite app_assoc. by rewrite drop_app_length. }
  destruct Hq as (s & Hs & Hdrop).
  assert (Htake : take (length (quoted_text ref)) (96%N :: s) = quoted_text ref).
  { rewrite <- Hs. by rewrite take_app_length. }
  rewrite Hs in Hm |- *.
  rewrite (replace_from_some pat f _ _ _ _ Hm), Htake, Hdrop. f_equal.
  apply (replace_lacks pat f 96%N); [rewrite Hpat; by left|done|done].
Qed.

(** The pass for [`kb(...)`] leaves a quoted [kbstyle(...)] alone. *)
Lemma replace_quoted_kb_kbstyle f pre keys post :
  lacks 96 pre = true -> plain_text post = true -> lacks 96 keys = true ->
  replace quoted_kb f (List.app pre (List.app (quoted_text (KbstyleReference keys)) post))
  = List.app pre (List.app (quoted_text (KbstyleReference keys)) post).
Proof.
  intros Hpre Hpost Hkeys. apply andb_prop in Hpost as [Hpost40 Hpost96].
  assert (Htext : List.app (quoted_text (KbstyleReference keys)) post
                  = 96%N :: List.app (reference_text (KbstyleReference keys))
                                     (96%N :: post)).
  { unfold quoted_text. simpl. by rewrite <- !app_assoc. }
  rewrite Htext. unfold replace.
  rewrite (replace_before_first quoted_kb f 96%N (str "kb(")) by done. f_equal.
  rewrite replace_from_none by reflexivity. f_equal.
  rewrite (replace_before_first quoted_kb f 96%N (str "kb(")); [|done|done|].
  2:{ unfold reference_text. by rewrite !lacks_app, Hkeys. }
  f_equal. rewrite replace_from_none.
  - f_equal. apply (replace_lacks quoted_kb f 96%N); [by left|done|done].
  - unfold match_at.
    by rewrite (match_literal_In (prefix quoted_kb) (96%N :: post) 40%N);
      [|simpl; tauto|..].
Qed.

(** X15. A reference between backquotes, standing in text without other
    references or code quotes, becomes a [code] element whose title is the
    reference's command or keys and whose content is the escaped label of
    the keybinding, provided that content has neither parenthesis nor
    backquote. *)
Theorem patchKeybindings_quoted pre ref post :
  plain_text pre = true -> plain_text post = true ->
  well_formed_reference ref = true ->
  plain_text (escapeMdHtml (resolved ref)) = true ->
  patchKeybindings (List.app pre (List.app (quoted_text ref) post))
  = List.app pre (List.app (code_element (binding_of ref) (resolved ref)) post).
Proof.
  intros Hpre Hpost Hwf Hlabel.
  pose proof Hpost as Hplain.
  assert (Hbinding : plain_text (binding_of ref) = true).
  { destruct ref as [command|keys]; simpl in Hwf |- *.
    - apply andb_prop in Hwf as [_ Hc]. unfold plain_text.
      by rewrite (forallb_lacks kb_class 40 command), (forallb_lacks kb_class 96 command).
    - by apply andb_prop in Hwf as [_ Hp]. }
  apply andb_prop in Hpre as [Hpre40 Hpre96].
  apply andb_prop in Hpost as [Hpost40 Hpost96].
  apply andb_prop in Hbinding as [Hb40 Hb96].
  apply andb_prop in Hlabel as [Hl40 Hl96].
  assert (Hcode96 : lacks 96 (code_element (binding_of ref) (resolved ref)) = true)
    by (apply code_element_lacks; [by right|done|done]).
  assert (Hcode40 : lacks 40 (code_element (binding_of ref) (resolved ref)) = true)
    by (apply code_element_lacks; [by left|done|done]).
  assert (Hrest : forall text,
    lacks 40 text = true ->
    replace plain_kbstyle
      (fun _match binding => escapeMarkdownSyntaxTokens (kbstyle _match binding))
      (replace plain_kb
         (fun _match binding => escapeMarkdownSyntaxTokens (kb _match binding)) text)
    = text).
  { intros text Ht.
    rewrite (replace_lacks plain_kb _ 40%N) by (done || (simpl; tauto)).
    by rewrite (replace_lacks plain_kbstyle _ 40%N) by (done || (simpl; tauto)). }
  unfold patchKeybindings.
  destruct ref as [command|keys]; simpl in Hwf.
  - apply andb_prop in Hwf as [Hne Hc].
    rewrite (replace_quoted quoted_kb kbCode pre (KbReference command) post);
      [|by eexists|by apply match_quoted_kb|done|done].
    change (kbCode (quoted_text (KbReference command)) (binding_of (KbReference command)))
      with (code_element (binding_of (KbReference command))
              (resolved (KbReference command))).
    rewrite (replace_lacks quoted_kbstyle _ 96%N);
      [|simpl; tauto|done|by rewrite !lacks_app, Hpre96, Hcode96, Hpost96].
    apply Hrest. by rewrite !lacks_app, Hpre40, Hcode40, Hpost40.
  - apply andb_prop in Hwf as [Hwf _].
    apply andb_prop in Hwf as [Hne Hc].
    rewrite replace_quoted_kb_kbstyle by done.
    rewrite (replace_quoted quoted_kbstyle kbstyleCode pre (KbstyleReference keys) post);
      [|by eexists|by apply match_quoted_kbstyle|done|done].
    change (kbstyleCode (quoted_text (KbstyleReference keys))
              (binding_of (KbstyleReference keys)))
      with (code_element (binding_of (KbstyleReference keys))
              (resolved (KbstyleReference keys))).
    apply Hrest. by rewrite !lacks_app, Hpre40, Hcode40, Hpost40.
Qed.

End QuotedReferences.

(** ** More of the action queue *)

Section WebviewPreloadsMoreFacts.
Import WebviewPreloads WebviewPreloadsMore.

Lemma started_begins s t : started s t -> t ∈ begins (trace s).
Proof.
  intros [state Hst]. unfold begins. apply list_elem_of_omap.
  by exists (Started t state).
Qed.

Lemma begins_inv tr t :
  t ∈ begins tr -> (exists state, Started t state ∈ tr) \/ Skipped t ∈ tr.
Proof.
  unfold begins. intros (o & Ho & Hb)%list_elem_of_omap.
  destruct o; simpl in Hb; try done; injection Hb as ->; eauto.
Qed.

Lemma ends_inv tr t : t ∈ ends tr -> Completed t ∈ tr \/ Failed t ∈ tr.
Proof.
  unfold ends. intros (o & Ho & Hb)%list_elem_of_omap.
  destruct o; simpl in Hb; try done; injection Hb as ->; eauto.
Qed.

Lemma once_no_outputs : once no_outputs.
Proof.
  split; simpl.
  - constructor.
  - constructor.
  - intros t Ht. by apply elem_of_nil in Ht.
  - intros t Ht. by apply elem_of_nil in Ht.
  - intros r record t Hr. by rewrite lookup_nil in Hr.
  - intros r record t Hr. by rewrite lookup_nil in Hr.
Qed.

Lemma once_ended_begun s t : once s -> t ∈ ends (trace s) -> t ∈ begins (trace s).
Proof. intros Ho Ht. by apply started_begins, (once_ended s Ho). Qed.

Lemma started_cons s s' o t :
  trace s' = o :: trace s -> started s t -> started s' t.
Proof. intros Htr [state Hst]. exists state. rewrite Htr. by right. Qed.

Lemma once_enqueue id s : invariant s -> once s -> once (enqueue id s).
Proof.
  intros Hs Ho. unfold enqueue.
  destruct (outputs s !! id) as [r0|] eqn:Hid.
  - split; simpl.
    + apply (once_begins s Ho).
    + apply (once_ends s Ho).
    + intros t Ht. rewrite length_app. simpl.
      pose proof (once_begun s Ho t Ht). lia.
    + intros t Ht. apply (once_ended s Ho t Ht).
    + intros r y t Hy Ht.
      apply lookup_alter_inv in Hy as [[<- (x & Hx & ->)]|[_ Hy]];
        [|by apply (once_waiting s Ho _ _ _ Hy)].
      simpl in Ht. apply elem_of_app in Ht as [Ht|Ht].
      * by apply (once_waiting s Ho _ _ _ Hx).
      * apply list_elem_of_singleton in Ht as ->. intros Hb.
        pose proof (once_begun s Ho _ Hb). lia.
    + intros r y t Hy Hq.
      assert (Hold : exists x, heap s !! r = Some x /\ queue x = Running t).
      { apply lookup_alter_inv in Hy as [[<- (x & Hx & ->)]|[_ Hy]]; eauto. }
      destruct Hold as (x & Hx & Hxq).
      destruct (once_running s Ho _ _ _ Hx Hxq) as ([id' Hid'] & Hst & Hend).
      split; [|done]. exists id'. by apply lookup_app_l_Some.
  - assert (Hfresh : length (submitted s) ∉ begins (trace s)).
    { intros Hb. pose proof (once_begun s Ho _ Hb). lia. }
    split; simpl.
    + apply NoDup_cons. split; [done|apply (once_begins s Ho)].
    + apply (once_ends s Ho).
    + intros t Ht. rewrite length_app. simpl.
      apply elem_of_cons in Ht as [->|Ht]; [lia|].
      pose proof (once_begun s Ho t Ht). lia.
    + intros t Ht. eapply started_cons; [|by apply (once_ended s Ho t Ht)]. done.
    + intros r y t [[_ Hy]|[_ <-]]%lookup_snoc_Some Ht;
        [|by apply elem_of_nil in Ht].
      intros [->|Hb]%elem_of_cons.
      * destruct (inv_waiting s Hs _ _ _ Hy Ht) as [id' Hid'].
        apply lookup_lt_Some in Hid'. lia.
      * by apply (once_waiting s Ho _ _ _ Hy Ht).
    + intros r y t [[_ Hy]|[-> <-]]%lookup_snoc_Some Hq.
      * destruct (once_running s Ho _ _ _ Hy Hq) as ([id' Hid'] & Hst & Hend).
        split; [|split; [|done]].
        -- exists id'. by apply lookup_app_l_Some.
        -- by eapply started_cons.
      * simpl in Hq. injection Hq as <-. split; [|split].
        -- exists id. by apply list_lookup_middle.
        -- exists FreshState. by left.
        -- intros He. by apply Hfresh, once_ended_begun.
Qed.

Lemma once_cancels s m' h' :
  cancels (heap s) h' -> once s ->
  once {| outputs := m'; heap := h'; submitted := submitted s; trace := trace s |}.
Proof.
  intros [_ Hh] Ho. split; simpl.
  - apply (once_begins s Ho).
  - apply (once_ends s Ho).
  - apply (once_begun s Ho).
  - intros t Ht. apply (once_ended s Ho t Ht).
  - intros r y t Hy Ht. destruct (Hh r y Hy) as (x & Hx & Hw & _).
    rewrite Hw in Ht. by apply (once_waiting s Ho _ _ _ Hx).
  - intros r y t Hy Hq. destruct (Hh r y Hy) as (x & Hx & _ & Hxq & _).
    rewrite Hxq in Hq. apply (once_running s Ho _ _ _ Hx Hq).
Qed.

Lemma once_settle t ok s : once s -> once (settle t ok s).
Proof.
  intros Ho. unfold settle.
  destruct (submitted s !! t) as [[id r]|] eqn:Ht; [|done].
  destruct (heap s !! r) as [x|] eqn:Hx; [|done]. simpl.
  destruct (queue x) as [u| |] eqn:Hq; try done.
  destruct (decide (u = t)) as [->|Hne]; [|done].
  destruct (once_running s Ho _ _ _ Hx Hq) as (_ & Hst & Hend).
  assert (Ho' : exists o, (if ok then Completed t else Failed t) = o /\
                          begun o = None /\ ended o = Some t)
    by (destruct ok; eauto).
  destruct Ho' as (o & -> & Hb & He).
  split; simpl; unfold begins, ends; simpl; rewrite ?Hb, ?He;
    fold (begins (trace s)); fold (ends (trace s)).
  - apply (once_begins s Ho).
  - apply NoDup_cons. split; [done|apply (once_ends s Ho)].
  - apply (once_begun s Ho).
  - intros u [->|Hu]%elem_of_cons.
    + by eapply started_cons.
    + eapply started_cons; [done|]. by apply (once_ended s Ho).
  - intros r' y u Hy Hu.
    assert (Hold : exists x', heap s !! r' = Some x' /\ waiting x' = waiting y).
    { apply lookup_alter_inv in Hy as [[<- (x' & Hx' & ->)]|[_ Hy]]; eauto. }
    destruct Hold as (x' & Hx' & Hw). rewrite <- Hw in Hu.
    by apply (once_waiting s Ho _ _ _ Hx').
  - intros r' y u Hy Hyq.
    apply lookup_alter_inv in Hy as [[<- (x' & Hx' & ->)]|[Hr Hy]].
    { simpl in Hyq. by destruct ok. }
    destruct (once_running s Ho _ _ _ Hy Hyq) as ([id' Hid'] & Hstu & Hendu).
    split; [by exists id'|]. split; [by eapply started_cons|].
    intros [->|Hu]%elem_of_cons; [congruence|done].
Qed.

Lemma once_continue r0 s : invariant s -> once s -> once (continue r0 s).
Proof.
  intros Hs Ho. unfold continue.
  destruct (heap s !! r0) as [[c q w]|] eqn:Hr0; [|done].
  destruct q; try done. destruct w as [|t0 rest]; [done|].
  pose proof (inv_sorted s Hs _ _ Hr0) as Hsorted. simpl in Hsorted.
  apply StronglySorted_inv in Hsorted as [_ Ht0].
  rewrite List.Forall_forall in Ht0.
  destruct (inv_waiting s Hs _ _ t0 Hr0) as [id0 Hid0]; [by left|].
  assert (Hfresh : t0 ∉ begins (trace s)).
  { apply (once_waiting s Ho _ _ _ Hr0). by left. }
  assert (Hwait : forall r y t q',
    <[r0 := {| cancelled := c; queue := q'; waiting := rest |}]> (heap s) !! r = Some y ->
    t ∈ waiting y -> t ∉ t0 :: begins (trace s)).
  { intros r y t q' Hy Ht.
    apply lookup_insert_inv in Hy as [[<- ->]|[Hne Hy]].
    - simpl in Ht. intros [->|Hb]%elem_of_cons.
      + apply list_elem_of_In, Ht0 in Ht. lia.
      + apply (once_waiting s Ho _ _ t Hr0); [by right|done].
    - intros [->|Hb]%elem_of_cons.
      + destruct (inv_waiting s Hs _ _ _ Hy Ht) as [id' Hid']. congruence.
      + by apply (once_waiting s Ho _ _ _ Hy Ht). }
  assert (Hrun : forall r y t o,
    r <> r0 -> heap s !! r = Some y -> queue y = Running t -> ended o = None ->
    (exists id, submitted s !! t = Some (id, r)) /\
    (exists state, Started t state ∈ o :: trace s) /\ t ∉ ends (trace s)).
  { intros r y t o Hne Hy Hq _.
    destruct (once_running s Ho _ _ _ Hy Hq) as (Hid & [state Hst] & Hend).
    split; [done|]. split; [|done]. exists state. by right. }
  destruct c.
  - split; simpl.
    + apply NoDup_cons. split; [done|apply (once_begins s Ho)].
    + apply (once_ends s Ho).
    + intros t [->|Ht]%elem_of_cons; [by apply lookup_lt_Some in Hid0|].
      by apply (once_begun s Ho).
    + intros t Ht. eapply started_cons; [done|]. by apply (once_ended s Ho).
    + intros r y t Hy Ht. by apply (Hwait r y t Settled).
    + intros r y t Hy Hq.
      apply lookup_insert_inv in Hy as [[<- ->]|[Hne Hy]]; [done|].
      by apply (Hrun r y t (Skipped t0)).
  - split; simpl.
    + apply NoDup_cons. split; [done|apply (once_begins s Ho)].
    + apply (once_ends s Ho).
    + intros t [->|Ht]%elem_of_cons; [by apply lookup_lt_Some in Hid0|].
      by apply (once_begun s Ho).
    + intros t Ht. eapply started_cons; [done|]. by apply (once_ended s Ho).
    + intros r y t Hy Ht. by apply (Hwait r y t (Running t0)).
    + intros r y t Hy Hq.
      apply lookup_insert_inv in Hy as [[<- ->]|[Hne Hy]].
      * simpl in Hq. injection Hq as <-. split; [by exists id0|]. split.
        -- exists (RecordState r0). by left.
        -- intros He. by apply Hfresh, once_ended_begun.
      * by apply (Hrun r y t (Started t0 (RecordState r0))).
Qed.

Lemma once_step s e : invariant s -> once s -> once (step s e).
Proof.
  intros Hs Ho. destruct e as [id| |id|t|t|r]; simpl.
  - by apply once_enqueue.
  - unfold cancelAll. apply once_cancels; [apply cancels_foldr|done].
  - unfold cancelOutput. destruct (outputs s !! id); [|done].
    apply once_cancels; [apply cancels_alter|done].
  - by apply once_settle.
  - by apply once_settle.
  - by apply once_continue.
Qed.

Lemma once_run events : once (run events).
Proof.
  unfold run. generalize invariant_no_outputs once_no_outputs.
  generalize no_outputs.
  induction events as [|e events IH]; simpl; intros s Hs Ho; [done|].
  apply IH; [by apply invariant_step|by apply once_step].
Qed.

Lemma ends_both tr t : Completed t ∈ tr -> Failed t ∈ tr -> ~ NoDup (ends tr).
Proof.
  induction tr as [|o tr IH]; intros Hc Hf Hnd; [by apply elem_of_nil in Hc|].
  apply elem_of_cons in Hc as [<-|Hc]; apply elem_of_cons in Hf as [Heq|Hf];
    try done.
  - simpl in Hnd. apply NoDup_cons in Hnd as [Hnot _]. apply Hnot.
    unfold ends. apply list_elem_of_omap. by exists (Failed t).
  - subst o. simpl in Hnd. apply NoDup_cons in Hnd as [Hnot _]. apply Hnot.
    unfold ends. apply list_elem_of_omap. by exists (Completed t).
  - apply IH; try done. unfold ends in Hnd. simpl in Hnd.
    destruct (ended o); [by apply NoDup_cons in Hnd as [_ Hnd]|done].
Qed.

(** X16. No action is started twice or both started and skipped, and only
    an action that was started settles. *)
Theorem action_begins_once events :
  NoDup (begins (trace (run events))) /\
  forall t, Completed t ∈ trace (run events) \/ Failed t ∈ trace (run events) ->
            started (run events) t /\ Skipped t ∉ trace (run events).
Proof.
  pose proof (once_run events) as Ho. split; [apply (once_begins _ Ho)|].
  intros t Ht.
  assert (Hst : started (run events) t).
  { apply (once_ended _ Ho). unfold ends. apply list_elem_of_omap.
    destruct Ht as [Ht|Ht]; eexists; (split; [exact Ht|done]). }
  split; [done|]. intros Hsk. destruct Hst as [state Hst].
  pose proof (once_begins _ Ho) as Hnd. revert Hst Hsk Hnd.
  generalize (trace (run events)). intros tr.
  induction tr as [|o tr IH]; intros Hst Hsk Hnd; [by apply elem_of_nil in Hst|].
  apply elem_of_cons in Hst as [<-|Hst]; apply elem_of_cons in Hsk as [Heq|Hsk];
    try done.
  - simpl in Hnd. apply NoDup_cons in Hnd as [Hnot _]. apply Hnot.
    unfold begins. apply list_elem_of_omap. by exists (Skipped t).
  - subst o. simpl in Hnd. apply NoDup_cons in Hnd as [Hnot _]. apply Hnot.
    unfold begins. apply list_elem_of_omap. by exists (Started t state).
  - apply IH; try done. unfold begins in Hnd. simpl in Hnd.
    destruct (begun o); [by apply NoDup_cons in Hnd as [_ Hnd]|done].
Qed.

(** X17. When an action fails, the actions queued after it on the same
    record never start. *)
Theorem failure_blocks_record events t1 t2 id1 id2 r :
  Failed t1 ∈ trace (run events) ->
  submitted (run events) !! t1 = Some (id1, r) ->
  submitted (run events) !! t2 = Some (id2, r) ->
  (t1 < t2)%nat ->
  ~ started (run events) t2.
Proof.
  intros Hf H1 H2 Hlt [state Hst].
  apply list_elem_of_split in Hst as (newer & older & Htr).
  pose proof (inv_order _ (invariant_run events) _ _ _ _ _ _ _ _ Htr Hlt H1 H2) as Hc.
  apply (ends_both (trace (run events)) t1); [|done|apply (once_ends _ (once_run events))].
  rewrite Htr. apply elem_of_app. right. by right.
Qed.

(** X28. No action is lost: an action enqueued on a record that is
    neither cancelled nor behind a failed action is waiting in the
    record's chain, running, or completed; and the chain holds the waiting
    actions in the order in which they were enqueued. *)
Theorem no_action_lost events t id r record :
  submitted (run events) !! t = Some (id, r) ->
  heap (run events) !! r = Some record ->
  cancelled record = false -> queue record <> Broken ->
  (t ∈ waiting record \/ queue record = Running t \/
   Completed t ∈ trace (run events)) /\
  StronglySorted lt (waiting record).
Proof.
  intros Ht Hr Hc Hq. pose proof (invariant_run events) as Hinv. split.
  - by apply (inv_done _ Hinv t id r record).
  - by apply (inv_sorted _ Hinv r record).
Qed.

End WebviewPreloadsMoreFacts.

(** ** The dimension updater and the focus tracker *)

Section DimensionUpdaterFacts.
Import DimensionUpdater.
Context {number : Type}.
Implicit Types s : Updater number.

Lemma pending_set_keys key v (m : list (string * DimensionUpdate number)) :
  map fst (pending_set key v m)
  = if bool_decide (key ∈ map fst m) then map fst m else List.app (map fst m) [key].
Proof.
  induction m as [|[k w] m IH]; simpl; [done|].
  destruct (String.eqb_spec k key) as [->|Hne].
  - simpl. rewrite bool_decide_true; [done|by left].
  - simpl. rewrite IH. destruct (bool_decide (key ∈ map fst m)) eqn:Hin.
    + apply bool_decide_eq_true in Hin. rewrite bool_decide_true; [done|by right].
    + apply bool_decide_eq_false in Hin. rewrite bool_decide_false; [done|].
      intros [?|?]%elem_of_cons; done.
Qed.

Lemma pending_set_here key v (m : list (string * DimensionUpdate number)) :
  In (key, v) (pending_set key v m).
Proof.
  induction m as [|[k' w] m IH]; simpl; [by left|].
  destruct (String.eqb_spec k' key) as [->|Hne]; [by left|by right].
Qed.

Lemma pending_set_ids key v (m : list (string * DimensionUpdate number)) :
  id v = key ->
  (forall k u, In (k, u) m -> id u = k) ->
  forall k u, In (k, u) (pending_set key v m) -> id u = k.
Proof.
  intros Hv. induction m as [|[k' w] m IH]; simpl; intros Hm k u.
  - by intros [[= <- <-]|[]].
  - destruct (String.eqb_spec k' key) as [->|Hne]; simpl.
    + intros [[= <- <-]|Hin]; [done|]. apply Hm. by right.
    + intros [[= <- <-]|Hin]; [apply Hm; by left|].
      apply IH; [|done]. intros k0 u0 H0. apply Hm. by right.
Qed.

Lemma pending_set_other key v (m : list (string * DimensionUpdate number)) k u :
  k <> key -> In (k, u) m -> In (k, u) (pending_set key v m).
Proof.
  intros Hk. induction m as [|[k' w] m IH]; simpl; [done|].
  destruct (String.eqb_spec k' key) as [->|Hne]; simpl.
  - intros [[= <- <-]|Hin]; [done|by right].
  - intros [Heq|Hin]; [by left|right; by apply IH].
Qed.

Lemma well_formed_new : well_formed (@new_updater number).
Proof. split; [constructor|]. split; by intros. Qed.

Lemma NoDup_snoc_fresh (l : list string) k : NoDup l -> k ∉ l -> NoDup (List.app l [k]).
Proof.
  intros Hl Hk. apply NoDup_app. split; [done|]. split; [|apply NoDup_singleton].
  by intros x Hx ->%list_elem_of_singleton.
Qed.

Lemma well_formed_update id height options s :
  well_formed s -> well_formed (update id height options s).
Proof.
  intros (Hnd & Hid & Hposted). split; [|split]; simpl; [| |done].
  - rewrite pending_set_keys.
    destruct (bool_decide (id ∈ map fst (pending s))) eqn:Hin; [done|].
    apply bool_decide_eq_false in Hin. by apply NoDup_snoc_fresh.
  - by apply pending_set_ids.
Qed.

Lemma map_id_pending (m : list (string * DimensionUpdate number)) :
  (forall k u, In (k, u) m -> id u = k) ->
  map id (map snd m) = map fst m.
Proof.
  induction m as [|[k u] m IH]; simpl; intros Hid; [done|].
  rewrite (Hid k u) by by left. f_equal. apply IH.
  intros k0 u0 H0. apply Hid. by right.
Qed.

Lemma well_formed_updateImmediately s :
  well_formed s -> well_formed (updateImmediately s).
Proof.
  intros Hs. unfold updateImmediately.
  destruct (pending s) as [|e m] eqn:Hp; [done|].
  destruct Hs as (Hnd & Hid & Hposted). rewrite Hp in Hnd, Hid.
  split; [constructor|]. split; [by intros|].
  intros updates [Hin|[<-|[]]]%in_app_or; [by apply Hposted|].
  split; [done|]. by rewrite map_id_pending.
Qed.

Lemma well_formed_step s e : well_formed s -> well_formed (step s e).
Proof.
  intros Hs. destruct e as [id height options| |]; simpl.
  - by apply well_formed_update.
  - by apply well_formed_updateImmediately.
  - unfold timeout. destruct (timeouts s) as [|n]; [done|].
    by apply well_formed_updateImmediately.
Qed.

Lemma well_formed_run (events : list (Event number)) : well_formed (run events).
Proof.
  unfold run. generalize (@well_formed_new). generalize (@new_updater number).
  induction events as [|e events IH]; simpl; intros s Hs; [done|].
  by apply IH, well_formed_step.
Qed.

(** X18. Whenever an update is pending a timeout is scheduled, and when
    the next scheduled callback runs it posts all pending updates in one
    message and leaves none pending. *)
Theorem pending_update_scheduled (events : list (Event number)) :
  pending (run events) <> [] ->
  (0 < timeouts (run events))%nat /\
  posted (timeout (run events))
  = List.app (posted (run events)) [map snd (pending (run events))] /\
  pending (timeout (run events)) = [].
Proof.
  assert (Hinv : pending (run events) <> [] -> (0 < timeouts (run events))%nat).
  { unfold run.
    assert (Hnew : pending (@new_updater number) <> [] ->
                   (0 < timeouts (@new_updater number))%nat) by done.
    revert Hnew. generalize (@new_updater number).
    induction events as [|e events IH]; simpl; intros s Hs; [done|].
    apply IH. destruct e as [id height options| |]; simpl.
    - intros _. destruct (pending s); [lia|]. by apply Hs.
    - unfold updateImmediately.
      destruct (pending s) eqn:Hp; simpl; [rewrite Hp; exact Hs|].
      intros Hne. by destruct Hne.
    - unfold timeout.
      destruct (timeouts s) as [|n] eqn:Hn; [intros Hp; specialize (Hs Hp); lia|].
      unfold updateImmediately. simpl.
      destruct (pending s) eqn:Hp; simpl; intros Hne; by destruct Hne. }
  intros Hp. specialize (Hinv Hp). split; [done|].
  unfold timeout. destruct (timeouts (run events)) as [|n]; [lia|].
  unfold updateImmediately. simpl. by destruct (pending (run events)).
Qed.

(** X19. No ['dimension'] message is empty, and none carries two updates
    for one id. *)
Theorem dimension_messages (events : list (Event number)) updates :
  In updates (posted (run events)) ->
  updates <> [] /\ NoDup (map id updates).
Proof. intros Hin. by apply (well_formed_run events). Qed.

Lemma NoDup_keys_unique (m : list (string * DimensionUpdate number)) k u v :
  NoDup (map fst m) -> In (k, u) m -> In (k, v) m -> u = v.
Proof.
  induction m as [|[k' w] m IH]; simpl; intros Hnd Hu Hv; [done|].
  apply NoDup_cons in Hnd as [Hk Hnd].
  assert (Hfresh : forall x, In (k', x) m -> False).
  { intros x Hx. apply Hk, list_elem_of_In. by apply (in_map fst) in Hx. }
  destruct Hu as [Hu|Hu]; destruct Hv as [Hv|Hv].
  - congruence.
  - assert (k' = k) as -> by congruence. by destruct (Hfresh v).
  - assert (k' = k) as -> by congruence. by destruct (Hfresh u).
  - by apply IH.
Qed.

Lemma leaves_pending id u more s :
  forallb (leaves id) more = true ->
  In (id, u) (pending s) -> In (id, u) (pending (fold_left step more s)).
Proof.
  revert s. induction more as [|e more IH]; simpl; intros s Hmore Hin; [done|].
  apply andb_prop in Hmore as [He Hmore]. apply IH; [done|].
  destruct e as [id' height options| |]; try done. simpl in He |- *.
  apply pending_set_other; [|done].
  apply negb_true_iff in He. by destruct (String.eqb_spec id' id).
Qed.

(** X20. The message posted for an id carries the height and options of
    the latest update of that id: after [update(id, height, options)] and
    updates of other ids only, the message posted next has exactly this
    update for [id]. *)
Theorem latest_update_posted (events more : list (Event number)) id0 height options :
  forallb (leaves id0) more = true ->
  let s := fold_left step more (update id0 height options (run events)) in
  let u := {| id := id0; height := height;
              update_init := init options; update_isOutput := isOutput options |} in
  exists updates,
    posted (updateImmediately s) = List.app (posted s) [updates] /\
    In u updates /\
    forall v, In v updates -> id v = id0 -> v = u.
Proof.
  intros Hmore s u.
  assert (Hs : well_formed s).
  { unfold s. assert (Hw : well_formed (update id0 height options (run events)))
      by apply well_formed_update, well_formed_run.
    revert Hw. generalize (update id0 height options (run events)).
    induction more as [|e more IH]; simpl; intros s0 Hw; [done|].
    simpl in Hmore. apply andb_prop in Hmore as [_ Hmore].
    by apply IH, well_formed_step. }
  assert (Hin : In (id0, u) (pending s)).
  { unfold s. apply leaves_pending; [done|]. simpl. apply pending_set_here. }
  destruct Hs as (Hnd & Hid & _).
  exists (map snd (pending s)). split; [|split].
  - unfold updateImmediately. by destruct (pending s).
  - by apply (in_map snd) in Hin.
  - intros v Hv Hv0. apply in_map_iff in Hv as ([k v'] & <- & Hv). simpl in *.
    rewrite (Hid _ _ Hv) in Hv0. subst k.
    symmetry. by apply (NoDup_keys_unique (pending s) id0).
Qed.

End DimensionUpdaterFacts.

Section FocusTrackerFacts.
Import FocusTracker.

Lemma replay_snoc outputId focused messages m b :
  replay outputId focused messages = Some b ->
  replay outputId focused (List.app messages [m]) = replay outputId b [m].
Proof.
  revert focused. induction messages as [|x messages IH]; intros focused; simpl.
  - by intros [= ->].
  - destruct x as [i|i].
    + destruct (negb focused && String.eqb i outputId); [apply IH|done].
    + destruct (focused && String.eqb i outputId); [apply IH|done].
Qed.

Lemma step_outputId t e : _outputId (step t e) = _outputId t.
Proof.
  destruct e; simpl.
  - unfold _onFocus. by destruct (negb (_hasFocus t)).
  - unfold _onBlur. by destruct (_hasFocus t).
  - unfold timeout. destruct (timeouts t); [done|]. by destruct (_loosingFocus t).
Qed.

Lemma tracked_step outputId activeInside t e :
  tracked outputId activeInside t -> tracked outputId activeInside (step t e).
Proof.
  intros (Hid & Hreplay & Hloose).
  split; [by rewrite step_outputId|]. destruct e; simpl.
  - unfold _onFocus. destruct (_hasFocus t) eqn:Hf; simpl; [done|].
    split; [|done]. rewrite (replay_snoc _ _ _ _ _ Hreplay). simpl.
    by rewrite Hid, String.eqb_refl.
  - unfold _onBlur. destruct (_hasFocus t) eqn:Hf; simpl.
    + split; [done|]. intros _. split; [done|lia].
    + rewrite ?Hf. split; [done|]. intros Hl. by destruct (Hloose Hl).
  - unfold timeout. destruct (timeouts t) as [|n] eqn:Hn.
    { split; [done|]. intros Hl. destruct (Hloose Hl). lia. }
    destruct (_loosingFocus t) eqn:Hl; simpl.
    + destruct (Hloose eq_refl) as [Hf _]. split; [|done].
      rewrite (replay_snoc _ _ _ _ _ Hreplay). simpl.
      by rewrite Hf, Hid, String.eqb_refl.
    + rewrite ?Hl. by split.
Qed.

Lemma tracked_run outputId activeInside events :
  tracked outputId activeInside (run outputId activeInside events).
Proof.
  unfold run.
  assert (Hnew : tracked outputId activeInside (new_tracker outputId activeInside))
    by done.
  revert Hnew. generalize (new_tracker outputId activeInside).
  induction events as [|e events IH]; simpl; intros t Ht; [done|].
  by apply IH, tracked_step.
Qed.

(** X21. The messages of a focus tracker alternate: read from the
    beginning, each ['outputFocus'] comes when the output has no focus and
    each ['outputBlur'] when it has, all name the tracker's output, and
    they end in the state [_hasFocus] holds. *)
Theorem focus_messages_alternate outputId activeInside events :
  replay outputId activeInside (posted (run outputId activeInside events))
  = Some (_hasFocus (run outputId activeInside events)).
Proof. apply (tracked_run outputId activeInside events). Qed.

Lemma timeouts_quiet n t :
  _loosingFocus t = false ->
  posted (fold_left step (repeat Timeout n) t) = posted t /\
  _hasFocus (fold_left step (repeat Timeout n) t) = _hasFocus t.
Proof.
  revert t. induction n as [|n IH]; intros t Hl; [done|]. simpl.
  assert (Ht : posted (timeout t) = posted t /\ _hasFocus (timeout t) = _hasFocus t
               /\ _loosingFocus (timeout t) = false).
  { unfold timeout. destruct (timeouts t); [done|]. by rewrite Hl. }
  destruct Ht as (Hp & Hf & Hl'). destruct (IH _ Hl') as [IHp IHf].
  by rewrite IHp, IHf.
Qed.

Lemma run_snoc outputId activeInside events e :
  run outputId activeInside (List.app events [e])
  = step (run outputId activeInside events) e.
Proof. unfold run. by rewrite fold_left_app. Qed.

(** [_loosingFocus] is set exactly when the latest event is a blur of the
    output while it had the focus. *)
Lemma loosing_after_blur outputId activeInside events :
  _loosingFocus (run outputId activeInside events) = true <->
  exists earlier,
    events = List.app earlier [Blur] /\
    _hasFocus (run outputId activeInside earlier) = true.
Proof.
  destruct events as [|e events _] using rev_ind.
  - split; [done|]. intros (earlier & Heq & _). by destruct earlier.
  - rewrite run_snoc.
    pose proof (tracked_run outputId activeInside events) as (_ & _ & Hloose).
    set (t := run outputId activeInside events) in *.
    assert (Hlast : forall earlier e',
              List.app events [e] = List.app earlier [e'] -> events = earlier /\ e = e')
      by (intros earlier e' Heq; by apply app_inj_tail in Heq).
    destruct e; simpl.
    + split.
      * unfold _onFocus. by destruct (negb (_hasFocus t)).
      * intros (earlier & Heq & _). by destruct (Hlast _ _ Heq).
    + split.
      * intros Hl. exists events. split; [done|]. fold t.
        unfold _onBlur in Hl. destruct (_hasFocus t) eqn:Hf; [done|].
        by destruct (Hloose Hl).
      * intros (earlier & Heq & Hf). destruct (Hlast _ _ Heq) as [<- _].
        fold t in Hf. unfold _onBlur. by rewrite Hf.
    + split.
      * unfold timeout. destruct (timeouts t) as [|n] eqn:Hn.
        -- intros Hl. destruct (Hloose Hl). lia.
        -- by destruct (_loosingFocus t).
      * intros (earlier & Heq & _). by destruct (Hlast _ _ Heq).
Qed.

(** X22. A callback that [_onBlur] has scheduled posts ['outputBlur'], and
    takes the focus from the tracker, exactly when the event just before
    it was a blur of the output while it had the focus; after any other
    event it posts nothing and leaves [_hasFocus] as it is.  So a focus
    event, or another callback, between a blur and a callback keeps that
    callback silent, and the callback that reports a blur need not be the
    one this blur has scheduled. *)
Theorem blur_reported_by_next_callback outputId activeInside events :
  let t := run outputId activeInside events in
  let blurred :=
    exists earlier,
      events = List.app earlier [Blur] /\
      _hasFocus (run outputId activeInside earlier) = true in
  (blurred ->
   posted (timeout t) = List.app (posted t) [OutputBlur outputId] /\
   _hasFocus (timeout t) = false) /\
  (~ blurred ->
   posted (timeout t) = posted t /\ _hasFocus (timeout t) = _hasFocus t).
Proof.
  intros t blurred.
  pose proof (tracked_run outputId activeInside events) as (Hid & _ & Hloose).
  pose proof (loosing_after_blur outputId activeInside events) as Hiff.
  fold t in Hid, Hloose, Hiff. fold blurred in Hiff. split.
  - intros Hb. apply Hiff in Hb. destruct (Hloose Hb) as [_ Hn].
    unfold timeout. destruct (timeouts t) as [|n]; [lia|].
    rewrite Hb. simpl. by rewrite Hid.
  - intros Hb. assert (Hl : _loosingFocus t = false).
    { destruct (_loosingFocus t) eqn:Hl; [|done]. destruct Hb. by apply Hiff. }
    unfold timeout. destruct (timeouts t); [done|]. by rewrite Hl.
Qed.

Lemma removeEventListener_bound r listeners :
  is_bound r = false ->
  forall x, In x listeners -> is_bound x = true ->
            In x (removeEventListener r listeners).
Proof.
  intros Hr x Hx Hb. unfold removeEventListener. apply filter_In.
  split; [done|]. apply negb_true_iff, bool_decide_eq_false.
  intros ->. congruence.
Qed.

(** X23. [dispose] removes none of the listeners the constructor has
    added: it names the methods of the prototype, and the listeners are
    the functions [bind] made of them. *)
Theorem dispose_keeps_listeners serial listeners :
  let registered := listen serial listeners in
  (exists focus blur,
     In focus registered /\ type focus = "focus" /\ is_bound focus = true /\
     In blur registered /\ type blur = "blur" /\ is_bound blur = true) /\
  forall r, In r registered -> is_bound r = true -> In r (dispose registered).
Proof.
  intros registered. split.
  - eexists {| type := "focus"; useCapture := true |},
            {| type := "blur"; useCapture := true |}.
    assert (Hadd : forall r l, In r (addEventListener r l)).
    { intros r l. unfold addEventListener.
      destruct (bool_decide (r ∈ l)) eqn:Hin.
      - apply bool_decide_eq_true in Hin. by apply list_elem_of_In.
      - apply in_or_app. right. by left. }
    assert (Hmono : forall r x l, In x l -> In x (addEventListener r l)).
    { intros r x l Hx. unfold addEventListener.
      destruct (bool_decide (r ∈ l)); [done|]. apply in_or_app. by left. }
    split; [apply Hmono, Hadd|]. split; [done|]. split; [done|].
    split; [apply Hadd|]. by split.
  - intros r Hr Hb. unfold dispose.
    apply removeEventListener_bound; [done| |done].
    by apply removeEventListener_bound.
Qed.

End FocusTrackerFacts.

(** ** Conflicting defaults and the ['html'] action *)

Section ConflictingDefaultsFacts.
Import EditorOverride ConflictingDefaults.
Context `{Platform} (extname : URI -> string).


End ConflictingDefaultsFacts.

Section HtmlActionMoreFacts.
Import WebviewPreloads.



(** X26. When the renderer loads to an API, every required preload has
    settled to something that is no [Error], and [renderCell] returns,
    the node holds what [renderCell] has put there. *)
Theorem html_action_renders env data mimeType id api children :
  content data = Extension mimeType ->
  rendererId data = Some id -> truthy id = true ->
  renderers_load env id = Resolves (ApiObject api) ->
  (forall uri, In uri (requiredPreloads data) ->
     is_error (caught (Some (waitFor env uri))) = false) ->
  renderCell api (outputId data) mimeType = Returns children ->
  html_action env data false = Some children.
Proof.
  intros Hcontent Hid Htruthy Hload Hpre Hrender.
  unfold html_action, html_completion, preloadsAndErrors.
  rewrite Hcontent, Hid, Htruthy, Hload.
  simpl. rewrite map_map.
  assert (Hnone : existsb is_error
            (map (fun uri => caught (Some (waitFor env uri))) (requiredPreloads data))
          = false).
  { apply not_true_iff_false. intros (v & Hv & He)%existsb_exists.
    apply in_map_iff in Hv as (uri & <- & Huri). by rewrite Hpre in He. }
  by rewrite Hnone, Hrender.
Qed.

End HtmlActionMoreFacts.

(** ** Closing the editors of a resource *)

Section OpenEditorsFacts.
Import EditorOverride OpenEditors.
Context `{Platform} (isEqual : option URI -> URI -> bool).

Lemma distinct_fresh seen (groups : list EditorGroup) :
  NoDup (map group_id groups) ->
  (forall g, In g groups -> ~ In (group_id g) seen) ->
  distinct seen groups = groups.
Proof.
  revert seen. induction groups as [|g groups IH]; intros seen Hnd Hseen; [done|].
  simpl in Hnd. apply NoDup_cons in Hnd as [Hg Hnd]. simpl.
  destruct (existsb (Nat.eqb (group_id g)) seen) eqn:Hex.
  - apply existsb_exists in Hex as (x & Hx & Heq). apply Nat.eqb_eq in Heq. subst x.
    destruct (Hseen g); [by left|done].
  - f_equal. apply IH; [done|]. intros g' Hg' [Heq|Hin].
    + apply Hg. rewrite Heq. apply list_elem_of_In. by apply in_map.
    + apply (Hseen g'); [by right|done].
Qed.

Lemma findExisting_In resource viewType (groups : list EditorGroup) e g :
  NoDup (map group_id groups) ->
  In (e, g) (findExistingEditorsForResource isEqual resource viewType groups) <->
  exists grp, In grp groups /\ group_id grp = g /\ In e (editors grp) /\
              is_existing isEqual resource viewType e = true.
Proof.
  intros Hnd. unfold findExistingEditorsForResource.
  rewrite distinct_fresh; [|done|by intros g' Hg' []].
  rewrite in_flat_map. split.
  - intros (grp & Hgrp & Hin). apply in_map_iff in Hin as (x & [= -> <-] & Hx).
    apply filter_In in Hx as [Hx Hm]. by exists grp.
  - intros (grp & Hgrp & <- & He & Hm). exists grp. split; [done|].
    apply in_map_iff. exists e. split; [done|]. by apply filter_In.
Qed.

(** Closing editors one after the other. *)
Lemma closeEditor_remaining g e drop (groups : list EditorGroup) :
  closeEditor g e (map (remaining drop) groups)
  = map (remaining (fun i x => drop i x || ((i =? g)%nat && same_editor x e))) groups.
Proof.
  unfold closeEditor. rewrite map_map. apply map_ext. intros grp.
  unfold remaining. simpl. destruct (Nat.eqb_spec (group_id grp) g) as [Hg|Hg].
  - f_equal. rewrite filter_filter_and. apply filter_ext. intros x.
    by rewrite andb_true_l, negb_orb.
  - f_equal. apply filter_ext. intros x. by rewrite andb_false_l, orb_false_r.
Qed.

Lemma remaining_nothing (groups : list EditorGroup) :
  map (remaining (fun _ _ => false)) groups = groups.
Proof.
  induction groups as [|[i es] groups IH]; simpl; [done|].
  rewrite IH. unfold remaining. simpl. f_equal. f_equal.
  induction es as [|x es IHes]; simpl; [done|]. by rewrite IHes.
Qed.

Lemma close_loop e0 (infos : list (OpenEditor * nat)) drop (groups : list EditorGroup) :
  fold_left (fun gs info =>
               if negb (same_editor (fst info) e0)
               then closeEditor (snd info) (fst info) gs
               else gs)
            infos (map (remaining drop) groups)
  = map (remaining (fun i x =>
           drop i x ||
           existsb (fun info => negb (same_editor (fst info) e0) &&
                                (i =? snd info)%nat && same_editor x (fst info))
                   infos))
        groups.
Proof.
  revert drop. induction infos as [|[e g] infos IH]; intros drop; simpl.
  - apply map_ext. intros grp. unfold remaining. f_equal. apply filter_ext.
    intros x. by rewrite orb_false_r.
  - destruct (same_editor e e0) eqn:He; simpl.
    + rewrite IH. apply map_ext. intros grp. unfold remaining. done.
    + rewrite closeEditor_remaining, IH. apply map_ext. intros grp.
      unfold remaining. f_equal. apply filter_ext. intros x.
      by rewrite orb_assoc.
Qed.

Lemma close_loop_all e0 (infos : list (OpenEditor * nat)) (groups : list EditorGroup) :
  fold_left (fun gs info =>
               if negb (same_editor (fst info) e0)
               then closeEditor (snd info) (fst info) gs
               else gs)
            infos groups
  = map (remaining (fun i x =>
           false ||
           existsb (fun info => negb (same_editor (fst info) e0) &&
                                (i =? snd info)%nat && same_editor x (fst info))
                   infos))
        groups.
Proof. rewrite <- (remaining_nothing groups) at 1. apply close_loop. Qed.

Lemma remaining_ids drop (groups : list EditorGroup) :
  map group_id (map (remaining drop) groups) = map group_id groups.
Proof. rewrite map_map. by apply map_ext. Qed.

Lemma opened_once_unique (groups : list EditorGroup) g1 g2 e1 e2 :
  opened_once groups ->
  In g1 groups -> In e1 (editors g1) -> In g2 groups -> In e2 (editors g2) ->
  ident e1 = ident e2 -> g1 = g2 /\ e1 = e2.
Proof.
  intros [Hids Hnd] H1 He1 H2 He2 Hid.
  induction groups as [|g groups IH]; [done|].
  simpl in Hids, Hnd. apply NoDup_cons in Hids as [Hg Hids].
  rewrite map_app in Hnd. apply NoDup_app in Hnd as (Hhere & Hdisj & Hrest).
  assert (Hin : forall g' e', In g' groups -> In e' (editors g') ->
                ident e' ∈ map ident (flat_map editors groups)).
  { intros g' e' Hg' He'. apply list_elem_of_In, in_map, in_flat_map. eauto. }
  assert (Hone : forall a b, In a (editors g) -> In b (editors g) ->
                 ident a = ident b -> a = b).
  { clear -Hhere. induction (editors g) as [|x es IHes]; [done|].
    simpl in Hhere. apply NoDup_cons in Hhere as [Hx Hes].
    intros a b [<-|Ha] [<-|Hb] Hab; try done.
    - destruct Hx. rewrite Hab. apply list_elem_of_In. by apply in_map.
    - destruct Hx. rewrite <- Hab. apply list_elem_of_In. by apply in_map.
    - by apply IHes. }
  destruct H1 as [<-|H1], H2 as [<-|H2].
  - split; [done|]. by apply Hone.
  - destruct (Hdisj (ident e1)); [apply list_elem_of_In; by apply in_map|].
    rewrite Hid. by apply (Hin g2).
  - destruct (Hdisj (ident e2)); [apply list_elem_of_In; by apply in_map|].
    rewrite <- Hid. by apply (Hin g1).
  - by apply IH.
Qed.

(** X27. After [closeExistingEditorsForResource], when no editor object
    is open twice, an editor for the resource and view type is open only
    if the first one found was in the target group, and then it is that
    one alone; editors for other resources or view types stay open in
    their groups. *)
Theorem closeExistingEditorsForResource_single resource viewType targetGroup
    (groups : list EditorGroup) e0 g0 rest :
  opened_once groups ->
  findExistingEditorsForResource isEqual resource viewType groups = (e0, g0) :: rest ->
  let groups' :=
    closeExistingEditorsForResource isEqual resource viewType targetGroup groups in
  (forall e g,
     In (e, g) (findExistingEditorsForResource isEqual resource viewType groups') <->
     (e, g) = (e0, g0) /\ targetGroup = g0) /\
  (forall grp e,
     In grp groups -> In e (editors grp) ->
     is_existing isEqual resource viewType e = false ->
     exists grp', In grp' groups' /\ group_id grp' = group_id grp /\
                  In e (editors grp')).
Proof.
  intros Honce Hfind groups'.
  pose proof Honce as [Hids Hnd].
  assert (Hfirst : In (e0, g0)
            (findExistingEditorsForResource isEqual resource viewType groups))
    by (rewrite Hfind; by left).
  apply findExisting_In in Hfirst as (grp0 & Hgrp0 & Hg0 & He0 & Hm0); [|done].
  set (infos := findExistingEditorsForResource isEqual resource viewType groups).
  set (drop := fun (i : nat) (x : OpenEditor) =>
         (false ||
          existsb (fun info => negb (same_editor (fst info) e0) &&
                               (i =? snd info)%nat && same_editor x (fst info))
                  infos) ||
         (negb (targetGroup =? g0)%nat && ((i =? g0)%nat && same_editor x e0))).
  assert (Hgroups' : groups' = map (remaining drop) groups).
  { unfold groups', closeExistingEditorsForResource. rewrite Hfind.
    cbn [fst snd]. rewrite close_loop_all. unfold drop, infos. rewrite Hfind.
    destruct (targetGroup =? g0)%nat; cbn [negb].
    - apply map_ext. intros grp. unfold remaining. f_equal. apply filter_ext.
      intros x. by rewrite orb_false_r.
    - rewrite closeEditor_remaining. apply map_ext. intros grp.
      unfold remaining. f_equal. }
  assert (Hsame : forall grp x,
    In grp groups -> In x (editors grp) -> same_editor x e0 = true ->
    grp = grp0 /\ x = e0).
  { intros grp x Hgrp Hx Hx0. apply (opened_once_unique groups); try done.
    by apply Nat.eqb_eq. }
  assert (Hhit : forall grp x,
    In grp groups -> In x (editors grp) ->
    existsb (fun info => negb (same_editor (fst info) e0) &&
                         (group_id grp =? snd info)%nat && same_editor x (fst info))
            infos
    = is_existing isEqual resource viewType x && negb (same_editor x e0)).
  { intros grp x Hgrp Hx. apply eq_true_iff_eq. rewrite existsb_exists. split.
    - intros ([e g] & Hin & Hc). cbn [fst snd] in Hc.
      apply andb_prop in Hc as [Hc Hs]. apply andb_prop in Hc as [Hne Hg].
      apply findExisting_In in Hin as (grp1 & Hgrp1 & Hg1 & He1 & Hm1); [|done].
      destruct (opened_once_unique groups grp grp1 x e) as [_ ->]; try done;
        [by apply Nat.eqb_eq|].
      by rewrite Hm1, Hne.
    - intros [Hm Hne]%andb_prop. exists (x, group_id grp). split.
      + apply findExisting_In; [done|]. by exists grp.
      + cbn [fst snd]. rewrite Hne, Nat.eqb_refl. unfold same_editor.
        by rewrite Nat.eqb_refl. }
  assert (Hdrop : forall grp x,
    In grp groups -> In x (editors grp) ->
    drop (group_id grp) x
    = is_existing isEqual resource viewType x &&
      (negb (same_editor x e0) || negb (targetGroup =? g0)%nat)).
  { intros grp x Hgrp Hx. unfold drop. rewrite orb_false_l, (Hhit grp x Hgrp Hx).
    destruct (same_editor x e0) eqn:Hx0.
    - destruct (Hsame grp x Hgrp Hx Hx0) as [-> ->].
      rewrite Hg0, Nat.eqb_refl, Hm0. cbn [negb andb orb].
      by rewrite andb_true_r.
    - cbn [negb orb]. by rewrite !andb_false_r, orb_false_r, andb_true_r. }
  split.
  - intros e g. rewrite Hgroups'.
    rewrite findExisting_In by (by rewrite remaining_ids). split.
    + intros (grp' & Hgrp' & <- & He & Hm).
      apply in_map_iff in Hgrp' as (grp & <- & Hgrp). simpl in He |- *.
      apply filter_In in He as [He Hkeep].
      rewrite (Hdrop grp e Hgrp He), Hm in Hkeep. simpl in Hkeep.
      apply negb_true_iff, orb_false_iff in Hkeep as [Hsame' Htarget].
      apply negb_false_iff in Hsame', Htarget.
      destruct (Hsame grp e Hgrp He Hsame') as [-> ->].
      apply Nat.eqb_eq in Htarget. by rewrite Hg0.
    + intros [[= -> ->] ->]. exists (remaining drop grp0).
      split; [by apply in_map|]. split; [done|]. split; [|done].
      simpl. apply filter_In. split; [done|].
      rewrite (Hdrop grp0 e0 Hgrp0 He0), Hm0. unfold same_editor.
      by rewrite !Nat.eqb_refl.
  - intros grp e Hgrp He Hm. exists (remaining drop grp). rewrite Hgroups'.
    split; [by apply in_map|]. split; [done|]. simpl. apply filter_In.
    split; [done|]. by rewrite (Hdrop grp e Hgrp He), Hm.
Qed.

End OpenEditorsFacts.

(** ** Examples *)

Section ReleaseNotesMoreExamples.
Import ReleaseNotes ReleaseNotesMore.
#[local] Existing Instance example_host.

Lemma versionLabel_shape_witness :
  versionLabel (str "1.53.0") = Some (str "1_53") /\
  loadReleaseNotes (str "1.53") new_manager = (Throws "not found", new_manager).
Proof.
  split.
  - apply (versionLabel_shape (str "1.53.0")).
    exists (str "1"), (str "53"). split; [|reflexivity].
    repeat split. by exists (str "0").
  - apply (versionLabel_shape (str "1.53")). reflexivity.
Defined.

Lemma loadReleaseNotes_success_witness :
  in_flight (run [LoadNotes (str "1.53.1")]) 0 (str "1.53.1") /\
  starts_with_heading (str "# January 2021") = true /\
  fst (loadReleaseNotes (str "1.53.1")
         (fold_left step
            [LoadNotes (str "1.53.1"); LoadNotes (str "1.54.0"); Respond 1 RequestFailed]
            (respond 0 (ResponseText (Some (str "# January 2021")))
               (run [LoadNotes (str "1.53.1")]))))
  = Adopts 0.
Proof.
  assert (Hp : in_flight (run [LoadNotes (str "1.53.1")]) 0 (str "1.53.1"))
    by reflexivity.
  split; [exact Hp|]. split; [reflexivity|].
  rewrite (proj2 (loadReleaseNotes_success [LoadNotes (str "1.53.1")]
                    [LoadNotes (str "1.53.1"); LoadNotes (str "1.54.0");
                     Respond 1 RequestFailed]
                    0%nat (str "1.53.1") (str "# January 2021") Hp eq_refl)).
  reflexivity.
Defined.

Lemma patchKeybindings_plain_witness :
  lacks 40 (str "# January 2021") = true /\
  fetchReleaseNotes (ResponseText (Some (str "# January 2021")))
  = Fulfilled (str "# January 2021").
Proof.
  split; [reflexivity|].
  apply (patchKeybindings_plain (str "# January 2021") eq_refl). reflexivity.
Defined.

Lemma patchKeybindings_reference_witness :
  well_formed_reference (KbReference (str "workbench.action.files.save")) = true /\
  patchKeybindings (str "Press kb(workbench.action.files.save) to save.")
  = str "Press Ctrl\+S to save.".
Proof.
  split; [reflexivity|].
  exact (patchKeybindings_reference (str "Press ")
           (KbReference (str "workbench.action.files.save")) (str " to save.")
           eq_refl eq_refl eq_refl (fun _ _ => eq_refl)).
Defined.

Lemma patchKeybindings_quoted_witness :
  well_formed_reference (KbstyleReference (str "ctrl+s")) = true /\
  patchKeybindings (str "Press `kbstyle(ctrl+s)` to save.")
  = List.app (str "Press ")
      (List.app (code_element (str "ctrl+s") (str "ctrl+s")) (str " to save.")).
Proof.
  split; [reflexivity|].
  exact (patchKeybindings_quoted (str "Press ")
           (KbstyleReference (str "ctrl+s")) (str " to save.")
           eq_refl eq_refl eq_refl eq_refl).
Defined.

End ReleaseNotesMoreExamples.

Section WebviewMoreExamples.
Import WebviewPreloads WebviewPreloadsMore MoreExamples.

Lemma failure_blocks_record_witness :
  Failed 0 ∈ trace (run [Enqueue "output-1"; Enqueue "output-1"; Fail 0; Continue 0]) /\
  ~ started (run [Enqueue "output-1"; Enqueue "output-1"; Fail 0; Continue 0]) 1.
Proof.
  assert (Hf : Failed 0 ∈ trace (run [Enqueue "output-1"; Enqueue "output-1";
                                      Fail 0; Continue 0]))
    by (vm_compute; left).
  split; [exact Hf|].
  exact (failure_blocks_record
           [Enqueue "output-1"; Enqueue "output-1"; Fail 0; Continue 0]
           0%nat 1%nat "output-1" "output-1" 0%nat Hf eq_refl eq_refl
           (Nat.lt_0_succ 0)).
Defined.

Lemma no_action_lost_witness :
  heap (run [Enqueue "output-1"; Enqueue "output-1"; Enqueue "output-1"]) !! 0%nat
  = Some {| cancelled := false; queue := Running 0; waiting := [1; 2]%nat |} /\
  StronglySorted lt [1; 2]%nat.
Proof.
  split; [reflexivity|].
  exact (proj2 (no_action_lost
                  [Enqueue "output-1"; Enqueue "output-1"; Enqueue "output-1"]
                  2%nat "output-1" 0%nat
                  {| cancelled := false; queue := Running 0; waiting := [1; 2]%nat |}
                  eq_refl eq_refl eq_refl ltac:(discriminate))).
Defined.


Lemma html_action_renders_witness :
  truthy "plot-renderer" = true /\
  html_action plot_loaders plot_output false = Some [TextNode "plot"].
Proof.
  split; [reflexivity|].
  apply (html_action_renders plot_loaders plot_output "application/vnd.plot"
           "plot-renderer" {| renderCell := fun _ _ => Returns [TextNode "plot"] |});
    try reflexivity.
  intros uri [].
Defined.

End WebviewMoreExamples.

Section FocusTrackerExamples.
Import FocusTracker.

(** A blur, a focus and a second blur of a focused output: the callback
    of the first blur runs after a focus event and posts the message, the
    callback of the second finds nothing to report; and with no second
    blur the callback posts nothing. *)
Lemma blur_reported_by_next_callback_witness :
  posted (run "output-1" true [Blur; Focus; Blur; Timeout]) = [OutputBlur "output-1"] /\
  timeouts (run "output-1" true [Blur; Focus; Blur; Timeout]) = 1%nat /\
  posted (run "output-1" true [Blur; Focus; Blur; Timeout; Timeout])
  = [OutputBlur "output-1"] /\
  posted (run "output-1" true [Blur; Focus; Timeout]) = [].
Proof.
  split; [|split; [reflexivity|split]].
  - apply (proj1 (blur_reported_by_next_callback "output-1" true [Blur; Focus; Blur])).
    by exists [Blur; Focus].
  - apply (proj2 (blur_reported_by_next_callback "output-1" true
                    [Blur; Focus; Blur; Timeout])).
    intros (earlier & Heq & _).
    by apply (app_inj_tail [Blur; Focus; Blur] earlier Timeout Blur) in Heq as [_ Heq].
  - apply (proj2 (blur_reported_by_next_callback "output-1" true [Blur; Focus])).
    intros (earlier & Heq & _).
    by apply (app_inj_tail [Blur] earlier Focus Blur) in Heq as [_ Heq].
Defined.

End FocusTrackerExamples.

Section DimensionExamples.
Import DimensionUpdater.

Lemma pending_update_scheduled_witness :
  pending (run [Update "output-1" 120 {| init := Some true; isOutput := Some true |}])
  <> [] /\
  (0 < timeouts (run [Update "output-1" 120
                        {| init := Some true; isOutput := Some true |}]))%nat.
Proof.
  assert (Hp : pending (run [Update "output-1" 120
                               {| init := Some true; isOutput := Some true |}]) <> [])
    by discriminate.
  split; [exact Hp|].
  exact (proj1 (pending_update_scheduled _ Hp)).
Defined.

Lemma dimension_messages_witness :
  posted (run [Update "output-1" 120 {| init := None; isOutput := Some true |};
               Update "cell-1" 40 {| init := None; isOutput := Some false |};
               Update "output-1" 130 {| init := None; isOutput := Some true |};
               Timeout])
  = [[{| id := "output-1"; height := 130; update_init := None;
         update_isOutput := Some true |};
      {| id := "cell-1"; height := 40; update_init := None;
         update_isOutput := Some false |}]] /\
  NoDup ["output-1"; "cell-1"].
Proof.
  split; [reflexivity|].
  apply (dimension_messages
           [Update "output-1" 120 {| init := None; isOutput := Some true |};
            Update "cell-1" 40 {| init := None; isOutput := Some false |};
            Update "output-1" 130 {| init := None; isOutput := Some true |};
            Timeout]
           [{| id := "output-1"; height := 130; update_init := None;
               update_isOutput := Some true |};
            {| id := "cell-1"; height := 40; update_init := None;
               update_isOutput := Some false |}]).
  simpl. left. reflexivity.
Defined.

Lemma latest_update_posted_witness :
  forallb (leaves "output-1")
    [Update "cell-1" 40 {| init := None; isOutput := Some false |}] = true /\
  exists updates,
    posted (updateImmediately
              (fold_left step
                 [Update "cell-1" 40 {| init := None; isOutput := Some false |}]
                 (update "output-1" 130 {| init := None; isOutput := Some true |}
                    (run [Update "output-1" 120
                            {| init := None; isOutput := Some true |}]))))
    = [updates] /\
    In {| id := "output-1"; height := 130; update_init := None;
          update_isOutput := Some true |} updates.
Proof.
  split; [reflexivity|].
  destruct (latest_update_posted
              [Update "output-1" 120 {| init := None; isOutput := Some true |}]
              [Update "cell-1" 40 {| init := None; isOutput := Some false |}]
              "output-1" 130 {| init := None; isOutput := Some true |} eq_refl)
    as (updates & Hposted & Hin & _).
  exists updates. split; [exact Hposted|exact Hin].
Defined.

End DimensionExamples.

Section ConflictingDefaultsExamples.
Import EditorOverride ConflictingDefaults MoreExamples.
#[local] Existing Instance example_platform.


End ConflictingDefaultsExamples.

Section OpenEditorsExamplesFacts.
Import EditorOverride OpenEditors OpenEditorsExamples.

Lemma closeExistingEditorsForResource_single_witness :
  opened_once example_groups /\
  forall e g,
    ~ In (e, g)
        (@findExistingEditorsForResource example_platform example_isEqual
           "notes.md" "markdown.preview"
           (@closeExistingEditorsForResource example_platform example_isEqual
              "notes.md" "markdown.preview" 2%nat example_groups)).
Proof.
  assert (Honce : opened_once example_groups).
  { split; apply (bool_decide_unpack _); vm_compute; reflexivity. }
  split; [exact Honce|]. intros e g Hin.
  apply (@closeExistingEditorsForResource_single example_platform example_isEqual
           "notes.md" "markdown.preview" 2%nat example_groups _ 1%nat _ Honce eq_refl)
    in Hin.
  destruct Hin as [_ Hin]. discriminate Hin.
Defined.

End OpenEditorsExamplesFacts.
